(** * Live auction server: bids, timers, the payment window and the name lock

    A shallow embedding of the Socket.IO auction server and the properties
    of its command handlers. The repository holds four versions of the
    server; the embedding follows the last one, with the roles host, bidder
    and guest, items that belong to events, a payment profile and a
    two-minute payment window. Of the first version only the price rule of
    [placeBid] is kept, for comparison.

    - JavaScript numbers are IEEE 754 binary64 values: [spec_float] with the
      operations of [SpecFloat] at precision 53 and maximal exponent 1024.
    - The module-level variables of the server ([events], [nextEventId],
      [nextItemId], [ADMIN_TOKEN]) form the [Store]; [socket.data] of each
      live connection is a [Socket.data]; a handler maps both to their new
      values and to the acknowledgement passed to the callback.
    - [Date.now()] is an argument of every handler.
    - Payload fields that the client sends as JSON numbers or strings are
      [option]s ([None]: the field is absent); identifiers are integers.
    - Broadcasts ([io.to(..).emit]) do not change the store and are left out. *)

From Stdlib Require Import ZArith Bool String Ascii Lia.
From Stdlib Require Import Floats.SpecFloat.
From stdpp Require Import gmap strings list.

(** ** JavaScript values *)

Abbreviation number := spec_float.

Module Number.
Definition prec : Z := 53.
Definition emax : Z := 1024.

(** The number written as the integer literal [z]. *)
Definition of_Z (z : Z) : number := binary_normalize prec emax z 0 false.

Definition zero : number := S754_zero false.
Definition NaN : number := S754_nan.

(** [Number.EPSILON], two to the power -52. *)
Definition EPSILON : number := S754_finite false 4503599627370496 (-104).

Definition isNaN (x : number) : bool :=
  match x with S754_nan => true | _ => false end.

Definition isFinite (x : number) : bool :=
  match x with
  | S754_zero _ | S754_finite _ _ _ => true
  | S754_infinity _ | S754_nan => false
  end.

(** [x] used as a condition: false for NaN and both zeros. *)
Definition truthy (x : number) : bool :=
  match x with
  | S754_zero _ | S754_nan => false
  | S754_infinity _ | S754_finite _ _ _ => true
  end.

Definition add (x y : number) : number := SFadd prec emax x y.
Definition mul (x y : number) : number := SFmul prec emax x y.
Definition div (x y : number) : number := SFdiv prec emax x y.

Definition lt (x y : number) : bool := SFltb x y.
Definition le (x y : number) : bool := SFleb x y.
Definition gt (x y : number) : bool := SFltb y x.
Definition ge (x y : number) : bool := SFleb y x.
(** [x === y] on numbers. *)
Definition eq (x y : number) : bool := SFeqb x y.

(** [x || y] on numbers. *)
Definition or (x y : number) : number := if truthy x then x else y.

(** [Number(v)] of a payload field: an absent field is [undefined]. *)
Definition of_payload (v : option number) : number :=
  match v with Some x => x | None => NaN end.

(** [v || d] where [v] is a payload field and [d] a number. *)
Definition payload_or (v : option number) (d : number) : number :=
  match v with Some x => or x d | None => d end.

(** A condition [o && ...] on a nullable number. *)
Definition truthy_opt (o : option number) : bool :=
  match o with Some x => truthy x | None => false end.
End Number.

Module Math.
(** [Math.max(a, b)]: NaN if either is, and +0 above -0. *)
Definition max (a b : number) : number :=
  match a, b with
  | S754_nan, _ | _, S754_nan => S754_nan
  | _, _ =>
      if Number.lt a b then b
      else if Number.lt b a then a
      else match a with S754_zero true => b | _ => a end
  end.
End Math.

Module Str.
(** White space removed by [trim], within ASCII. *)
Definition is_ws (c : ascii) : bool :=
  match nat_of_ascii c with
  | 9%nat | 10%nat | 11%nat | 12%nat | 13%nat | 32%nat => true
  | _ => false
  end.

Fixpoint trimStart (s : string) : string :=
  match s with
  | EmptyString => EmptyString
  | String c r => if is_ws c then trimStart r else s
  end.

Fixpoint trimEnd (s : string) : string :=
  match s with
  | EmptyString => EmptyString
  | String c r =>
      match trimEnd r with
      | EmptyString => if is_ws c then EmptyString else String c EmptyString
      | r' => String c r'
      end
  end.

Definition trim (s : string) : string := trimEnd (trimStart s).

Definition lower (c : ascii) : ascii :=
  let n := nat_of_ascii c in
  if ((65 <=? n)%nat && (n <=? 90)%nat)%bool then ascii_of_nat (n + 32) else c.

Fixpoint toLowerCase (s : string) : string :=
  match s with
  | EmptyString => EmptyString
  | String c r => String (lower c) (toLowerCase r)
  end.

(** [s.slice(0, n)]. *)
Definition slice_to (n : nat) (s : string) : string := String.substring 0 n s.

(** [s.slice(-n)]. *)
Definition slice_last (n : nat) (s : string) : string :=
  String.substring (String.length s - n) n s.

(** A string used as a condition. *)
Definition truthy (s : string) : bool :=
  match s with EmptyString => false | _ => true end.

Definition truthy_opt (o : option string) : bool :=
  match o with Some s => truthy s | None => false end.

(** [String(v || d)] for a payload field [v] and a literal [d]. *)
Definition payload_or (v : option string) (d : string) : string :=
  match v with Some s => if truthy s then s else d | None => d end.

(** [String(v)]. *)
Definition of_payload (v : option string) : string :=
  match v with Some s => s | None => "undefined" end.
End Str.

(** ** Data model *)

Inductive Role := Host | Bidder | Guest.
Inductive Status := Open | Sold | Closed.
Inductive PaymentStatus := PayNone | Pending | Confirmed | Expired.

#[global] Instance Role_eq_dec : EqDecision Role.
Proof. solve_decision. Defined.
#[global] Instance Status_eq_dec : EqDecision Status.
Proof. solve_decision. Defined.
#[global] Instance PaymentStatus_eq_dec : EqDecision PaymentStatus.
Proof. solve_decision. Defined.

Module Bid.
Record t := mk { name : string; amount : number; time : number }.
End Bid.

Module Item.
Record t := mk {
  id : Z;
  title : string;
  description : string;
  openingBid : number;
  currentBid : number;
  currentWinner : option string;
  bidHistory : list Bid.t;
  status : Status;
  endTime : option number;
  imageUrl : option string;
  paymentStatus : PaymentStatus;
  paymentDueAt : option number;
  paymentWinnerName : option string
}.

Definition with_status (s : Status) (i : t) : t :=
  mk (id i) (title i) (description i) (openingBid i) (currentBid i)
     (currentWinner i) (bidHistory i) s (endTime i) (imageUrl i)
     (paymentStatus i) (paymentDueAt i) (paymentWinnerName i).

Definition with_endTime (e : option number) (i : t) : t :=
  mk (id i) (title i) (description i) (openingBid i) (currentBid i)
     (currentWinner i) (bidHistory i) (status i) e (imageUrl i)
     (paymentStatus i) (paymentDueAt i) (paymentWinnerName i).

Definition with_paymentStatus (p : PaymentStatus) (i : t) : t :=
  mk (id i) (title i) (description i) (openingBid i) (currentBid i)
     (currentWinner i) (bidHistory i) (status i) (endTime i) (imageUrl i)
     p (paymentDueAt i) (paymentWinnerName i).

Definition with_paymentDueAt (d : option number) (i : t) : t :=
  mk (id i) (title i) (description i) (openingBid i) (currentBid i)
     (currentWinner i) (bidHistory i) (status i) (endTime i) (imageUrl i)
     (paymentStatus i) d (paymentWinnerName i).

Definition with_paymentWinnerName (w : option string) (i : t) : t :=
  mk (id i) (title i) (description i) (openingBid i) (currentBid i)
     (currentWinner i) (bidHistory i) (status i) (endTime i) (imageUrl i)
     (paymentStatus i) (paymentDueAt i) w.

(** [item.currentBid = amount; item.currentWinner = name;
    item.bidHistory.push(entry)]. *)
Definition with_bid (amount : number) (name : string) (entry : Bid.t) (i : t) : t :=
  mk (id i) (title i) (description i) (openingBid i) amount
     (Some name) (bidHistory i ++ [entry]) (status i) (endTime i) (imageUrl i)
     (paymentStatus i) (paymentDueAt i) (paymentWinnerName i).

(** [item.endTime && now >= item.endTime]. *)
Definition endTime_passed (now : number) (i : t) : bool :=
  match endTime i with
  | Some e => Number.truthy e && Number.ge now e
  | None => false
  end.

(** [item.paymentDueAt && now > item.paymentDueAt]. *)
Definition paymentDue_passed (now : number) (i : t) : bool :=
  match paymentDueAt i with
  | Some d => Number.truthy d && Number.gt now d
  | None => false
  end.
End Item.

Module Event.
Record t := mk {
  id : Z;
  name : string;
  location : string;
  isProtected : bool;
  password : string;
  items : list Item.t;
  minIncrement : number;
  currentLotId : option Z;
  participants : gset string;
  active : bool
}.

Definition with_items (l : list Item.t) (e : t) : t :=
  mk (id e) (name e) (location e) (isProtected e) (password e) l
     (minIncrement e) (currentLotId e) (participants e) (active e).

Definition with_minIncrement (v : number) (e : t) : t :=
  mk (id e) (name e) (location e) (isProtected e) (password e) (items e)
     v (currentLotId e) (participants e) (active e).

Definition with_currentLotId (l : option Z) (e : t) : t :=
  mk (id e) (name e) (location e) (isProtected e) (password e) (items e)
     (minIncrement e) l (participants e) (active e).

Definition with_participants (p : gset string) (e : t) : t :=
  mk (id e) (name e) (location e) (isProtected e) (password e) (items e)
     (minIncrement e) (currentLotId e) p (active e).
End Event.

Module Profile.
Record t := mk {
  name : string;
  email : string;
  last4 : string;
  deliveryAddress : string
}.
End Profile.

Module Socket.
(** [socket.data]. *)
Record data := mk {
  role : Role;
  eventId : option Z;
  nameLocked : bool;
  displayName : option string;
  paymentProfile : option Profile.t
}.

(** The values set when the connection is made. *)
Definition fresh : data := mk Guest None false None None.

Definition with_role (r : Role) (d : data) : data :=
  mk r (eventId d) (nameLocked d) (displayName d) (paymentProfile d).
End Socket.

(** The module-level variables of the server. *)
Record Store := mkStore {
  ADMIN_TOKEN : string;
  nextEventId : Z;
  nextItemId : Z;
  events : list Event.t
}.

Definition with_events (l : list Event.t) (st : Store) : Store :=
  mkStore (ADMIN_TOKEN st) (nextEventId st) (nextItemId st) l.

(** The error messages thrown by the handlers, one constructor a message;
    the numbers of a message (printed with [toFixed(2)]) are its arguments. *)
Inductive Error :=
| E_InvalidHostPassword        (* "Invalid host password" *)
| E_NameRequired               (* "Name is required" *)
| E_EmailRequired              (* "Email is required" *)
| E_HostOnly                   (* "Host only" *)
| E_EventNameRequired          (* "Event name is required" *)
| E_EventLocationRequired      (* "Event location is required" *)
| E_PasswordRequired           (* "Password required for protected event" *)
| E_ProfileFirst               (* "Complete payment profile first" *)
| E_SwitchToBidder             (* "Switch to Bidder to join" *)
| E_EventNotFound              (* "Event not found" *)
| E_WrongEventPassword         (* "Wrong event password" *)
| E_EnterName                  (* "Please enter a name" *)
| E_NameChange                 (* "Name cannot be changed during an active event" *)
| E_NameTaken                  (* "That name is already taken in this event" *)
| E_ValueNonNegative           (* "Value must be >= 0" *)
| E_TitleRequired              (* "Title is required" *)
| E_OpeningBid                 (* "Opening bid must be a number >= 0" *)
| E_NotFound                   (* "Not found" *)
| E_ItemNotOpen                (* "Item not open" *)
| E_BadDuration                (* "Bad duration" *)
| E_ItemNotFound               (* "Item not found" *)
| E_OnlyBidders                (* "Only bidders can place bids" *)
| E_JoinFirst                  (* "Join the event first" *)
| E_NameLocked                 (* "Your name is locked for this event" *)
| E_BiddingClosed (s : Status) (* "Bidding is closed (status)." *)
| E_TimeUp                     (* "Time is up, bidding closed." *)
| E_AmountPositive             (* "Bid amount must be positive" *)
| E_BidAtLeast (increment required : number)
                               (* "Bid must be at least R.. higher (>= R..)." *)
| E_BidGreater (minAcceptable : number)
                               (* "Bid must be greater than current bid (R..)." *)
| E_ItemNotSold                (* "Item not sold" *)
| E_NoPendingPayment           (* "No pending payment" *)
| E_SetupProfileFirst          (* "Setup payment profile first" *)
| E_OnlyWinner                 (* "Only the winning bidder can confirm" *)
| E_PaymentExpired.            (* "Payment window expired" *)

(** What the callback receives: [{ok: true, ..}] or [{ok: false, error}]. *)
Inductive Ack := Ok | Err (e : Error).

(** A handler of one connection: from [socket.data] and the store to their
    new values and the acknowledgement. *)
Definition Handler : Type := Socket.data -> Store -> Socket.data * Store * Ack.

(** ** Helpers of the server *)

(** [events.find(e => e.id === Number(id))]. *)
Definition getEvent (st : Store) (id : Z) : option Event.t :=
  List.find (fun e => Z.eqb (Event.id e) id) (events st).

(** [event?.items.find(i => i.id === Number(itemId))]. *)
Definition getItem (ev : option Event.t) (itemId : Z) : option Item.t :=
  match ev with
  | Some e => List.find (fun i => Z.eqb (Item.id i) itemId) (Event.items e)
  | None => None
  end.

(** [ADMIN_TOKEN && String(token) === String(ADMIN_TOKEN)]. *)
Definition isSiteAdmin (st : Store) (token : option string) : bool :=
  Str.truthy (ADMIN_TOKEN st) && String.eqb (Str.of_payload token) (ADMIN_TOKEN st).

(** Events and items are objects mutated in place: an assignment to a field
    of the object that [find] returned shows in the array that holds it. *)
Fixpoint replace_first {A : Type} (p : A -> bool) (x : A) (l : list A) : list A :=
  match l with
  | [] => []
  | y :: r => if p y then x :: r else y :: replace_first p x r
  end.

(** The store once the event object with the identifier of [ev'] has the
    fields of [ev']. *)
Definition put_event (ev' : Event.t) (st : Store) : Store :=
  with_events
    (replace_first (fun e => Z.eqb (Event.id e) (Event.id ev')) ev' (events st)) st.

(** The store once the item object of [ev] with the identifier of [item']
    has the fields of [item']. *)
Definition put_item (ev : Event.t) (item' : Item.t) (st : Store) : Store :=
  put_event
    (Event.with_items
       (replace_first (fun i => Z.eqb (Item.id i) (Item.id item')) item' (Event.items ev))
       ev)
    st.

Definition role_is (r : Role) (sd : Socket.data) : bool :=
  bool_decide (Socket.role sd = r).

(** [socket.data.eventId === ev.id]. *)
Definition joined (sd : Socket.data) (ev : Event.t) : bool :=
  match Socket.eventId sd with
  | Some i => Z.eqb i (Event.id ev)
  | None => false
  end.

(** [2 * 60 * 1000], the payment window in milliseconds. *)
Definition payment_window : number :=
  Number.mul (Number.mul (Number.of_Z 2) (Number.of_Z 60)) (Number.of_Z 1000).

(** ** Handlers *)

(** [socket.on("auth", ({ role, password }, cb) => ..)]. *)
Definition auth (role password : option string) : Handler := fun sd st =>
  let role := Str.toLowerCase (Str.payload_or role "") in
  if String.eqb role "host" then
    if negb (isSiteAdmin st password) then (sd, st, Err E_InvalidHostPassword)
    else (Socket.with_role Host sd, st, Ok)
  else if String.eqb role "bidder" then (Socket.with_role Bidder sd, st, Ok)
  else (Socket.with_role Guest sd, st, Ok).

(** [socket.on("profile:setup", ..)]. *)
Definition profile_setup (name email cardLast4 deliveryAddress : option string)
  : Handler := fun sd st =>
  let name := Str.trim (Str.payload_or name "") in
  let email := Str.trim (Str.payload_or email "") in
  let last4 := Str.slice_last 4 (Str.trim (Str.payload_or cardLast4 "")) in
  if negb (Str.truthy name) then (sd, st, Err E_NameRequired)
  else if negb (Str.truthy email) then (sd, st, Err E_EmailRequired)
  else
    (Socket.mk (Socket.role sd) (Socket.eventId sd) (Socket.nameLocked sd)
       (Some name)
       (Some (Profile.mk name email last4 (Str.payload_or deliveryAddress ""))),
     st, Ok).

(** [socket.on("host:createEvent", ..)]. *)
Definition host_createEvent (name location : option string) (isProtected : bool)
  (password : option string) : Handler := fun sd st =>
  if negb (role_is Host sd) then (sd, st, Err E_HostOnly)
  else
    let name := Str.trim (Str.payload_or name "") in
    let location := Str.trim (Str.payload_or location "") in
    let password := if isProtected then Str.payload_or password "" else ""%string in
    if negb (Str.truthy name) then (sd, st, Err E_EventNameRequired)
    else if negb (Str.truthy location) then (sd, st, Err E_EventLocationRequired)
    else if isProtected && negb (Str.truthy password) then (sd, st, Err E_PasswordRequired)
    else
      let ev := Event.mk (nextEventId st) name location isProtected password
                  [] Number.zero None ∅ true in
      (sd,
       mkStore (ADMIN_TOKEN st) (nextEventId st + 1) (nextItemId st) (events st ++ [ev]),
       Ok).

(** The event that [socket.data.eventId] names when the connection moves to
    [ev]: [prev.participants.delete(socket.data.displayName)]. *)
Definition leave_previous (sd : Socket.data) (ev : Event.t) (st : Store) : Store :=
  match Socket.eventId sd with
  | Some i =>
      if negb (Z.eqb i 0) && negb (Z.eqb i (Event.id ev)) then
        match getEvent st i, Socket.displayName sd with
        | Some prev, Some d =>
            if Str.truthy d
            then put_event (Event.with_participants (Event.participants prev ∖ {[d]}) prev) st
            else st
        | _, _ => st
        end
      else st
  | None => st
  end.

(** [socket.on("event:join", ({ eventId, name, password }, cb) => ..)]. *)
Definition event_join (eventId : Z) (name password : option string)
  : Handler := fun sd st =>
  if negb (bool_decide (is_Some (Socket.paymentProfile sd))) then (sd, st, Err E_ProfileFirst)
  else if negb (role_is Bidder sd) then (sd, st, Err E_SwitchToBidder)
  else
    match getEvent st eventId with
    | None => (sd, st, Err E_EventNotFound)
    | Some ev =>
        if Event.isProtected ev
           && negb (String.eqb (Str.payload_or password "") (Event.password ev))
        then (sd, st, Err E_WrongEventPassword)
        else
          let trimmed := Str.trim (Str.payload_or name "") in
          let name := if Str.truthy trimmed then Some trimmed else Socket.displayName sd in
          match name with
          | None => (sd, st, Err E_EnterName)
          | Some name =>
              if negb (Str.truthy name) then (sd, st, Err E_EnterName)
              else if Socket.nameLocked sd && Str.truthy_opt (Socket.displayName sd)
                      && joined sd ev
                      && negb (bool_decide (Some name = Socket.displayName sd))
              then (sd, st, Err E_NameChange)
              else if (negb (Socket.nameLocked sd) || negb (joined sd ev)
                       || negb (Str.truthy_opt (Socket.displayName sd)))
                      && bool_decide (name ∈ Event.participants ev)
              then (sd, st, Err E_NameTaken)
              else
                let st1 := leave_previous sd ev st in
                let st2 :=
                  put_event (Event.with_participants ({[name]} ∪ Event.participants ev) ev) st1 in
                (Socket.mk (Socket.role sd) (Some (Event.id ev)) true (Some name)
                   (Socket.paymentProfile sd),
                 st2, Ok)
          end
    end.

(** [socket.on("disconnect", ..)]; [getEvent(null)] looks for the
    identifier [Number(null)], which is 0. *)
Definition disconnect (sd : Socket.data) (st : Store) : Store :=
  match getEvent st (default 0%Z (Socket.eventId sd)), Socket.displayName sd with
  | Some ev, Some d =>
      if Str.truthy d
      then put_event (Event.with_participants (Event.participants ev ∖ {[d]}) ev) st
      else st
  | _, _ => st
  end.

(** [socket.on("host:setMinIncrement", ..)]. *)
Definition host_setMinIncrement (eventId : Z) (value : option number)
  : Handler := fun sd st =>
  if negb (role_is Host sd) then (sd, st, Err E_HostOnly)
  else
    match getEvent st eventId with
    | None => (sd, st, Err E_EventNotFound)
    | Some ev =>
        let v := Number.of_payload value in
        if negb (Number.isFinite v) || Number.lt v Number.zero
        then (sd, st, Err E_ValueNonNegative)
        else (sd, put_event (Event.with_minIncrement v ev) st, Ok)
    end.

(** [socket.on("host:createItem", ..)]. *)
Definition host_createItem (eventId : Z) (title description : option string)
  (openingBid : option number) (imageUrl : option string) : Handler := fun sd st =>
  if negb (role_is Host sd) then (sd, st, Err E_HostOnly)
  else
    match getEvent st eventId with
    | None => (sd, st, Err E_EventNotFound)
    | Some ev =>
        let title := Str.trim (Str.payload_or title "") in
        let description := Str.trim (Str.payload_or description "") in
        let open := Number.of_payload openingBid in
        if negb (Str.truthy title) then (sd, st, Err E_TitleRequired)
        else if negb (Number.isFinite open) || Number.lt open Number.zero
        then (sd, st, Err E_OpeningBid)
        else
          let item :=
            Item.mk (nextItemId st) title description open open None [] Open None
              (if Str.truthy_opt imageUrl then imageUrl else None)
              PayNone None None in
          let st1 :=
            mkStore (ADMIN_TOKEN st) (nextEventId st) (nextItemId st + 1) (events st) in
          (sd, put_event (Event.with_items (Event.items ev ++ [item]) ev) st1, Ok)
    end.

(** [socket.on("host:startTimer", ({ eventId, itemId, durationSeconds }, cb) => ..)]. *)
Definition host_startTimer (now : number) (eventId itemId : Z)
  (durationSeconds : option number) : Handler := fun sd st =>
  if negb (role_is Host sd) then (sd, st, Err E_HostOnly)
  else
    let ev := getEvent st eventId in
    match ev, getItem ev itemId with
    | Some ev, Some item =>
        if negb (bool_decide (Item.status item = Open)) then (sd, st, Err E_ItemNotOpen)
        else
          let dur := Number.payload_or durationSeconds (Number.of_Z 60) in
          if negb (Number.isFinite dur) || Number.le dur Number.zero
          then (sd, st, Err E_BadDuration)
          else
            let item' :=
              Item.with_endTime
                (Some (Number.add now (Number.mul dur (Number.of_Z 1000)))) item in
            (sd, put_item ev item' st, Ok)
    | _, _ => (sd, st, Err E_NotFound)
    end.

(** [socket.on("host:stopTimer", ..)]. *)
Definition host_stopTimer (eventId itemId : Z) : Handler := fun sd st =>
  if negb (role_is Host sd) then (sd, st, Err E_HostOnly)
  else
    let ev := getEvent st eventId in
    match ev, getItem ev itemId with
    | Some ev, Some item => (sd, put_item ev (Item.with_endTime None item) st, Ok)
    | _, _ => (sd, st, Err E_NotFound)
    end.

(** The item after the assignments of [host:markSold]. *)
Definition sold_item (now : number) (item : Item.t) : Item.t :=
  let item1 := Item.with_endTime None (Item.with_status Sold item) in
  if Str.truthy_opt (Item.currentWinner item1) then
    Item.with_paymentDueAt (Some (Number.add now payment_window))
      (Item.with_paymentWinnerName (Item.currentWinner item1)
         (Item.with_paymentStatus Pending item1))
  else item1.

(** [socket.on("host:markSold", ({ eventId, itemId }, cb) => ..)]. *)
Definition host_markSold (now : number) (eventId itemId : Z) : Handler := fun sd st =>
  if negb (role_is Host sd) then (sd, st, Err E_HostOnly)
  else
    let ev := getEvent st eventId in
    match ev, getItem ev itemId with
    | Some ev, Some item => (sd, put_item ev (sold_item now item) st, Ok)
    | _, _ => (sd, st, Err E_NotFound)
    end.

(** The item after the assignments of [host:reopen]. *)
Definition reopened_item (now : number) (item : Item.t) : Item.t :=
  let item1 := Item.with_status Open item in
  let item2 := if Item.endTime_passed now item1 then Item.with_endTime None item1 else item1 in
  Item.with_paymentWinnerName None
    (Item.with_paymentDueAt None (Item.with_paymentStatus PayNone item2)).

(** [socket.on("host:reopen", ..)]. *)
Definition host_reopen (now : number) (eventId itemId : Z) : Handler := fun sd st =>
  if negb (role_is Host sd) then (sd, st, Err E_HostOnly)
  else
    let ev := getEvent st eventId in
    match ev, getItem ev itemId with
    | Some ev, Some item => (sd, put_item ev (reopened_item now item) st, Ok)
    | _, _ => (sd, st, Err E_NotFound)
    end.

(** [socket.on("host:setCurrentLot", ..)]. *)
Definition host_setCurrentLot (eventId itemId : Z) : Handler := fun sd st =>
  if negb (role_is Host sd) then (sd, st, Err E_HostOnly)
  else
    match getEvent st eventId with
    | None => (sd, st, Err E_EventNotFound)
    | Some ev =>
        if negb (Z.eqb itemId 0) && negb (bool_decide (is_Some (getItem (Some ev) itemId)))
        then (sd, st, Err E_ItemNotFound)
        else
          (sd,
           put_event
             (Event.with_currentLotId (if Z.eqb itemId 0 then None else Some itemId) ev) st,
           Ok)
    end.

(** [let required = minAcceptable + (ev.minIncrement || 0);
     if (ev.minIncrement === 0) required = minAcceptable + Number.EPSILON;];
    the version with one global [MIN_INCREMENT] has the same two statements. *)
Definition required_amount (minIncrement minAcceptable : number) : number :=
  if Number.eq minIncrement Number.zero
  then Number.add minAcceptable Number.EPSILON
  else Number.add minAcceptable (Number.or minIncrement Number.zero).

(** [socket.data.displayName || String(name || "Anonymous").slice(0, 40)]. *)
Definition effective_name (sd : Socket.data) (name : option string) : string :=
  match Socket.displayName sd with
  | Some d => if Str.truthy d then d else Str.slice_to 40 (Str.payload_or name "Anonymous")
  | None => Str.slice_to 40 (Str.payload_or name "Anonymous")
  end.

(** The item after the assignments of an accepted bid. *)
Definition bid_item (now amount : number) (effectiveName : string) (item : Item.t) : Item.t :=
  let item1 :=
    Item.with_bid amount effectiveName (Bid.mk effectiveName amount now) item in
  if negb (bool_decide (Item.paymentStatus item1 = PayNone)) then
    Item.with_paymentWinnerName None
      (Item.with_paymentDueAt None (Item.with_paymentStatus PayNone item1))
  else item1.

(** [item.status = "closed"; item.endTime = null]. *)
Definition closed_item (item : Item.t) : Item.t :=
  Item.with_endTime None (Item.with_status Closed item).

(** [socket.on("placeBid", ({ eventId, itemId, amount, name }, cb) => ..)]. *)
Definition placeBid (now : number) (eventId itemId : Z) (amount : option number)
  (name : option string) : Handler := fun sd st =>
  if negb (role_is Bidder sd) then (sd, st, Err E_OnlyBidders)
  else
    let ev := getEvent st eventId in
    match ev, getItem ev itemId with
    | Some ev, Some item =>
        if negb (joined sd ev) then (sd, st, Err E_JoinFirst)
        else
          let effectiveName := effective_name sd name in
          if negb (Socket.nameLocked sd)
             || negb (bool_decide (Some effectiveName = Socket.displayName sd))
          then (sd, st, Err E_NameLocked)
          else if negb (bool_decide (Item.status item = Open))
          then (sd, st, Err (E_BiddingClosed (Item.status item)))
          else if Item.endTime_passed now item
          then (sd, put_item ev (closed_item item) st, Err E_TimeUp)
          else
            let amount := Number.of_payload amount in
            if negb (Number.isFinite amount) || Number.le amount Number.zero
            then (sd, st, Err E_AmountPositive)
            else
              let minAcceptable := Math.max (Item.openingBid item) (Item.currentBid item) in
              let required := required_amount (Event.minIncrement ev) minAcceptable in
              if Number.lt amount required then
                if Number.gt (Event.minIncrement ev) Number.zero
                then (sd, st, Err (E_BidAtLeast (Event.minIncrement ev) required))
                else (sd, st, Err (E_BidGreater minAcceptable))
              else (sd, put_item ev (bid_item now amount effectiveName item) st, Ok)
    | _, _ => (sd, st, Err E_NotFound)
    end.

(** [item.paymentStatus = "confirmed"; item.paymentDueAt = null]. *)
Definition confirmed_item (item : Item.t) : Item.t :=
  Item.with_paymentDueAt None (Item.with_paymentStatus Confirmed item).

(** [socket.on("payment:confirm", ({ eventId, itemId }, cb) => ..)]. *)
Definition payment_confirm (now : number) (eventId itemId : Z) : Handler := fun sd st =>
  let ev := getEvent st eventId in
  match ev, getItem ev itemId with
  | Some ev, Some item =>
      if negb (bool_decide (Item.status item = Sold)) then (sd, st, Err E_ItemNotSold)
      else if negb (bool_decide (Item.paymentStatus item = Pending))
      then (sd, st, Err E_NoPendingPayment)
      else if negb (bool_decide (is_Some (Socket.paymentProfile sd)))
      then (sd, st, Err E_SetupProfileFirst)
      else if negb (bool_decide (Socket.displayName sd = Item.paymentWinnerName item))
      then (sd, st, Err E_OnlyWinner)
      else if Item.paymentDue_passed now item
      then (sd, put_item ev (Item.with_paymentStatus Expired item) st, Err E_PaymentExpired)
      else (sd, put_item ev (confirmed_item item) st, Ok)
  | _, _ => (sd, st, Err E_NotFound)
  end.

(** ** The expiry sweep: the body of the [setInterval] callback *)

Definition sweep_item (now : number) (item : Item.t) : Item.t :=
  let item1 :=
    if bool_decide (Item.status item = Open) && Item.endTime_passed now item
    then closed_item item else item in
  if bool_decide (Item.status item1 = Sold)
     && bool_decide (Item.paymentStatus item1 = Pending)
     && Item.paymentDue_passed now item1
  then Item.with_paymentStatus Expired item1
  else item1.

Definition sweep_event (now : number) (ev : Event.t) : Event.t :=
  Event.with_items (List.map (sweep_item now) (Event.items ev)) ev.

Definition sweep (now : number) (st : Store) : Store :=
  with_events (List.map (sweep_event now) (events st)) st.

(** ** The server: the store and the live connections *)

Record Server := mkServer {
  store : Store;
  sockets : gmap nat Socket.data
}.

(** What can happen to the server: a connection is made or lost, a client
    emits a message on its connection, the timer fires. *)
Inductive Command :=
| Connect (sid : nat)
| Disconnect (sid : nat)
| Auth (sid : nat) (role password : option string)
| ProfileSetup (sid : nat) (name email cardLast4 deliveryAddress : option string)
| CreateEvent (sid : nat) (name location : option string) (isProtected : bool)
    (password : option string)
| Join (sid : nat) (eventId : Z) (name password : option string)
| SetMinIncrement (sid : nat) (eventId : Z) (value : option number)
| CreateItem (sid : nat) (eventId : Z) (title description : option string)
    (openingBid : option number) (imageUrl : option string)
| StartTimer (sid : nat) (eventId itemId : Z) (durationSeconds : option number)
| StopTimer (sid : nat) (eventId itemId : Z)
| MarkSold (sid : nat) (eventId itemId : Z)
| Reopen (sid : nat) (eventId itemId : Z)
| SetCurrentLot (sid : nat) (eventId itemId : Z)
| PlaceBid (sid : nat) (eventId itemId : Z) (amount : option number) (name : option string)
| PaymentConfirm (sid : nat) (eventId itemId : Z)
| Tick.

(** Runs handler [h] on connection [sid]; nothing runs for a connection
    that does not exist. *)
Definition on (sid : nat) (h : Handler) (sv : Server) : Server * option Ack :=
  match sockets sv !! sid with
  | Some sd =>
      let '(sd', st', a) := h sd (store sv) in
      (mkServer st' (<[sid := sd']> (sockets sv)), Some a)
  | None => (sv, None)
  end.

(** One command, at clock reading [now]. *)
Definition step (now : number) (c : Command) (sv : Server) : Server * option Ack :=
  match c with
  | Connect sid =>
      match sockets sv !! sid with
      | Some _ => (sv, None)
      | None => (mkServer (store sv) (<[sid := Socket.fresh]> (sockets sv)), None)
      end
  | Disconnect sid =>
      match sockets sv !! sid with
      | Some sd => (mkServer (disconnect sd (store sv)) (delete sid (sockets sv)), None)
      | None => (sv, None)
      end
  | Auth sid role password => on sid (auth role password) sv
  | ProfileSetup sid name email cardLast4 deliveryAddress =>
      on sid (profile_setup name email cardLast4 deliveryAddress) sv
  | CreateEvent sid name location isProtected password =>
      on sid (host_createEvent name location isProtected password) sv
  | Join sid eventId name password => on sid (event_join eventId name password) sv
  | SetMinIncrement sid eventId value => on sid (host_setMinIncrement eventId value) sv
  | CreateItem sid eventId title description openingBid imageUrl =>
      on sid (host_createItem eventId title description openingBid imageUrl) sv
  | StartTimer sid eventId itemId durationSeconds =>
      on sid (host_startTimer now eventId itemId durationSeconds) sv
  | StopTimer sid eventId itemId => on sid (host_stopTimer eventId itemId) sv
  | MarkSold sid eventId itemId => on sid (host_markSold now eventId itemId) sv
  | Reopen sid eventId itemId => on sid (host_reopen now eventId itemId) sv
  | SetCurrentLot sid eventId itemId => on sid (host_setCurrentLot eventId itemId) sv
  | PlaceBid sid eventId itemId amount name =>
      on sid (placeBid now eventId itemId amount name) sv
  | PaymentConfirm sid eventId itemId => on sid (payment_confirm now eventId itemId) sv
  | Tick => (mkServer (sweep now (store sv)) (sockets sv), None)
  end.

(** The server at start: no event, no connection, both counters at 1. *)
Definition init (token : string) : Server :=
  mkServer (mkStore token 1 1 []) ∅.

(** A run: commands with the clock reading at which each is handled. *)
Fixpoint run (tr : list (number * Command)) (sv : Server) : Server :=
  match tr with
  | [] => sv
  | (now, c) :: tr' => run tr' (fst (step now c sv))
  end.

(** The acknowledgement of the last command of a run. *)
Fixpoint last_ack (tr : list (number * Command)) (sv : Server) : option Ack :=
  match tr with
  | [] => None
  | [(now, c)] => snd (step now c sv)
  | (now, c) :: tr' => last_ack tr' (fst (step now c sv))
  end.

Inductive reachable (token : string) : Server -> Prop :=
| reachable_init : reachable token (init token)
| reachable_step now c sv :
    reachable token sv -> reachable token (fst (step now c sv)).

(** The item [itemId] of event [eventId], as a read would see it. *)
Definition lookup_item (st : Store) (eventId itemId : Z) : option Item.t :=
  getItem (getEvent st eventId) itemId.

(** ** The price rule of the first version of [placeBid]

    Before increments were added the handler read
    [if (amount <= minAcceptable) throw ..]. *)
Module FirstVersion.
Definition rejects (amount minAcceptable : number) : bool :=
  Number.le amount minAcceptable.
End FirstVersion.

(** ** Vocabulary of the statements *)

(** A bidder bound to [ev] under the locked name [d]: what [placeBid] asks
    of the connection before it looks at the item. *)
Definition bound_bidder (sd : Socket.data) (ev : Event.t) (d : string) : Prop :=
  Socket.role sd = Bidder /\ joined sd ev = true /\ Socket.nameLocked sd = true
  /\ Socket.displayName sd = Some d /\ Str.truthy d = true.

(** Connection [sid] is bound to event [eventId] under the name [d]. *)
Definition bound_as (sv : Server) (sid : nat) (eventId : Z) (d : string) : Prop :=
  exists sd, sockets sv !! sid = Some sd
    /\ Socket.eventId sd = Some eventId /\ Socket.nameLocked sd = true
    /\ Socket.displayName sd = Some d.

(** The checks of [payment:confirm] that come before the deadline is read:
    the item is sold, its payment is pending, the connection has a payment
    profile, and its display name is the recorded winner. *)
Definition entitled (sd : Socket.data) (item : Item.t) : Prop :=
  Item.status item = Sold /\ Item.paymentStatus item = Pending
  /\ is_Some (Socket.paymentProfile sd)
  /\ Socket.displayName sd = Item.paymentWinnerName item.

(** The command is a [profile:setup] of connection [sid] with a name and an
    email that are not blank. *)
Definition completes_profile (sid : nat) (c : Command) : bool :=
  match c with
  | ProfileSetup s name email _ _ =>
      Nat.eqb s sid && Str.truthy (Str.trim (Str.payload_or name ""))
      && Str.truthy (Str.trim (Str.payload_or email ""))
  | _ => false
  end.

(** The connection has no payment profile, or does not exist. *)
Definition without_profile (sv : Server) (sid : nat) : Prop :=
  forall sd, sockets sv !! sid = Some sd -> Socket.paymentProfile sd = None.

(** The handler leaves the payment profile of the connection as it is. *)
Definition keeps_profile (h : Handler) : Prop :=
  forall sd st, Socket.paymentProfile (fst (fst (h sd st))) = Socket.paymentProfile sd.

(** ** How the store changes *)

(** The assignments that the handlers and the sweep make to an item of
    event [ev] that exists, at clock reading [now]. *)
Inductive item_update (now : number) (ev : Event.t) (item : Item.t) : Item.t -> Prop :=
| update_startTimer dur :
    Item.status item = Open -> Number.isFinite dur = true ->
    item_update now ev item
      (Item.with_endTime (Some (Number.add now (Number.mul dur (Number.of_Z 1000)))) item)
| update_stopTimer :
    item_update now ev item (Item.with_endTime None item)
| update_markSold :
    item_update now ev item (sold_item now item)
| update_reopen :
    item_update now ev item (reopened_item now item)
| update_close :
    Item.status item = Open -> Item.endTime_passed now item = true ->
    item_update now ev item (closed_item item)
| update_bid amount name :
    Item.status item = Open -> Item.endTime_passed now item = false ->
    Number.isFinite amount = true ->
    Number.lt amount
      (required_amount (Event.minIncrement ev)
         (Math.max (Item.openingBid item) (Item.currentBid item)))
    = false ->
    item_update now ev item (bid_item now amount name item)
| update_confirm :
    Item.status item = Sold -> Item.paymentStatus item = Pending ->
    Item.paymentDue_passed now item = false ->
    item_update now ev item (confirmed_item item)
| update_expire :
    Item.status item = Sold -> Item.paymentStatus item = Pending ->
    Item.paymentDue_passed now item = true ->
    item_update now ev item (Item.with_paymentStatus Expired item).

(** An item as [host:createItem] makes it. *)
Definition new_item (item : Item.t) : Prop :=
  exists id title description open imageUrl,
    Number.isFinite open = true /\ Number.lt open Number.zero = false
    /\ item = Item.mk id title description open open None [] Open None imageUrl
               PayNone None None.

(** Every read of an item by its identifiers: an item that was there is
    still there, as it was or after one update; an item that was not there
    is new. *)
Definition store_evolves (now : number) (st st' : Store) : Prop :=
  forall e i,
    match lookup_item st e i with
    | Some item =>
        exists item', lookup_item st' e i = Some item'
          /\ (item' = item
              \/ exists ev, getEvent st e = Some ev /\ item_update now ev item item')
    | None => forall item', lookup_item st' e i = Some item' -> new_item item'
    end.

(** The numbers of an item are finite. *)
Definition finite_bids (item : Item.t) : Prop :=
  Number.isFinite (Item.openingBid item) = true
  /\ Number.isFinite (Item.currentBid item) = true.

(** The payment sub-state is none unless the item is sold, and a pending
    payment has a winner and a deadline. *)
Definition payment_consistent (item : Item.t) : Prop :=
  (Item.paymentStatus item <> PayNone -> Item.status item = Sold)
  /\ (Item.paymentStatus item = Pending ->
      Str.truthy_opt (Item.paymentWinnerName item) = true
      /\ is_Some (Item.paymentDueAt item)).

(** The display name of a connection, when set, is trimmed and not empty,
    and the connection has a payment profile; until the connection is bound
    to an event, the display name is the name of the profile. *)
Definition named_with_profile (sd : Socket.data) : Prop :=
  (forall d, Socket.displayName sd = Some d ->
     Str.trim d = d /\ Str.truthy d = true /\ is_Some (Socket.paymentProfile sd))
  /\ (Socket.nameLocked sd = false ->
      forall p, Socket.paymentProfile sd = Some p ->
        Socket.displayName sd = Some (Profile.name p)).

(** The handler keeps [named_with_profile]. *)
Definition keeps_named (h : Handler) : Prop :=
  forall sd st, named_with_profile sd -> named_with_profile (fst (fst (h sd st))).

(** The amounts of a ledger, oldest first. *)
Definition amounts (item : Item.t) : list number :=
  List.map Bid.amount (Item.bidHistory item).

(** ** Scenarios *)

(** A clock reading in milliseconds, and the reading [ms] later. *)
Definition t0 : number := Number.of_Z 1700000000000.
Definition later (ms : Z) : number := Number.of_Z (1700000000000 + ms).

Definition num (z : Z) : option number := Some (Number.of_Z z).

(** One hundred and one hundredth, as the literal [100.01]. *)
Definition n100_01 : number := Number.div (Number.of_Z 10001) (Number.of_Z 100).

(** The host, connection 1, creates event 1 and its lot 1 with an opening
    bid of 100; the bidder Alice, connection 2, joins the event. *)
Definition gala : list (number * Command) :=
  [ (t0, Connect 1);
    (t0, Auth 1 (Some "host") (Some "1234"));
    (t0, CreateEvent 1 (Some "Gala") (Some "Hall") false None);
    (t0, CreateItem 1 1 (Some "Vase") None (num 100) None);
    (t0, Connect 2);
    (t0, Auth 2 (Some "bidder") None);
    (t0, ProfileSetup 2 (Some "Alice") (Some "alice@example.org") None None);
    (t0, Join 2 1 (Some "Alice") None) ]%string.

(** A second bidder, Bob, on connection 3. *)
Definition bob_joins : list (number * Command) :=
  [ (t0, Connect 3);
    (t0, Auth 3 (Some "bidder") None);
    (t0, ProfileSetup 3 (Some "Bob") (Some "bob@example.org") None None);
    (t0, Join 3 1 (Some "Bob") None) ]%string.

Definition vase : Item.t :=
  Item.mk 1 "Vase" "" (Number.of_Z 100) (Number.of_Z 100) None [] Open None None
    PayNone None None.

Definition gala_event (increment : number) (item : Item.t) : Event.t :=
  Event.mk 1 "Gala" "Hall" false "" [item] increment None {["Alice"%string]} true.

Definition gala_store (increment : number) (item : Item.t) : Store :=
  mkStore "1234" 2 2 [gala_event increment item].

Definition the_host : Socket.data := Socket.mk Host None false None None.

Definition alice : Socket.data :=
  Socket.mk Bidder (Some 1%Z) true (Some "Alice"%string)
    (Some (Profile.mk "Alice" "alice@example.org" "" "")).

(** The lot after Alice's bid of 150 was sold at [t0]. *)
Definition vase_sold : Item.t :=
  sold_item t0 (bid_item t0 (Number.of_Z 150) "Alice" vase).

(** The host sets the minimum increment of event 1 to 50. *)
Definition gala_increment_50 : list (number * Command) :=
  gala ++ [ (t0, SetMinIncrement 1 1 (num 50)) ].

(** Alice bids 150 and the host sells the lot to her, all at [t0]. *)
Definition alice_wins : list (number * Command) :=
  gala ++ [ (t0, PlaceBid 2 1 1 (num 150) None); (t0, MarkSold 1 1 1) ].

(** An equal bid: Alice offers the opening bid of 100. *)
Definition equal_bid : list (number * Command) :=
  gala ++ [ (later 1000, PlaceBid 2 1 1 (num 100) None) ].

(** Alice bids 150, then Bob bids 150 as well. *)
Definition two_equal_bids : list (number * Command) :=
  gala ++ bob_joins
  ++ [ (later 1000, PlaceBid 2 1 1 (num 150) None);
       (later 2000, PlaceBid 3 1 1 (num 150) None) ].

(** Alice bids 150 while the timer runs; the timer runs out, the sweep
    closes the lot, and the host sells it. *)
Definition closed_then_sold : list (number * Command) :=
  gala
  ++ [ (t0, StartTimer 1 1 1 (num 30));
       (later 1000, PlaceBid 2 1 1 (num 150) None);
       (later 31000, Tick);
       (later 40000, MarkSold 1 1 1) ].

(** Alice wins the lot; after the payment deadline Bob tries to confirm. *)
Definition late_confirm_by_other : list (number * Command) :=
  gala ++ bob_joins
  ++ [ (later 1000, PlaceBid 2 1 1 (num 150) None);
       (later 2000, MarkSold 1 1 1);
       (later 200000, PaymentConfirm 3 1 1) ].

(** Alice wins the lot; a guest connection that never authenticated names
    itself Alice in a profile and confirms the payment. *)
Definition guest_confirms : list (number * Command) :=
  gala
  ++ [ (later 1000, PlaceBid 2 1 1 (num 150) None);
       (later 2000, MarkSold 1 1 1);
       (later 3000, Connect 3);
       (later 3000, ProfileSetup 3 (Some "Alice") (Some "mallory@example.org") None None);
       (later 4000, PaymentConfirm 3 1 1) ]%string.

(** The host starts the timer with a duration of 0. *)
Definition zero_duration : list (number * Command) :=
  gala ++ [ (t0, StartTimer 1 1 1 (Some Number.zero)) ].

(** Alice, bound to event 1, sends a second profile under the name Bob;
    then Bob joins event 1. *)
Definition renamed_while_bound : list (number * Command) :=
  gala
  ++ [ (later 1000, ProfileSetup 2 (Some "Bob") (Some "alice@example.org") None None) ]%string
  ++ bob_joins.

(** ** How the store grows *)

(** The fields of an event that no handler assigns. *)
Definition same_event (ev ev' : Event.t) : Prop :=
  Event.id ev' = Event.id ev /\ Event.name ev' = Event.name ev
  /\ Event.location ev' = Event.location ev
  /\ Event.isProtected ev' = Event.isProtected ev
  /\ Event.password ev' = Event.password ev
  /\ Event.active ev' = Event.active ev.

(** The fields of an item that no handler assigns. *)
Definition same_lot (item item' : Item.t) : Prop :=
  Item.id item' = Item.id item /\ Item.title item' = Item.title item
  /\ Item.description item' = Item.description item
  /\ Item.openingBid item' = Item.openingBid item
  /\ Item.imageUrl item' = Item.imageUrl item.

(** A minimum increment that [host:setMinIncrement] lets through. *)
Definition valid_increment (v : number) : Prop :=
  Number.isFinite v = true /\ Number.lt v Number.zero = false.

(** A current lot that is null or an item of the event. *)
Definition valid_lot (ev : Event.t) (lot : option Z) : Prop :=
  forall i, lot = Some i -> is_Some (getItem (Some ev) i).

(** The writes that the handlers and the sweep make to the store: to an
    item that exists, to the settings of an event that exists, a new event
    at the end of [events], a new item at the end of the items of an event,
    and sequences of these. *)
Inductive store_grows (st : Store) : Store -> Prop :=
| grows_none : store_grows st st
| grows_item e i ev item item' :
    getEvent st e = Some ev -> getItem (Some ev) i = Some item ->
    same_lot item item' ->
    store_grows st (put_item ev item' st)
| grows_config e ev ev' :
    getEvent st e = Some ev -> same_event ev ev' ->
    Event.items ev' = Event.items ev ->
    Event.minIncrement ev' = Event.minIncrement ev
    \/ valid_increment (Event.minIncrement ev') ->
    Event.currentLotId ev' = Event.currentLotId ev
    \/ valid_lot ev (Event.currentLotId ev') ->
    store_grows st (put_event ev' st)
| grows_event name location isProtected password :
    store_grows st
      (mkStore (ADMIN_TOKEN st) (nextEventId st + 1) (nextItemId st)
         (events st
          ++ [Event.mk (nextEventId st) name location isProtected password
                [] Number.zero None ∅ true]))
| grows_new_item e ev item :
    getEvent st e = Some ev -> Item.id item = nextItemId st ->
    store_grows st
      (put_event (Event.with_items (Event.items ev ++ [item]) ev)
         (mkStore (ADMIN_TOKEN st) (nextEventId st) (nextItemId st + 1) (events st)))
| grows_sweep now : store_grows st (sweep now st)
| grows_trans st1 st2 :
    store_grows st st1 -> store_grows st1 st2 -> store_grows st st2.

(** The identifiers of all items, event by event. *)
Definition item_ids (st : Store) : list Z :=
  concat (List.map (fun ev => List.map Item.id (Event.items ev)) (events st)).

Definition event_ok (ev : Event.t) : Prop :=
  valid_increment (Event.minIncrement ev) /\ valid_lot ev (Event.currentLotId ev).

(** Events are numbered 1, 2, .. in the order of [events]; the identifiers
    of the items are distinct and below the counter; the settings of every
    event are valid. *)
Definition well_formed (st : Store) : Prop :=
  (1 <= nextEventId st)%Z /\ (1 <= nextItemId st)%Z
  /\ List.map Event.id (events st) = seqZ 1 (nextEventId st - 1)
  /\ NoDup (item_ids st)
  /\ Forall (fun i => 1 <= i < nextItemId st)%Z (item_ids st)
  /\ Forall event_ok (events st).

(** The command is an [auth] of connection [sid] that asks for the role
    host, in any letter case, with the password [token]. *)
Definition host_login (token : string) (sid : nat) (c : Command) : bool :=
  match c with
  | Auth s role password =>
      Nat.eqb s sid
      && String.eqb (Str.toLowerCase (Str.payload_or role "")) "host"
      && String.eqb (Str.of_payload password) token
  | _ => false
  end.

(** The current bid and the current winner are those of the last entry of
    the ledger; with an empty ledger the current bid is the opening bid and
    there is no winner. *)
Definition led_by_last_bid (item : Item.t) : Prop :=
  match last (Item.bidHistory item) with
  | Some b =>
      Item.currentBid item = Bid.amount b /\ Item.currentWinner item = Some (Bid.name b)
  | None =>
      Item.currentBid item = Item.openingBid item /\ Item.currentWinner item = None
  end.

(** The recorded payment winner, when set, is the current winner of a sold
    item. *)
Definition winner_recorded (item : Item.t) : Prop :=
  forall w, Item.paymentWinnerName item = Some w ->
    Item.status item = Sold /\ Item.currentWinner item = Some w.

(** The host makes lot 1 the current lot of event 1. *)
Definition gala_current_lot : list (number * Command) :=
  gala ++ [ (t0, SetCurrentLot 1 1 1) ].

(** An item that is not sold has no payment: sub-state none, no deadline,
    no recorded winner. *)
Definition payment_idle (item : Item.t) : Prop :=
  Item.status item <> Sold ->
  Item.paymentStatus item = PayNone /\ Item.paymentDueAt item = None
  /\ Item.paymentWinnerName item = None.

(** The bids of an item: what the sweep and the timers leave alone. *)
Definition same_bids (item item' : Item.t) : Prop :=
  Item.currentBid item' = Item.currentBid item
  /\ Item.currentWinner item' = Item.currentWinner item
  /\ Item.bidHistory item' = Item.bidHistory item.



(** ** The first server: one list of items, no roles, no events

    [let nextItemId = 1; const items = [];] and the handlers [join],
    [createItem] and [placeBid] of the connection. *)
Module Mvp.
Record Item := mkItem {
  id : Z;
  title : string;
  description : string;
  openingBid : number;
  currentBid : number;
  currentWinner : option string;
  bidHistory : list Bid.t
}.

Record State := mkState { nextItemId : Z; items : list Item }.

Inductive Error :=
| TitleRequired                          (* "Title is required" *)
| OpeningBidInvalid                      (* "Opening bid must be a number >= 0" *)
| ItemNotFound                           (* "Item not found" *)
| AmountNotPositive                      (* "Bid amount must be a positive number" *)
| BidNotGreater (minAcceptable : number). (* "Bid must be greater than current bid (R..)" *)

(** [cb({ ok: true, item })] or [cb({ ok: false, error })]. *)
Inductive Ack := Accepted (item : Item) | Refused (e : Error).

Definition init : State := mkState 1 [].

(** [socket.on("join", (name) => ..)]: the new [socket.data.displayName]. *)
Definition join (name : option string) : option string :=
  Some (Str.slice_to 40 (Str.payload_or name "Anonymous")).

(** [socket.on("createItem", (payload, cb) => ..)]. *)
Definition createItem (title description : option string) (openingBid : option number)
  (st : State) : State * Ack :=
  let title := Str.trim (Str.payload_or title "") in
  let description := Str.trim (Str.payload_or description "") in
  let open := Number.of_payload openingBid in
  if negb (Str.truthy title) then (st, Refused TitleRequired)
  else if negb (Number.isFinite open) || Number.lt open Number.zero
  then (st, Refused OpeningBidInvalid)
  else
    let item := mkItem (nextItemId st) title description open open None [] in
    (mkState (nextItemId st + 1) (items st ++ [item]), Accepted item).

(** [socket.data.displayName || String(payload?.name || "Anonymous").slice(0, 40)]. *)
Definition bidder_name (displayName name : option string) : string :=
  match displayName with
  | Some d => if Str.truthy d then d else Str.slice_to 40 (Str.payload_or name "Anonymous")
  | None => Str.slice_to 40 (Str.payload_or name "Anonymous")
  end.

(** The item after the assignments of an accepted bid. *)
Definition bid_item (now amount : number) (name : string) (item : Item) : Item :=
  mkItem (id item) (title item) (description item) (openingBid item) amount (Some name)
    (bidHistory item ++ [Bid.mk name amount now]).

(** [socket.on("placeBid", (payload, cb) => ..)] on a connection whose
    [socket.data.displayName] is [displayName]. *)
Definition placeBid (now : number) (itemId : Z) (amount : option number)
  (name displayName : option string) (st : State) : State * Ack :=
  let amount := Number.of_payload amount in
  let name := bidder_name displayName name in
  match List.find (fun i => Z.eqb (id i) itemId) (items st) with
  | None => (st, Refused ItemNotFound)
  | Some item =>
      if negb (Number.isFinite amount) || Number.le amount Number.zero
      then (st, Refused AmountNotPositive)
      else
        let minAcceptable := Math.max (openingBid item) (currentBid item) in
        if FirstVersion.rejects amount minAcceptable
        then (st, Refused (BidNotGreater minAcceptable))
        else
          let item' := bid_item now amount name item in
          (mkState (nextItemId st)
             (replace_first (fun i => Z.eqb (id i) (id item)) item' (items st)),
           Accepted item')
  end.

(** The states the handlers can make, whatever the connections send. *)
Inductive reachable : State -> Prop :=
| reachable_init : reachable init
| reachable_createItem st title description openingBid :
    reachable st -> reachable (fst (createItem title description openingBid st))
| reachable_placeBid st now itemId amount name displayName :
    reachable st -> reachable (fst (placeBid now itemId amount name displayName st)).

(** Every amount of the list is greater than the one before it, the first
    one greater than [floor]. *)
Fixpoint climbs (floor : number) (l : list number) : Prop :=
  match l with
  | [] => True
  | a :: r => Number.gt a floor = true /\ climbs a r
  end.

(** The ledger of the item climbs from its opening bid, and the current bid
    is its last amount, or the opening bid while there is no bid. *)
Definition sound (item : Item) : Prop :=
  Number.isFinite (openingBid item) = true
  /\ Number.isFinite (currentBid item) = true
  /\ climbs (openingBid item) (List.map Bid.amount (bidHistory item))
  /\ currentBid item = List.last (List.map Bid.amount (bidHistory item)) (openingBid item).

(** A lot with an opening bid of 100 on which Ann bid 150. *)
Definition one_bid : State :=
  fst (placeBid t0 1 (num 150) (Some "Ann"%string) None
         (fst (createItem (Some "Vase"%string) None (num 100) init))).
End Mvp.

(** ** The server with one auction: an admin, bidders, one list of items

    [const ADMIN_TOKEN = process.env.ADMIN_TOKEN || "1234";
     let MIN_INCREMENT = Number(process.env.MIN_INCREMENT || 0);
     let nextItemId = 1; const items = []; let currentLotId = null;] *)
Module Single.
Inductive Role := Admin | Bidder.

Record Item := mkItem {
  id : Z;
  title : string;
  description : string;
  openingBid : number;
  currentBid : number;
  currentWinner : option string;
  bidHistory : list Bid.t;
  status : Status;
  endTime : option number;
  imageUrl : option string
}.

Record State := mkState {
  ADMIN_TOKEN : string;
  MIN_INCREMENT : number;
  nextItemId : Z;
  items : list Item;
  currentLotId : option Z
}.

(** [socket.data]: the role and, once [join] has run, the display name. *)
Record Conn := mkConn { role : Role; displayName : option string }.

Inductive Error :=
| InvalidAdminPassword         (* "Invalid admin password" *)
| AdminOnly                    (* "Admin only" *)
| TitleRequired                (* "Title is required" *)
| OpeningBidInvalid            (* "Opening bid must be a number >= 0" *)
| ValueNegative                (* "Value must be >= 0" *)
| ItemNotFound                 (* "Item not found" *)
| ItemNotOpen                  (* "Item not open" *)
| BadDuration                  (* "Bad duration" *)
| OnlyBidders                  (* "Only bidders can place bids." *)
| BiddingClosed (s : Status)   (* "Bidding is closed (status)." *)
| TimeUp                       (* "Time is up, bidding closed." *)
| AmountNotPositive            (* "Bid amount must be a positive number" *)
| BidAtLeast (increment required : number)
| BidNotGreater (minAcceptable : number).

Inductive Ack := Done | Failed (e : Error).

Definition Handler : Type := Conn -> State -> Conn * State * Ack.

(** [items.find(i => i.id === Number(id))]. *)
Definition getItem (st : State) (itemId : Z) : option Item :=
  List.find (fun i => Z.eqb (id i) itemId) (items st).

(** [ADMIN_TOKEN && token && String(token) === String(ADMIN_TOKEN)]. *)
Definition isAuthedAdminToken (st : State) (token : option string) : bool :=
  Str.truthy (ADMIN_TOKEN st) && Str.truthy_opt token
  && String.eqb (Str.of_payload token) (ADMIN_TOKEN st).

(** The state once the item object with the identifier of [item'] has the
    fields of [item']. *)
Definition put_item (item' : Item) (st : State) : State :=
  mkState (ADMIN_TOKEN st) (MIN_INCREMENT st) (nextItemId st)
    (replace_first (fun i => Z.eqb (id i) (id item')) item' (items st))
    (currentLotId st).

Definition with_status (s : Status) (i : Item) : Item :=
  mkItem (id i) (title i) (description i) (openingBid i) (currentBid i) (currentWinner i)
    (bidHistory i) s (endTime i) (imageUrl i).

Definition with_endTime (e : option number) (i : Item) : Item :=
  mkItem (id i) (title i) (description i) (openingBid i) (currentBid i) (currentWinner i)
    (bidHistory i) (status i) e (imageUrl i).

(** [item.endTime && now >= item.endTime]. *)
Definition endTime_passed (now : number) (i : Item) : bool :=
  match endTime i with
  | Some e => Number.truthy e && Number.ge now e
  | None => false
  end.

(** [socket.on("auth", ({ role, password } = {}, cb) => ..)]: a failed
    admin login sets the role to bidder before it throws. *)
Definition auth (role password : option string) : Handler := fun c st =>
  let role := Str.toLowerCase (Str.payload_or role "") in
  if String.eqb role "admin" then
    if negb (isAuthedAdminToken st password)
    then (mkConn Bidder (displayName c), st, Failed InvalidAdminPassword)
    else (mkConn Admin (displayName c), st, Done)
  else (mkConn Bidder (displayName c), st, Done).

(** [socket.on("join", (name) => ..)]. *)
Definition join (name : option string) (c : Conn) : Conn :=
  mkConn (role c) (Some (Str.slice_to 40 (Str.payload_or name "Anonymous"))).

(** [requireAdmin(cb, tokenFromPayload)]. *)
Definition requireAdmin (c : Conn) (st : State) (token : option string) : bool :=
  match role c with
  | Admin => true
  | Bidder => isAuthedAdminToken st token
  end.

(** [socket.on("createItem", (payload, cb) => ..)]. *)
Definition createItem (adminToken title description : option string)
  (openingBid : option number) (imageUrl : option string) : Handler := fun c st =>
  if negb (requireAdmin c st adminToken) then (c, st, Failed AdminOnly)
  else
    let title := Str.trim (Str.payload_or title "") in
    let description := Str.trim (Str.payload_or description "") in
    let open := Number.of_payload openingBid in
    let imageUrl := if Str.truthy_opt imageUrl then imageUrl else None in
    if negb (Str.truthy title) then (c, st, Failed TitleRequired)
    else if negb (Number.isFinite open) || Number.lt open Number.zero
    then (c, st, Failed OpeningBidInvalid)
    else
      let item := mkItem (nextItemId st) title description open open None [] Open None
                    imageUrl in
      (c,
       mkState (ADMIN_TOKEN st) (MIN_INCREMENT st) (nextItemId st + 1) (items st ++ [item])
         (currentLotId st),
       Done).

(** [socket.on("admin:setMinIncrement", ..)]. *)
Definition setMinIncrement (adminToken : option string) (value : option number)
  : Handler := fun c st =>
  if negb (requireAdmin c st adminToken) then (c, st, Failed AdminOnly)
  else
    let v := Number.of_payload value in
    if negb (Number.isFinite v) || Number.lt v Number.zero
    then (c, st, Failed ValueNegative)
    else
      (c, mkState (ADMIN_TOKEN st) v (nextItemId st) (items st) (currentLotId st), Done).

(** [socket.on("admin:startTimer", ..)]. *)
Definition startTimer (now : number) (adminToken : option string) (itemId : Z)
  (durationSeconds : option number) : Handler := fun c st =>
  if negb (requireAdmin c st adminToken) then (c, st, Failed AdminOnly)
  else
    let duration := Number.payload_or durationSeconds (Number.of_Z 60) in
    match getItem st itemId with
    | None => (c, st, Failed ItemNotFound)
    | Some item =>
        if negb (bool_decide (status item = Open)) then (c, st, Failed ItemNotOpen)
        else if negb (Number.isFinite duration) || Number.le duration Number.zero
        then (c, st, Failed BadDuration)
        else
          (c,
           put_item
             (with_endTime
                (Some (Number.add now (Number.mul duration (Number.of_Z 1000)))) item) st,
           Done)
    end.

(** [socket.on("admin:stopTimer", ..)]. *)
Definition stopTimer (adminToken : option string) (itemId : Z) : Handler := fun c st =>
  if negb (requireAdmin c st adminToken) then (c, st, Failed AdminOnly)
  else
    match getItem st itemId with
    | None => (c, st, Failed ItemNotFound)
    | Some item => (c, put_item (with_endTime None item) st, Done)
    end.

(** [socket.on("admin:markSold", ..)]. *)
Definition markSold (adminToken : option string) (itemId : Z) : Handler := fun c st =>
  if negb (requireAdmin c st adminToken) then (c, st, Failed AdminOnly)
  else
    match getItem st itemId with
    | None => (c, st, Failed ItemNotFound)
    | Some item => (c, put_item (with_endTime None (with_status Sold item)) st, Done)
    end.

(** The item after the assignments of [admin:reopen]. *)
Definition reopened_item (now : number) (item : Item) : Item :=
  let item1 := with_status Open item in
  if endTime_passed now item1 then with_endTime None item1 else item1.

(** [socket.on("admin:reopen", ..)]. *)
Definition reopen (now : number) (adminToken : option string) (itemId : Z)
  : Handler := fun c st =>
  if negb (requireAdmin c st adminToken) then (c, st, Failed AdminOnly)
  else
    match getItem st itemId with
    | None => (c, st, Failed ItemNotFound)
    | Some item => (c, put_item (reopened_item now item) st, Done)
    end.

(** [socket.on("admin:setCurrentLot", ..)]:
    [const id = Number(payload?.itemId) || null]. *)
Definition setCurrentLot (adminToken : option string) (itemId : Z) : Handler := fun c st =>
  if negb (requireAdmin c st adminToken) then (c, st, Failed AdminOnly)
  else
    let lot := if Z.eqb itemId 0 then None else Some itemId in
    if negb (Z.eqb itemId 0) && negb (bool_decide (is_Some (getItem st itemId)))
    then (c, st, Failed ItemNotFound)
    else
      (c, mkState (ADMIN_TOKEN st) (MIN_INCREMENT st) (nextItemId st) (items st) lot, Done).

(** [socket.data.displayName || String(payload?.name || "Anonymous").slice(0, 40)]. *)
Definition bidder_name (c : Conn) (name : option string) : string :=
  match displayName c with
  | Some d => if Str.truthy d then d else Str.slice_to 40 (Str.payload_or name "Anonymous")
  | None => Str.slice_to 40 (Str.payload_or name "Anonymous")
  end.

(** The item after the assignments of an accepted bid. *)
Definition bid_item (now amount : number) (name : string) (item : Item) : Item :=
  mkItem (id item) (title item) (description item) (openingBid item) amount (Some name)
    (bidHistory item ++ [Bid.mk name amount now]) (status item) (endTime item)
    (imageUrl item).

(** [socket.on("placeBid", (payload, cb) => ..)]; when the time is up the
    handler sets the status and leaves the end time. *)
Definition placeBid (now : number) (itemId : Z) (amount : option number)
  (name : option string) : Handler := fun c st =>
  match role c with
  | Admin => (c, st, Failed OnlyBidders)
  | Bidder =>
      let amount := Number.of_payload amount in
      let name := bidder_name c name in
      match getItem st itemId with
      | None => (c, st, Failed ItemNotFound)
      | Some item =>
          if negb (bool_decide (status item = Open))
          then (c, st, Failed (BiddingClosed (status item)))
          else if endTime_passed now item
          then (c, put_item (with_status Closed item) st, Failed TimeUp)
          else if negb (Number.isFinite amount) || Number.le amount Number.zero
          then (c, st, Failed AmountNotPositive)
          else
            let minAcceptable := Math.max (openingBid item) (currentBid item) in
            let required := required_amount (MIN_INCREMENT st) minAcceptable in
            if Number.lt amount required then
              if Number.gt (MIN_INCREMENT st) Number.zero
              then (c, st, Failed (BidAtLeast (MIN_INCREMENT st) required))
              else (c, st, Failed (BidNotGreater minAcceptable))
            else (c, put_item (bid_item now amount name item) st, Done)
      end
  end.

(** The body of the [setInterval] callback. *)
Definition sweep_item (now : number) (item : Item) : Item :=
  if bool_decide (status item = Open) && endTime_passed now item
  then with_endTime None (with_status Closed item) else item.

Definition sweep (now : number) (st : State) : State :=
  mkState (ADMIN_TOKEN st) (MIN_INCREMENT st) (nextItemId st)
    (List.map (sweep_item now) (items st)) (currentLotId st).

(** The server: the state and the connections. *)
Record Server := mkServer { state : State; conns : gmap nat Conn }.

Inductive Command :=
| Connect (sid : nat)
| Disconnect (sid : nat)
| Auth (sid : nat) (role password : option string)
| Join (sid : nat) (name : option string)
| CreateItem (sid : nat) (adminToken title description : option string)
    (openingBid : option number) (imageUrl : option string)
| SetMinIncrement (sid : nat) (adminToken : option string) (value : option number)
| StartTimer (sid : nat) (adminToken : option string) (itemId : Z)
    (durationSeconds : option number)
| StopTimer (sid : nat) (adminToken : option string) (itemId : Z)
| MarkSold (sid : nat) (adminToken : option string) (itemId : Z)
| Reopen (sid : nat) (adminToken : option string) (itemId : Z)
| SetCurrentLot (sid : nat) (adminToken : option string) (itemId : Z)
| PlaceBid (sid : nat) (itemId : Z) (amount : option number) (name : option string)
| Tick.

Definition on (sid : nat) (h : Handler) (sv : Server) : Server * option Ack :=
  match conns sv !! sid with
  | Some c =>
      let '(c', st', a) := h c (state sv) in
      (mkServer st' (<[sid := c']> (conns sv)), Some a)
  | None => (sv, None)
  end.

(** One command, at clock reading [now]; a new connection is a bidder
    without display name. *)
Definition step (now : number) (cmd : Command) (sv : Server) : Server * option Ack :=
  match cmd with
  | Connect sid =>
      match conns sv !! sid with
      | Some _ => (sv, None)
      | None => (mkServer (state sv) (<[sid := mkConn Bidder None]> (conns sv)), None)
      end
  | Disconnect sid => (mkServer (state sv) (delete sid (conns sv)), None)
  | Auth sid role password => on sid (auth role password) sv
  | Join sid name =>
      match conns sv !! sid with
      | Some c => (mkServer (state sv) (<[sid := join name c]> (conns sv)), None)
      | None => (sv, None)
      end
  | CreateItem sid adminToken title description openingBid imageUrl =>
      on sid (createItem adminToken title description openingBid imageUrl) sv
  | SetMinIncrement sid adminToken value => on sid (setMinIncrement adminToken value) sv
  | StartTimer sid adminToken itemId durationSeconds =>
      on sid (startTimer now adminToken itemId durationSeconds) sv
  | StopTimer sid adminToken itemId => on sid (stopTimer adminToken itemId) sv
  | MarkSold sid adminToken itemId => on sid (markSold adminToken itemId) sv
  | Reopen sid adminToken itemId => on sid (reopen now adminToken itemId) sv
  | SetCurrentLot sid adminToken itemId => on sid (setCurrentLot adminToken itemId) sv
  | PlaceBid sid itemId amount name => on sid (placeBid now itemId amount name) sv
  | Tick => (mkServer (sweep now (state sv)) (conns sv), None)
  end.

(** The server as it starts, from the two environment variables: the token
    as given, the increment as [Number(..)] reads it. *)
Definition init (envToken : option string) (envIncrement : number) : Server :=
  mkServer (mkState (Str.payload_or envToken "1234") envIncrement 1 [] None) ∅.

Fixpoint run (tr : list (number * Command)) (sv : Server) : Server :=
  match tr with
  | [] => sv
  | (now, c) :: tr' => run tr' (fst (step now c sv))
  end.

Inductive reachable (envToken : option string) (envIncrement : number) : Server -> Prop :=
| reachable_init : reachable envToken envIncrement (init envToken envIncrement)
| reachable_step now c sv :
    reachable envToken envIncrement sv ->
    reachable envToken envIncrement (fst (step now c sv)).

(** A name as [slice(0, 40)] leaves it: not empty, at most 40 characters. *)
Definition short_name (n : string) : Prop :=
  Str.truthy n = true /\ (String.length n <= 40)%nat.

(** The bids of an item: every name of the ledger is a short name, and
    current bid and winner are those of the last entry. *)
Definition item_ok (item : Item) : Prop :=
  Number.isFinite (openingBid item) = true
  /\ Forall (fun b => short_name (Bid.name b)) (bidHistory item)
  /\ match last (bidHistory item) with
     | Some b => currentBid item = Bid.amount b /\ currentWinner item = Some (Bid.name b)
     | None => currentBid item = openingBid item /\ currentWinner item = None
     end.

Definition state_ok (st : State) : Prop :=
  Str.truthy (ADMIN_TOKEN st) = true
  /\ List.map id (items st) = seqZ 1 (nextItemId st - 1) /\ (1 <= nextItemId st)%Z
  /\ Forall item_ok (items st)
  /\ forall i, currentLotId st = Some i -> is_Some (getItem st i).

Definition conn_ok (c : Conn) : Prop :=
  forall d, displayName c = Some d -> short_name d.

(** The admin logs in, creates a lot; a bidder joins as Ann and bids 150. *)
Definition auction : list (number * Command) :=
  [ (t0, Connect 1);
    (t0, Auth 1 (Some "admin") (Some "1234"));
    (t0, CreateItem 1 None (Some "Vase") None (num 100) None);
    (t0, Connect 2);
    (t0, Join 2 (Some "Ann"));
    (later 1000, PlaceBid 2 1 (num 150) None) ]%string.
End Single.

(** * Properties *)

(** ** Numbers *)

Lemma compare_antisym (a b : number) :
  SFcompare a b = CompOpp <$> SFcompare b a.
Proof.
  destruct a as [sa|sa| |sa ma ea], b as [sb|sb| |sb mb eb]; simpl;
    try reflexivity; try (destruct sa; reflexivity); try (destruct sb; reflexivity);
    try (destruct sa, sb; reflexivity).
  destruct sa, sb; simpl; try reflexivity;
    rewrite (Z.compare_antisym ea eb);
    change (Pos.compare_cont Eq ma mb) with (Pos.compare_cont (CompOpp Eq) ma mb);
    rewrite <- (Pos.compare_cont_antisym mb ma Eq);
    destruct (ea ?= eb)%Z; simpl; try reflexivity;
    destruct (Pos.compare_cont _ _ _); reflexivity.
Qed.

(** Away from NaN, [!(a < b)] is [a >= b]. *)
Lemma not_lt_ge (a b : number) :
  Number.isNaN a = false -> Number.isNaN b = false ->
  negb (Number.lt a b) = Number.ge a b.
Proof.
  intros Ha Hb. unfold Number.lt, Number.ge, SFltb, SFleb.
  rewrite (compare_antisym b a).
  destruct (SFcompare a b) as [[]|] eqn:E; try reflexivity.
  destruct a, b; discriminate.
Qed.

(** Away from NaN, [!(a <= b)] is [a > b]. *)
Lemma not_le_gt (a b : number) :
  Number.isNaN a = false -> Number.isNaN b = false ->
  negb (Number.le a b) = Number.gt a b.
Proof.
  intros Ha Hb. unfold Number.le, Number.gt, SFltb, SFleb.
  rewrite (compare_antisym b a).
  destruct (SFcompare a b) as [[]|] eqn:E; try reflexivity.
  destruct a, b; discriminate.
Qed.

Lemma finite_not_nan (x : number) : Number.isFinite x = true -> Number.isNaN x = false.
Proof. destruct x; simpl; congruence. Qed.

Lemma lt_not_nan_l (a b : number) : Number.lt a b = true -> Number.isNaN a = false.
Proof. destruct a, b; simpl; try reflexivity; discriminate. Qed.

Lemma lt_not_nan_r (a b : number) : Number.lt a b = true -> Number.isNaN b = false.
Proof. destruct a, b; simpl; try reflexivity; discriminate. Qed.

Lemma le_not_nan_l (a b : number) : Number.le a b = true -> Number.isNaN a = false.
Proof. destruct a, b; simpl; try reflexivity; discriminate. Qed.

Lemma le_not_nan_r (a b : number) : Number.le a b = true -> Number.isNaN b = false.
Proof. destruct a, b; simpl; try reflexivity; discriminate. Qed.

(** A number above zero is used as a true condition, and is not [=== 0]. *)
Lemma gt_zero_truthy (x : number) :
  Number.gt x Number.zero = true -> Number.truthy x = true /\ Number.eq x Number.zero = false.
Proof. destruct x as [s|s| |s m e]; simpl; try destruct s; try discriminate; auto. Qed.

Lemma max_finite (a b : number) :
  Number.isFinite a = true -> Number.isFinite b = true ->
  Number.isFinite (Math.max a b) = true.
Proof.
  intros Ha Hb. unfold Math.max.
  destruct a as [sa|sa| |sa ma ea], b as [sb|sb| |sb mb eb]; try discriminate;
    repeat match goal with
      | |- context [if ?c then _ else _] => destruct c
      | s : bool |- _ => destruct s
      end; reflexivity.
Qed.

(** Rounding never produces NaN: the mantissa stays non-negative through
    the shifts. *)
Lemma shr_1_nonneg mrs : (0 <= shr_m mrs)%Z -> (0 <= shr_m (shr_1 mrs))%Z.
Proof.
  destruct mrs as [m r s]; simpl. destruct m as [|p|p]; simpl; try lia.
  destruct p; simpl; lia.
Qed.

Lemma iter_pos_inv {A} (P : A -> Prop) (f : A -> A) :
  (forall x, P x -> P (f x)) -> forall n x, P x -> P (SpecFloat.iter_pos f n x).
Proof. intros Hf. induction n; simpl; intros x Hx; auto. Qed.

Lemma shr_nonneg mrs e n : (0 <= shr_m mrs)%Z -> (0 <= shr_m (fst (shr mrs e n)))%Z.
Proof.
  intros H. destruct n; simpl; auto.
  apply (iter_pos_inv (fun x => 0 <= shr_m x)%Z); auto using shr_1_nonneg.
Qed.

Lemma shr_record_of_loc_m m l : shr_m (shr_record_of_loc m l) = m.
Proof. destruct l as [|[]]; reflexivity. Qed.

Lemma shr_fexp_nonneg m e l :
  (0 <= m)%Z -> (0 <= shr_m (fst (shr_fexp Number.prec Number.emax m e l)))%Z.
Proof.
  intros H. unfold shr_fexp. apply shr_nonneg. rewrite shr_record_of_loc_m. exact H.
Qed.

Lemma round_nearest_even_nonneg m l : (0 <= m)%Z -> (0 <= round_nearest_even m l)%Z.
Proof. destruct l as [|[]]; simpl; try lia. destruct (Z.even m); lia. Qed.

Lemma binary_round_aux_not_nan s m e l :
  (0 <= m)%Z -> Number.isNaN (binary_round_aux Number.prec Number.emax s m e l) = false.
Proof.
  intros H. unfold binary_round_aux.
  pose proof (shr_fexp_nonneg m e l H) as H1.
  destruct (shr_fexp Number.prec Number.emax m e l) as [mrs' e']. simpl in H1.
  pose proof (shr_fexp_nonneg _ e' loc_Exact
                (round_nearest_even_nonneg _ (loc_of_shr_record mrs') H1)) as H2.
  destruct (shr_fexp Number.prec Number.emax (round_nearest_even _ _) e' loc_Exact)
    as [mrs'' e''].
  simpl in H2. destruct (shr_m mrs''); try lia; try reflexivity.
  destruct (_ <=? _)%Z; reflexivity.
Qed.

Lemma binary_normalize_not_nan m e s :
  Number.isNaN (binary_normalize Number.prec Number.emax m e s) = false.
Proof.
  destruct m; simpl; try reflexivity; unfold binary_round;
    destruct (shl_align _ _ _); apply binary_round_aux_not_nan; lia.
Qed.

(** A finite number plus a number is a number. *)
Lemma add_not_nan x y :
  Number.isFinite x = true -> Number.isNaN y = false ->
  Number.isNaN (Number.add x y) = false.
Proof.
  intros Hx Hy.
  destruct x as [sx|sx| |sx mx ex], y as [sy|sy| |sy my ey];
    try discriminate; try reflexivity.
  - destruct sx, sy; reflexivity.
  - apply binary_normalize_not_nan.
Qed.

(** ** Strings *)

Lemma trimStart_length s : (String.length (Str.trimStart s) <= String.length s)%nat.
Proof. induction s as [|c r IH]; simpl; [lia|]. destruct (Str.is_ws c); simpl; lia. Qed.

Lemma trimStart_fixed_trimEnd s :
  Str.trimStart s = s -> Str.trimStart (Str.trimEnd s) = Str.trimEnd s.
Proof.
  destruct s as [|c r]; [reflexivity|]. simpl.
  destruct (Str.is_ws c) eqn:Hc.
  - intros H. pose proof (trimStart_length r) as L. rewrite H in L. simpl in L. lia.
  - intros _. destruct (Str.trimEnd r); simpl; rewrite Hc; reflexivity.
Qed.

Lemma trimStart_idem s : Str.trimStart (Str.trimStart s) = Str.trimStart s.
Proof.
  induction s as [|c r IH]; [reflexivity|]. simpl.
  destruct (Str.is_ws c) eqn:Hc; [exact IH|]. simpl. rewrite Hc. reflexivity.
Qed.

Lemma trimEnd_idem s : Str.trimEnd (Str.trimEnd s) = Str.trimEnd s.
Proof.
  induction s as [|c r IH]; [reflexivity|]. simpl.
  destruct (Str.trimEnd r) as [|c' t] eqn:E.
  - destruct (Str.is_ws c) eqn:Hc; simpl; [reflexivity|]. rewrite Hc. reflexivity.
  - simpl. simpl in IH. rewrite IH. reflexivity.
Qed.

(** Trimming twice is trimming once. *)
Lemma trim_idem s : Str.trim (Str.trim s) = Str.trim s.
Proof.
  unfold Str.trim.
  rewrite (trimStart_fixed_trimEnd (Str.trimStart s) (trimStart_idem s)).
  apply trimEnd_idem.
Qed.

(** ** The store *)

Lemma find_replace_first {A} (p : A -> bool) (x y : A) (l : list A) :
  List.find p l = Some y -> p x = true -> List.find p (replace_first p x l) = Some x.
Proof.
  induction l as [|z l IH]; simpl; [discriminate|].
  destruct (p z) eqn:Hz; intros H Hx; simpl.
  - rewrite Hx. reflexivity.
  - rewrite Hz. auto.
Qed.

Lemma find_holds {A} (p : A -> bool) (y : A) (l : list A) :
  List.find p l = Some y -> p y = true.
Proof.
  induction l as [|z l IH]; simpl; [discriminate|].
  destruct (p z) eqn:Hz; [intros [= <-]; exact Hz | exact IH].
Qed.

Lemma getEvent_id st id ev : getEvent st id = Some ev -> Event.id ev = id.
Proof. intros H. apply find_holds in H. lia. Qed.

Lemma getItem_id ev id item : getItem (Some ev) id = Some item -> Item.id item = id.
Proof. intros H. apply find_holds in H. lia. Qed.

Lemma getEvent_put_event st id ev ev' :
  getEvent st id = Some ev -> Event.id ev' = id ->
  getEvent (put_event ev' st) id = Some ev'.
Proof.
  intros H Hid. unfold getEvent, put_event. simpl. rewrite Hid.
  apply (find_replace_first _ _ ev); [exact H | lia].
Qed.

(** A read after an assignment to an item sees the assigned fields. *)
Lemma lookup_put_item st eventId itemId ev item item' :
  getEvent st eventId = Some ev -> getItem (Some ev) itemId = Some item ->
  Item.id item' = itemId ->
  lookup_item (put_item ev item' st) eventId itemId = Some item'.
Proof.
  intros He Hi Hid. unfold lookup_item, put_item.
  rewrite (getEvent_put_event st eventId ev); [| exact He | apply (getEvent_id _ _ _ He)].
  simpl. rewrite Hid. apply (find_replace_first _ _ item); [exact Hi | lia].
Qed.

Lemma find_map_preserved {A} (p : A -> bool) (f : A -> A) (l : list A) :
  (forall x, p (f x) = p x) -> List.find p (List.map f l) = f <$> List.find p l.
Proof.
  intros Hp. induction l as [|z l IH]; simpl; [reflexivity|].
  rewrite Hp. destruct (p z); [reflexivity | exact IH].
Qed.

Lemma sweep_item_id now item : Item.id (sweep_item now item) = Item.id item.
Proof.
  unfold sweep_item.
  repeat match goal with |- context [if ?c then _ else _] => destruct c end; reflexivity.
Qed.

(** A read after a tick sees every item as the sweep left it. *)
Lemma lookup_sweep now st eventId itemId :
  lookup_item (sweep now st) eventId itemId
  = sweep_item now <$> lookup_item st eventId itemId.
Proof.
  unfold lookup_item, getEvent, sweep. simpl.
  rewrite (find_map_preserved _ (sweep_event now)) by reflexivity.
  destruct (List.find _ (events st)) as [ev|]; simpl; [|reflexivity].
  apply find_map_preserved. intros x. rewrite sweep_item_id. reflexivity.
Qed.

(** ** The handlers, once the connection has passed the first checks *)

Lemma bound_bidder_name sd ev d name :
  bound_bidder sd ev d -> effective_name sd name = d.
Proof. intros (_ & _ & _ & Hd & Ht). unfold effective_name. rewrite Hd, Ht. reflexivity. Qed.

(** What is left of [placeBid] for a bidder bound to the event. *)
Lemma placeBid_bound now eventId itemId amount name sd st ev item d :
  getEvent st eventId = Some ev -> getItem (Some ev) itemId = Some item ->
  bound_bidder sd ev d ->
  placeBid now eventId itemId amount name sd st =
    if negb (bool_decide (Item.status item = Open))
    then (sd, st, Err (E_BiddingClosed (Item.status item)))
    else if Item.endTime_passed now item
    then (sd, put_item ev (closed_item item) st, Err E_TimeUp)
    else
      let amount := Number.of_payload amount in
      if negb (Number.isFinite amount) || Number.le amount Number.zero
      then (sd, st, Err E_AmountPositive)
      else
        let minAcceptable := Math.max (Item.openingBid item) (Item.currentBid item) in
        let required := required_amount (Event.minIncrement ev) minAcceptable in
        if Number.lt amount required then
          if Number.gt (Event.minIncrement ev) Number.zero
          then (sd, st, Err (E_BidAtLeast (Event.minIncrement ev) required))
          else (sd, st, Err (E_BidGreater minAcceptable))
        else (sd, put_item ev (bid_item now amount d item) st, Ok).
Proof.
  intros He Hi Hb. pose proof (bound_bidder_name sd ev d name Hb) as Hn.
  destruct Hb as (Hr & Hj & Hl & Hd & Ht).
  unfold placeBid, role_is. rewrite Hr, He, Hi, Hj, Hn, Hl, Hd.
  rewrite !bool_decide_eq_true_2 by reflexivity. reflexivity.
Qed.

Lemma bid_item_fields now amount d item :
  Item.currentBid (bid_item now amount d item) = amount
  /\ Item.currentWinner (bid_item now amount d item) = Some d
  /\ Item.bidHistory (bid_item now amount d item)
     = Item.bidHistory item ++ [Bid.mk d amount now]
  /\ Item.id (bid_item now amount d item) = Item.id item.
Proof. unfold bid_item. destruct (negb _); repeat split. Qed.


Lemma sold_item_id now item : Item.id (sold_item now item) = Item.id item.
Proof. unfold sold_item. destruct (Str.truthy_opt _); reflexivity. Qed.

Lemma sweep_item_closed now item :
  Item.status item = Closed -> sweep_item now item = item.
Proof.
  intros H. destruct item; simpl in H; subst. reflexivity.
Qed.

Lemma sweep_item_open_passed now item :
  Item.status item = Open -> Item.endTime_passed now item = true ->
  sweep_item now item = closed_item item.
Proof.
  intros H Hp. unfold sweep_item. rewrite Hp.
  destruct item; simpl in H; subst. reflexivity.
Qed.


(** ** Reads after a write to another object *)

Lemma find_replace_first_other {A} (p q : A -> bool) (x : A) (l : list A) :
  (forall y, p y = true -> q y = false) -> q x = false ->
  List.find q (replace_first p x l) = List.find q l.
Proof.
  intros Hpq Hx. induction l as [|y l IH]; simpl; [reflexivity|].
  destruct (p y) eqn:Hy; simpl.
  - rewrite Hx, (Hpq y Hy). reflexivity.
  - rewrite IH. reflexivity.
Qed.

Lemma find_app_cases {A} (p : A -> bool) (l l' : list A) :
  List.find p (l ++ l') =
    match List.find p l with Some x => Some x | None => List.find p l' end.
Proof.
  induction l as [|y l IH]; simpl; [reflexivity|].
  destruct (p y); [reflexivity | exact IH].
Qed.

Lemma getEvent_put_event_other st e ev' :
  Event.id ev' <> e -> getEvent (put_event ev' st) e = getEvent st e.
Proof.
  intros Hne. unfold getEvent, put_event. simpl.
  apply find_replace_first_other.
  - intros y Hy. apply Z.eqb_eq in Hy. apply Z.eqb_neq. congruence.
  - apply Z.eqb_neq. exact Hne.
Qed.

Lemma lookup_put_item_other st e0 i0 ev item item' e i :
  getEvent st e0 = Some ev -> getItem (Some ev) i0 = Some item ->
  Item.id item' = i0 -> (e, i) <> (e0, i0) ->
  lookup_item (put_item ev item' st) e i = lookup_item st e i.
Proof.
  intros He Hi Hid Hne. unfold lookup_item, put_item.
  pose proof (getEvent_id _ _ _ He) as Hev.
  destruct (decide (e = e0)) as [-> | Hn].
  - rewrite (getEvent_put_event st e0 ev) by (auto; exact Hev).
    rewrite He. simpl. apply find_replace_first_other.
    + intros y Hy. apply Z.eqb_eq in Hy. apply Z.eqb_neq. congruence.
    + apply Z.eqb_neq. congruence.
  - rewrite getEvent_put_event_other by (simpl; congruence). reflexivity.
Qed.

(** A write to the fields of an event other than its items. *)
Lemma lookup_put_event_meta st e0 ev ev' e i :
  getEvent st e0 = Some ev -> Event.id ev' = e0 -> Event.items ev' = Event.items ev ->
  lookup_item (put_event ev' st) e i = lookup_item st e i.
Proof.
  intros He Hid Hit. unfold lookup_item.
  destruct (decide (e = e0)) as [-> | Hn].
  - rewrite (getEvent_put_event st e0 ev ev' He Hid), He. simpl. rewrite Hit. reflexivity.
  - rewrite getEvent_put_event_other by congruence. reflexivity.
Qed.

(** ** Every command moves the store along [store_evolves] *)

Lemma evolves_same_reads now st st' :
  (forall e i, lookup_item st' e i = lookup_item st e i) -> store_evolves now st st'.
Proof.
  intros H e i. rewrite <- (H e i).
  destruct (lookup_item st' e i) as [item|] eqn:E; [eauto | discriminate].
Qed.

Lemma evolves_refl now st : store_evolves now st st.
Proof. apply evolves_same_reads. reflexivity. Qed.

Lemma item_update_id now ev item item' :
  item_update now ev item item' -> Item.id item' = Item.id item.
Proof.
  destruct 1; try reflexivity.
  - apply sold_item_id.
  - unfold reopened_item. destruct (Item.endTime_passed _ _); reflexivity.
  - apply bid_item_fields.
Qed.

Lemma evolves_put_item now st e0 i0 ev item item' :
  getEvent st e0 = Some ev -> getItem (Some ev) i0 = Some item ->
  item_update now ev item item' ->
  store_evolves now st (put_item ev item' st).
Proof.
  intros He Hi Hu e i.
  assert (Hid : Item.id item' = i0).
  { rewrite (item_update_id _ _ _ _ Hu). apply (getItem_id ev i0 item Hi). }
  destruct (decide ((e, i) = (e0, i0))) as [[= -> ->] | Hne].
  - unfold lookup_item at 1. rewrite He, Hi.
    exists item'. split; [apply (lookup_put_item st e0 i0 ev item); auto |].
    right. exists ev. auto.
  - rewrite <- (lookup_put_item_other st e0 i0 ev item item' e i He Hi Hid Hne).
    destruct (lookup_item (put_item ev item' st) e i) eqn:E; [eauto | discriminate].
Qed.

Lemma evolves_put_event_meta now st e0 ev ev' :
  getEvent st e0 = Some ev -> Event.id ev' = e0 -> Event.items ev' = Event.items ev ->
  store_evolves now st (put_event ev' st).
Proof.
  intros He Hid Hit. apply evolves_same_reads. intros e i.
  apply (lookup_put_event_meta st e0 ev ev' e i He Hid Hit).
Qed.

Lemma sweep_item_cases now ev item :
  sweep_item now item = item \/ item_update now ev item (sweep_item now item).
Proof.
  unfold sweep_item.
  destruct (bool_decide (Item.status item = Open)) eqn:Ho; simpl.
  - apply bool_decide_eq_true_1 in Ho.
    destruct (Item.endTime_passed now item) eqn:Hp.
    + right. simpl. constructor; assumption.
    + rewrite Ho. simpl. left. reflexivity.
  - destruct (bool_decide (Item.status item = Sold)) eqn:Hs; simpl; [| left; reflexivity].
    destruct (bool_decide (Item.paymentStatus item = Pending)) eqn:Hq; simpl;
      [| left; reflexivity].
    destruct (Item.paymentDue_passed now item) eqn:Hp; [| left; reflexivity].
    right. apply bool_decide_eq_true_1 in Hs, Hq. constructor; assumption.
Qed.

Lemma evolves_sweep now st : store_evolves now st (sweep now st).
Proof.
  intros e i. rewrite lookup_sweep.
  destruct (lookup_item st e i) as [item|] eqn:E; simpl; [| discriminate].
  exists (sweep_item now item). split; [reflexivity |].
  unfold lookup_item in E. destruct (getEvent st e) as [ev|] eqn:He; [| discriminate].
  destruct (sweep_item_cases now ev item) as [-> | H]; [left; reflexivity |].
  right. exists ev. auto.
Qed.

Lemma evolves_createEvent now st ev :
  Event.items ev = [] ->
  store_evolves now st
    (mkStore (ADMIN_TOKEN st) (nextEventId st + 1) (nextItemId st) (events st ++ [ev])).
Proof.
  intros Hnil. apply evolves_same_reads. intros e i.
  unfold lookup_item, getEvent. simpl. rewrite find_app_cases.
  destruct (List.find _ (events st)) as [ev0|]; [reflexivity |]. simpl.
  destruct (Event.id ev =? e)%Z; [| reflexivity]. simpl. rewrite Hnil. reflexivity.
Qed.

Lemma evolves_createItem now st e0 ev item tok ne ni :
  getEvent st e0 = Some ev -> new_item item ->
  store_evolves now st
    (put_event (Event.with_items (Event.items ev ++ [item]) ev)
       (mkStore tok ne ni (events st))).
Proof.
  intros He Hnew e i.
  change (lookup_item (put_event (Event.with_items (Event.items ev ++ [item]) ev)
                         (mkStore tok ne ni (events st))) e i)
    with (lookup_item (put_event (Event.with_items (Event.items ev ++ [item]) ev) st) e i).
  pose proof (getEvent_id _ _ _ He) as Hev.
  assert (Hl : lookup_item (put_event (Event.with_items (Event.items ev ++ [item]) ev) st) e i
               = match lookup_item st e i with
                 | Some x => Some x
                 | None => if decide (e = e0) then
                             (if (Item.id item =? i)%Z then Some item else None)
                           else None
                 end).
  { unfold lookup_item. destruct (decide (e = e0)) as [-> | Hn].
    - rewrite (getEvent_put_event st e0 ev) by (auto; exact Hev).
      rewrite He. simpl. rewrite find_app_cases.
      destruct (List.find _ (Event.items ev)); reflexivity.
    - rewrite getEvent_put_event_other by (simpl; congruence).
      destruct (getItem (getEvent st e) i); reflexivity. }
  rewrite Hl. destruct (lookup_item st e i) as [x|]; [eauto |].
  intros item'. destruct (decide (e = e0)); [| discriminate].
  destruct (Item.id item =? i)%Z; [| discriminate]. intros [= <-]. exact Hnew.
Qed.

Ltac split_cases :=
  cbv zeta;
  repeat match goal with
    | |- context [if ?c then _ else _] => let E := fresh "E" in destruct c eqn:E
    | |- context [match ?x with Some _ => _ | None => _ end] =>
        let E := fresh "E" in destruct x eqn:E
    end.

Ltac norm_hyps :=
  repeat match goal with
    | H : negb _ = false |- _ => apply negb_false_iff in H
    | H : negb _ = true |- _ => apply negb_true_iff in H
    | H : _ || _ = false |- _ => apply orb_false_iff in H; destruct H
    | H : bool_decide _ = true |- _ => apply bool_decide_eq_true_1 in H
    | H : bool_decide _ = false |- _ => apply bool_decide_eq_false_1 in H
    end.

Ltac evolves h :=
  intros sd st; unfold h; split_cases; simpl; try apply evolves_refl; norm_hyps;
  try (eapply evolves_put_item; [eassumption | eassumption | constructor; assumption]);
  try (eapply evolves_put_event_meta;
       [eassumption | simpl; eapply getEvent_id; eassumption | reflexivity]).

Lemma auth_evolves now role password sd st :
  store_evolves now st (snd (fst (auth role password sd st))).
Proof. revert sd st. evolves auth. Qed.

Lemma profile_setup_evolves now name email cardLast4 deliveryAddress sd st :
  store_evolves now st (snd (fst (profile_setup name email cardLast4 deliveryAddress sd st))).
Proof. revert sd st. evolves profile_setup. Qed.

Lemma host_createEvent_evolves now name location isProtected password sd st :
  store_evolves now st
    (snd (fst (host_createEvent name location isProtected password sd st))).
Proof.
  unfold host_createEvent. split_cases; simpl; try apply evolves_refl;
    apply evolves_createEvent; reflexivity.
Qed.

Lemma lookup_leave_previous sd ev st e i :
  lookup_item (leave_previous sd ev st) e i = lookup_item st e i.
Proof.
  unfold leave_previous. split_cases; try reflexivity.
  eapply lookup_put_event_meta;
    [eassumption | simpl; eapply getEvent_id; eassumption | reflexivity].
Qed.

Lemma getEvent_leave_previous sd ev st e0 :
  getEvent st e0 = Some ev -> getEvent (leave_previous sd ev st) e0 = Some ev.
Proof.
  intros He. unfold leave_previous.
  destruct (Socket.eventId sd) as [z|]; [| exact He].
  destruct (negb (z =? 0)%Z && negb (z =? Event.id ev)%Z) eqn:E0; [| exact He].
  apply andb_true_iff in E0 as [_ E0]. apply negb_true_iff, Z.eqb_neq in E0.
  destruct (getEvent st z) as [prev|] eqn:E1; [| exact He].
  destruct (Socket.displayName sd) as [d|]; [| exact He].
  destruct (Str.truthy d); [| exact He].
  rewrite getEvent_put_event_other; [exact He |]. simpl.
  rewrite (getEvent_id _ _ _ E1), <- (getEvent_id _ _ _ He). exact E0.
Qed.

Lemma event_join_evolves now eventId name password sd st :
  store_evolves now st (snd (fst (event_join eventId name password sd st))).
Proof.
  unfold event_join. split_cases; simpl; try apply evolves_refl.
  all: apply evolves_same_reads; intros e i.
  all: eapply eq_trans;
    [ eapply lookup_put_event_meta;
      [ apply getEvent_leave_previous; eassumption
      | simpl; eapply getEvent_id; eassumption
      | reflexivity ]
    | apply lookup_leave_previous ].
Qed.

Lemma disconnect_evolves now sd st : store_evolves now st (disconnect sd st).
Proof.
  unfold disconnect. split_cases; try apply evolves_refl.
  eapply evolves_put_event_meta;
    [eassumption | simpl; eapply getEvent_id; eassumption | reflexivity].
Qed.

Lemma host_setMinIncrement_evolves now eventId value sd st :
  store_evolves now st (snd (fst (host_setMinIncrement eventId value sd st))).
Proof. revert sd st. evolves host_setMinIncrement. Qed.

Lemma host_createItem_evolves now eventId title description openingBid imageUrl sd st :
  store_evolves now st
    (snd (fst (host_createItem eventId title description openingBid imageUrl sd st))).
Proof.
  unfold host_createItem. split_cases; simpl; try apply evolves_refl; norm_hyps;
    (eapply evolves_createItem; [eassumption |]);
    repeat eexists; assumption.
Qed.

Lemma host_startTimer_evolves now eventId itemId durationSeconds sd st :
  store_evolves now st
    (snd (fst (host_startTimer now eventId itemId durationSeconds sd st))).
Proof. revert sd st. evolves host_startTimer. Qed.

Lemma host_stopTimer_evolves now eventId itemId sd st :
  store_evolves now st (snd (fst (host_stopTimer eventId itemId sd st))).
Proof. revert sd st. evolves host_stopTimer. Qed.

Lemma host_markSold_evolves now eventId itemId sd st :
  store_evolves now st (snd (fst (host_markSold now eventId itemId sd st))).
Proof. revert sd st. evolves host_markSold. Qed.

Lemma host_reopen_evolves now eventId itemId sd st :
  store_evolves now st (snd (fst (host_reopen now eventId itemId sd st))).
Proof. revert sd st. evolves host_reopen. Qed.

Lemma host_setCurrentLot_evolves now eventId itemId sd st :
  store_evolves now st (snd (fst (host_setCurrentLot eventId itemId sd st))).
Proof. revert sd st. evolves host_setCurrentLot. Qed.

Lemma placeBid_evolves now eventId itemId amount name sd st :
  store_evolves now st (snd (fst (placeBid now eventId itemId amount name sd st))).
Proof. revert sd st. evolves placeBid. Qed.

Lemma payment_confirm_evolves now eventId itemId sd st :
  store_evolves now st (snd (fst (payment_confirm now eventId itemId sd st))).
Proof. revert sd st. evolves payment_confirm. Qed.

Create HintDb evolves.
#[local] Hint Resolve auth_evolves profile_setup_evolves host_createEvent_evolves
  event_join_evolves host_setMinIncrement_evolves host_createItem_evolves
  host_startTimer_evolves host_stopTimer_evolves host_markSold_evolves
  host_reopen_evolves host_setCurrentLot_evolves placeBid_evolves
  payment_confirm_evolves disconnect_evolves : evolves.

Lemma on_evolves now sid h sv :
  (forall sd st, store_evolves now st (snd (fst (h sd st)))) ->
  store_evolves now (store sv) (store (fst (on sid h sv))).
Proof.
  intros Hh. unfold on. destruct (sockets sv !! sid) as [sd|]; [| apply evolves_refl].
  pose proof (Hh sd (store sv)) as H.
  destruct (h sd (store sv)) as [[sd' st'] a]. exact H.
Qed.

(** Whatever the command, the store evolves. *)
Lemma step_evolves now c sv :
  store_evolves now (store sv) (store (fst (step now c sv))).
Proof.
  destruct c; simpl;
    try (apply on_evolves; intros; auto with evolves; fail).
  - destruct (sockets sv !! sid); apply evolves_refl.
  - destruct (sockets sv !! sid); [apply disconnect_evolves | apply evolves_refl].
  - apply evolves_sweep.
Qed.

(** ** Invariants of the reachable states *)

Lemma reachable_run token tr sv : reachable token sv -> reachable token (run tr sv).
Proof.
  revert sv. induction tr as [|[now c] tr IH]; intros sv H; simpl; [exact H |].
  apply IH. constructor. exact H.
Qed.

(** A property of new items that every update keeps holds of every item
    that a read can return. *)
Section ItemInvariant.

Variable P : Item.t -> Prop.
Hypothesis P_new : forall item, new_item item -> P item.
Hypothesis P_update :
  forall now ev item item', P item -> item_update now ev item item' -> P item'.

Lemma reachable_items token sv :
  reachable token sv ->
  forall e i item, lookup_item (store sv) e i = Some item -> P item.
Proof.
  intros Hr. induction Hr as [| now c sv Hr IH]; intros e i item' Hl.
  - discriminate.
  - pose proof (step_evolves now c sv e i) as Hs.
    destruct (lookup_item (store sv) e i) as [item|] eqn:E.
    + destruct Hs as (item'' & Hl' & Hcase). rewrite Hl in Hl'. injection Hl' as <-.
      destruct Hcase as [-> | (ev & _ & Hu)]; [exact (IH e i item E) |].
      exact (P_update now ev item item' (IH e i item E) Hu).
    + apply P_new, Hs, Hl.
Qed.

End ItemInvariant.

Lemma item_update_finite now ev item item' :
  finite_bids item -> item_update now ev item item' -> finite_bids item'.
Proof.
  intros [Ho Hc] Hu. destruct Hu; unfold finite_bids; try (split; assumption).
  - unfold sold_item. destruct (Str.truthy_opt _); split; assumption.
  - unfold reopened_item. destruct (Item.endTime_passed _ _); split; assumption.
  - unfold bid_item. destruct (negb _); split; assumption.
Qed.

(** In every reachable state the opening bid and the current bid of every
    item are finite numbers. *)
Lemma reachable_finite_bids token sv e i item :
  reachable token sv -> lookup_item (store sv) e i = Some item -> finite_bids item.
Proof.
  intros Hr Hl.
  refine (reachable_items finite_bids _ item_update_finite token sv Hr e i item Hl).
  intros it (id & t & d & o & img & Hf & _ & ->). split; exact Hf.
Qed.

Lemma item_update_payment now ev item item' :
  payment_consistent item -> item_update now ev item item' -> payment_consistent item'.
Proof.
  intros [Hs Hp] Hu. destruct Hu; unfold payment_consistent; simpl; try (split; assumption).
  - unfold sold_item. simpl. destruct (Str.truthy_opt (Item.currentWinner item)) eqn:Hw; simpl.
    + split; [reflexivity |]. intros _. split; [exact Hw | eauto].
    + split; [reflexivity | exact Hp].
  - split; [congruence | discriminate].
  - split; [| exact Hp]. intros Hn. apply Hs in Hn. congruence.
  - unfold bid_item. simpl.
    destruct (bool_decide (Item.paymentStatus item = PayNone)) eqn:Hb; simpl.
    + apply bool_decide_eq_true_1 in Hb. split; [congruence | intros Hq; congruence].
    + split; [congruence | discriminate].
  - split; [intros _; assumption | discriminate].
  - split; [intros _; assumption | discriminate].
Qed.

(** In every reachable state an item with a payment sub-state other than
    none is sold, and a pending payment has a winner and a deadline. *)
Lemma reachable_payment_consistent token sv e i item :
  reachable token sv -> lookup_item (store sv) e i = Some item -> payment_consistent item.
Proof.
  intros Hr Hl.
  refine (reachable_items payment_consistent _ item_update_payment token sv Hr e i item Hl).
  intros it (id & t & d & o & img & _ & _ & ->). split; simpl; [congruence | discriminate].
Qed.

Lemma item_update_ledger now ev item item' :
  item_update now ev item item' ->
  exists more, Item.bidHistory item' = Item.bidHistory item ++ more.
Proof.
  destruct 1; try (exists []; rewrite app_nil_r; reflexivity).
  - exists []. rewrite app_nil_r. unfold sold_item. destruct (Str.truthy_opt _); reflexivity.
  - exists []. rewrite app_nil_r. unfold reopened_item.
    destruct (Item.endTime_passed _ _); reflexivity.
  - eexists. apply bid_item_fields.
Qed.

(** No command rewrites a ledger: after a command the ledger of an item
    is the one before, with at most entries added at its end. *)
Lemma step_ledger_append_only now c sv e i item :
  lookup_item (store sv) e i = Some item ->
  exists item' more,
    lookup_item (store (fst (step now c sv))) e i = Some item'
    /\ Item.bidHistory item' = Item.bidHistory item ++ more.
Proof.
  intros Hl. pose proof (step_evolves now c sv e i) as Hs. rewrite Hl in Hs.
  destruct Hs as (item' & Hl' & [-> | (ev & _ & Hu)]).
  - exists item, []. rewrite app_nil_r. auto.
  - destruct (item_update_ledger now ev item item' Hu) as [more Hm]. eauto.
Qed.

Lemma run_ledger_append_only tr sv e i item :
  lookup_item (store sv) e i = Some item ->
  exists item' more,
    lookup_item (store (run tr sv)) e i = Some item'
    /\ Item.bidHistory item' = Item.bidHistory item ++ more.
Proof.
  revert sv item. induction tr as [|[now c] tr IH]; intros sv item Hl; simpl.
  - exists item, []. rewrite app_nil_r. auto.
  - destruct (step_ledger_append_only now c sv e i item Hl) as (item1 & m1 & Hl1 & H1).
    destruct (IH _ item1 Hl1) as (item2 & m2 & Hl2 & H2).
    exists item2, (m1 ++ m2). split; [exact Hl2 |]. rewrite H2, H1, app_assoc. reflexivity.
Qed.

(** *** Connections *)

Ltac named h :=
  intros sd st Hn; unfold h; split_cases; simpl; try exact Hn.

Lemma auth_keeps_named role password : keeps_named (auth role password).
Proof. named auth; exact Hn. Qed.

Lemma profile_setup_keeps_named name email cardLast4 deliveryAddress :
  keeps_named (profile_setup name email cardLast4 deliveryAddress).
Proof.
  named profile_setup. norm_hyps. split.
  - intros d [= <-]. rewrite trim_idem. eauto.
  - intros _ p [= <-]. reflexivity.
Qed.

Lemma event_join_keeps_named eventId name password :
  keeps_named (event_join eventId name password).
Proof.
  named event_join; norm_hyps; (split; [| discriminate]); intros d [= <-].
  - rewrite trim_idem. auto.
  - destruct Hn as [Hn _]. match goal with H : Socket.displayName sd = Some _ |- _ =>
      destruct (Hn _ H) as (? & ? & ?) end. auto.
Qed.

Lemma host_createEvent_keeps_named name location isProtected password :
  keeps_named (host_createEvent name location isProtected password).
Proof. named host_createEvent. Qed.

Lemma host_setMinIncrement_keeps_named eventId value :
  keeps_named (host_setMinIncrement eventId value).
Proof. named host_setMinIncrement. Qed.

Lemma host_createItem_keeps_named eventId title description openingBid imageUrl :
  keeps_named (host_createItem eventId title description openingBid imageUrl).
Proof. named host_createItem. Qed.

Lemma host_startTimer_keeps_named now eventId itemId durationSeconds :
  keeps_named (host_startTimer now eventId itemId durationSeconds).
Proof. named host_startTimer. Qed.

Lemma host_stopTimer_keeps_named eventId itemId :
  keeps_named (host_stopTimer eventId itemId).
Proof. named host_stopTimer. Qed.

Lemma host_markSold_keeps_named now eventId itemId :
  keeps_named (host_markSold now eventId itemId).
Proof. named host_markSold. Qed.

Lemma host_reopen_keeps_named now eventId itemId :
  keeps_named (host_reopen now eventId itemId).
Proof. named host_reopen. Qed.

Lemma host_setCurrentLot_keeps_named eventId itemId :
  keeps_named (host_setCurrentLot eventId itemId).
Proof. named host_setCurrentLot. Qed.

Lemma placeBid_keeps_named now eventId itemId amount name :
  keeps_named (placeBid now eventId itemId amount name).
Proof. named placeBid. Qed.

Lemma payment_confirm_keeps_named now eventId itemId :
  keeps_named (payment_confirm now eventId itemId).
Proof. named payment_confirm. Qed.

Create HintDb named.
#[local] Hint Resolve auth_keeps_named profile_setup_keeps_named
  host_createEvent_keeps_named event_join_keeps_named host_setMinIncrement_keeps_named
  host_createItem_keeps_named host_startTimer_keeps_named host_stopTimer_keeps_named
  host_markSold_keeps_named host_reopen_keeps_named host_setCurrentLot_keeps_named
  placeBid_keeps_named payment_confirm_keeps_named : named.

Lemma on_keeps_named sid h sv :
  keeps_named h ->
  (forall s sd, sockets sv !! s = Some sd -> named_with_profile sd) ->
  forall s sd, sockets (fst (on sid h sv)) !! s = Some sd -> named_with_profile sd.
Proof.
  intros Hk Hall s sd. unfold on.
  destruct (sockets sv !! sid) as [sd0|] eqn:E; [| apply Hall].
  pose proof (Hk sd0 (store sv) (Hall sid sd0 E)) as H.
  destruct (h sd0 (store sv)) as [[sd' st'] a]. simpl in *.
  destruct (decide (sid = s)) as [-> | Hne].
  - rewrite lookup_insert_eq. intros [= <-]. exact H.
  - rewrite lookup_insert_ne by exact Hne. apply Hall.
Qed.

(** In every reachable state every connection is [named_with_profile]. *)
Lemma reachable_named token sv :
  reachable token sv ->
  forall s sd, sockets sv !! s = Some sd -> named_with_profile sd.
Proof.
  induction 1 as [| now c sv Hr IH].
  - intros s sd Hl. simpl in Hl. rewrite lookup_empty in Hl. discriminate.
  - destruct c; simpl;
      try (apply on_keeps_named; [| exact IH]; auto with named; fail).
    + destruct (sockets sv !! sid) eqn:E; [exact IH |]. simpl. intros s sd.
      destruct (decide (sid = s)) as [-> | Hne].
      * rewrite lookup_insert_eq. intros [= <-]. split; [discriminate |].
        intros _ p. discriminate.
      * rewrite lookup_insert_ne by exact Hne. apply IH.
    + destruct (sockets sv !! sid) eqn:E; [| exact IH]. simpl. intros s sd.
      destruct (decide (sid = s)) as [-> | Hne].
      * rewrite lookup_delete_eq. discriminate.
      * rewrite lookup_delete_ne by exact Hne. apply IH.
    + exact IH.
Qed.

(** In every reachable state a display name is trimmed and not empty, and
    its connection has a payment profile. *)
Lemma reachable_display_name token sv sid sd d :
  reachable token sv -> sockets sv !! sid = Some sd -> Socket.displayName sd = Some d ->
  Str.trim d = d /\ Str.truthy d = true /\ is_Some (Socket.paymentProfile sd).
Proof.
  intros Hr Hs Hd. destruct (reachable_named token sv Hr sid sd Hs) as [Hn _].
  exact (Hn d Hd).
Qed.

(** In every reachable state an item whose payment is pending is sold. *)
Lemma reachable_pending_is_sold token sv e i item :
  reachable token sv -> lookup_item (store sv) e i = Some item ->
  Item.paymentStatus item = Pending -> Item.status item = Sold.
Proof.
  intros Hr Hl Hp.
  destruct (reachable_payment_consistent token sv e i item Hr Hl) as [Hs _].
  apply Hs. congruence.
Qed.

(** * The statements of the specification *)

Lemma gala_reached :
  run gala (init "1234")
  = mkServer (gala_store Number.zero vase)
      (<[1%nat := the_host]> (<[2%nat := alice]> ∅)).
Proof. vm_compute. reflexivity. Qed.

Lemma alice_wins_reached :
  store (run alice_wins (init "1234")) = gala_store Number.zero vase_sold.
Proof. vm_compute. reflexivity. Qed.

(** ** C1: the rule for an increment of 0 *)

(** C1, at the input where the code departs from it. With increment 0 the
    threshold is [minAcceptable + Number.EPSILON]; at 100 that sum rounds
    back to 100, so on a lot with opening bid 100 and no bids the bid of
    exactly 100 is not below the threshold: it is accepted and makes the
    caller the current winner. The bid of 100.01 is accepted as well. The
    first version of the handler, with [amount <= minAcceptable], refuses
    the equal bid. *)
Theorem C1_equal_bid_accepted :
  required_amount Number.zero (Number.of_Z 100) = Number.of_Z 100
  /\ placeBid (later 1000) 1 1 (num 100) None alice (gala_store Number.zero vase)
     = (alice,
        put_item (gala_event Number.zero vase)
          (bid_item (later 1000) (Number.of_Z 100) "Alice" vase)
          (gala_store Number.zero vase),
        Ok)
  /\ last_ack equal_bid (init "1234") = Some Ok
  /\ lookup_item (store (run equal_bid (init "1234"))) 1 1
     = Some (bid_item (later 1000) (Number.of_Z 100) "Alice" vase)
  /\ Item.currentWinner (bid_item (later 1000) (Number.of_Z 100) "Alice" vase)
     = Some "Alice"%string
  /\ snd (placeBid (later 1000) 1 1 (Some n100_01) None alice (gala_store Number.zero vase))
     = Ok
  /\ FirstVersion.rejects (Number.of_Z 100) (Number.of_Z 100) = true.
Proof. vm_compute. repeat split. Qed.


(** ** C2: the increment rule *)

(** The price rule with an increment above zero, for an item whose bids are
    finite numbers. *)
Lemma placeBid_increment_rule now eventId itemId amount name sd st ev item d :
  getEvent st eventId = Some ev ->
  getItem (Some ev) itemId = Some item ->
  bound_bidder sd ev d ->
  Item.status item = Open ->
  Item.endTime_passed now item = false ->
  Number.isFinite (Item.openingBid item) = true ->
  Number.isFinite (Item.currentBid item) = true ->
  Number.isFinite amount = true ->
  Number.gt amount Number.zero = true ->
  Number.gt (Event.minIncrement ev) Number.zero = true ->
  let required :=
    Number.add (Math.max (Item.openingBid item) (Item.currentBid item))
      (Event.minIncrement ev) in
  placeBid now eventId itemId (Some amount) name sd st =
    (if Number.ge amount required
     then (sd, put_item ev (bid_item now amount d item) st, Ok)
     else (sd, st, Err (E_BidAtLeast (Event.minIncrement ev) required)))
  /\ Item.currentBid (bid_item now amount d item) = amount
  /\ Item.currentWinner (bid_item now amount d item) = Some d.
Proof.
  intros He Hi Hb Hs Hdl Hob Hcb Hfin Hpos Hinc required.
  split; [| split; apply bid_item_fields].
  rewrite (placeBid_bound now eventId itemId (Some amount) name sd st ev item d He Hi Hb).
  rewrite Hs, Hdl. rewrite bool_decide_eq_true_2 by reflexivity. simpl.
  rewrite Hfin. simpl.
  pose proof (not_le_gt amount Number.zero (finite_not_nan _ Hfin) eq_refl) as Hle.
  rewrite Hpos in Hle. apply negb_true_iff in Hle. rewrite Hle.
  destruct (gt_zero_truthy _ Hinc) as [Htr Hne].
  unfold required_amount, Number.or. rewrite Hne, Htr, Hinc. fold required.
  assert (Hreq : Number.isNaN required = false).
  { apply add_not_nan; [apply max_finite; assumption | eapply lt_not_nan_r; exact Hinc]. }
  rewrite <- (not_lt_ge amount required (finite_not_nan _ Hfin) Hreq).
  destruct (Number.lt amount required); reflexivity.
Qed.


(** C2. In every reachable state, with a minimum increment above zero, a bid
    that reaches the price rule of [placeBid] (a bidder bound to the event,
    an open item whose deadline has not passed, a finite amount above zero)
    is held against [required = max(openingBid, currentBid) + minIncrement]:
    it is accepted when [amount >= required] and then becomes the current
    bid of the caller; otherwise it is refused with the message that
    carries the increment and [required], and nothing changes. *)
Theorem C2_increment_rule token sv now eventId itemId amount name sd ev item d :
  reachable token sv ->
  getEvent (store sv) eventId = Some ev ->
  getItem (Some ev) itemId = Some item ->
  bound_bidder sd ev d ->
  Item.status item = Open ->
  Item.endTime_passed now item = false ->
  Number.isFinite amount = true ->
  Number.gt amount Number.zero = true ->
  Number.gt (Event.minIncrement ev) Number.zero = true ->
  let required :=
    Number.add (Math.max (Item.openingBid item) (Item.currentBid item))
      (Event.minIncrement ev) in
  placeBid now eventId itemId (Some amount) name sd (store sv) =
    (if Number.ge amount required
     then (sd, put_item ev (bid_item now amount d item) (store sv), Ok)
     else (sd, store sv, Err (E_BidAtLeast (Event.minIncrement ev) required)))
  /\ Item.currentBid (bid_item now amount d item) = amount
  /\ Item.currentWinner (bid_item now amount d item) = Some d.
Proof.
  intros Hr He Hi Hb Hs Hdl Hfin Hpos Hinc.
  assert (Hl : lookup_item (store sv) eventId itemId = Some item).
  { unfold lookup_item. rewrite He. exact Hi. }
  destruct (reachable_finite_bids token sv eventId itemId item Hr Hl) as [Hob Hcb].
  apply placeBid_increment_rule; assumption.
Qed.

(** The scenario of C2: increment 50 and current bid 100; 150 is accepted,
    140 is refused with the threshold 150. *)
Lemma C2_increment_rule_witness :
  placeBid t0 1 1 (num 150) None alice (store (run gala_increment_50 (init "1234")))
  = (alice,
     put_item (gala_event (Number.of_Z 50) vase)
       (bid_item t0 (Number.of_Z 150) "Alice" vase)
       (store (run gala_increment_50 (init "1234"))),
     Ok)
  /\ placeBid t0 1 1 (num 140) None alice (store (run gala_increment_50 (init "1234")))
     = (alice, store (run gala_increment_50 (init "1234")),
        Err (E_BidAtLeast (Number.of_Z 50) (Number.of_Z 150))).
Proof.
  assert (Hr : reachable "1234" (run gala_increment_50 (init "1234")))
    by apply reachable_run, reachable_init.
  assert (He : getEvent (store (run gala_increment_50 (init "1234"))) 1
               = Some (gala_event (Number.of_Z 50) vase))
    by (vm_compute; reflexivity).
  assert (Hb : bound_bidder alice (gala_event (Number.of_Z 50) vase) "Alice")
    by (repeat split; reflexivity).
  split.
  - apply (proj1 (C2_increment_rule "1234" _ t0 1 1 (Number.of_Z 150) None alice
                    (gala_event (Number.of_Z 50) vase) vase "Alice"
                    Hr He eq_refl Hb eq_refl eq_refl eq_refl eq_refl eq_refl)).
  - apply (proj1 (C2_increment_rule "1234" _ t0 1 1 (Number.of_Z 140) None alice
                    (gala_event (Number.of_Z 50) vase) vase "Alice"
                    Hr He eq_refl Hb eq_refl eq_refl eq_refl eq_refl eq_refl)).
Defined.

(** ** C3: selling a closed item *)

(** C3, refuted: the timer of the lot runs out, the sweep closes the lot,
    and [host:markSold] then answers ok and leaves the lot sold. *)
Lemma C3_closed_item_is_sold :
  Item.status <$> lookup_item (store (run (removelast closed_then_sold) (init "1234"))) 1 1
  = Some Closed
  /\ last_ack closed_then_sold (init "1234") = Some Ok
  /\ Item.status <$> lookup_item (store (run closed_then_sold (init "1234"))) 1 1
     = Some Sold.
Proof. vm_compute. repeat split. Qed.

(** C3, as the code has it. [host:markSold] has no guard on the status: for
    a host and an item that exists it answers ok whatever the status was
    (open, closed or sold); the item is then sold, its deadline is cleared,
    and the payment window opens for the current winner if there is one. *)
Theorem C3_markSold_any_status now eventId itemId sd st ev item :
  Socket.role sd = Host ->
  getEvent st eventId = Some ev ->
  getItem (Some ev) itemId = Some item ->
  host_markSold now eventId itemId sd st
  = (sd, put_item ev (sold_item now item) st, Ok)
  /\ lookup_item (put_item ev (sold_item now item) st) eventId itemId
     = Some (sold_item now item)
  /\ Item.status (sold_item now item) = Sold
  /\ Item.endTime (sold_item now item) = None
  /\ (Str.truthy_opt (Item.currentWinner item) = true ->
      Item.paymentStatus (sold_item now item) = Pending
      /\ Item.paymentWinnerName (sold_item now item) = Item.currentWinner item
      /\ Item.paymentDueAt (sold_item now item) = Some (Number.add now payment_window))
  /\ (Str.truthy_opt (Item.currentWinner item) = false ->
      sold_item now item = Item.with_endTime None (Item.with_status Sold item)).
Proof.
  intros Hr He Hi. split; [| split].
  - unfold host_markSold, role_is. rewrite Hr, He, Hi.
    rewrite bool_decide_eq_true_2 by reflexivity. reflexivity.
  - apply (lookup_put_item st eventId itemId ev item); auto.
    rewrite sold_item_id. apply (getItem_id ev itemId item Hi).
  - unfold sold_item. simpl.
    destruct (Str.truthy_opt (Item.currentWinner item)); repeat split; congruence.
Qed.

Lemma C3_markSold_any_status_witness :
  host_markSold t0 1 1 the_host (gala_store Number.zero (closed_item vase))
  = (the_host,
     put_item (gala_event Number.zero (closed_item vase))
       (sold_item t0 (closed_item vase)) (gala_store Number.zero (closed_item vase)),
     Ok)
  /\ Item.status (closed_item vase) = Closed
  /\ Item.status (sold_item t0 (closed_item vase)) = Sold.
Proof.
  split; [| split; reflexivity].
  exact (proj1 (C3_markSold_any_status t0 1 1 the_host
           (gala_store Number.zero (closed_item vase))
           (gala_event Number.zero (closed_item vase)) (closed_item vase)
           eq_refl eq_refl eq_refl)).
Defined.


(** ** C4: confirming the payment *)

(** C4, refuted: Alice has won the lot, the payment deadline has passed,
    and Bob tries to confirm. The attempt fails, yet the payment stays
    pending: the failed attempt does not make it expired. *)
Lemma C4_late_attempt_by_other_keeps_pending :
  last_ack late_confirm_by_other (init "1234") = Some (Err E_OnlyWinner)
  /\ (exists item,
        lookup_item (store (run late_confirm_by_other (init "1234"))) 1 1 = Some item
        /\ Item.paymentStatus item = Pending
        /\ Item.paymentDue_passed (later 200000) item = true).
Proof.
  split; [vm_compute; reflexivity |].
  eexists. split; [vm_compute; reflexivity |]. split; vm_compute; reflexivity.
Qed.


(** [payment:confirm] on an item that exists, by the checks it makes. *)
Lemma payment_confirm_cases now eventId itemId sd st ev item :
  getEvent st eventId = Some ev ->
  getItem (Some ev) itemId = Some item ->
  let r := payment_confirm now eventId itemId sd st in
  (snd r = Ok <-> entitled sd item /\ Item.paymentDue_passed now item = false)
  /\ (snd r = Ok ->
      r = (sd, put_item ev (confirmed_item item) st, Ok)
      /\ lookup_item (put_item ev (confirmed_item item) st) eventId itemId
         = Some (confirmed_item item)
      /\ Item.paymentStatus (confirmed_item item) = Confirmed)
  /\ (entitled sd item -> Item.paymentDue_passed now item = true ->
      r = (sd, put_item ev (Item.with_paymentStatus Expired item) st, Err E_PaymentExpired))
  /\ (~ entitled sd item -> exists e, r = (sd, st, Err e))
  /\ (forall due, Item.paymentDueAt item = Some due -> Number.truthy due = true ->
      Number.isNaN now = false ->
      (Item.paymentDue_passed now item = false <-> Number.le now due = true)).
Proof.
  intros He Hi r.
  assert (Hr : r =
    if negb (bool_decide (Item.status item = Sold)) then (sd, st, Err E_ItemNotSold)
    else if negb (bool_decide (Item.paymentStatus item = Pending))
    then (sd, st, Err E_NoPendingPayment)
    else if negb (bool_decide (is_Some (Socket.paymentProfile sd)))
    then (sd, st, Err E_SetupProfileFirst)
    else if negb (bool_decide (Socket.displayName sd = Item.paymentWinnerName item))
    then (sd, st, Err E_OnlyWinner)
    else if Item.paymentDue_passed now item
    then (sd, put_item ev (Item.with_paymentStatus Expired item) st, Err E_PaymentExpired)
    else (sd, put_item ev (confirmed_item item) st, Ok)).
  { subst r. unfold payment_confirm. rewrite He, Hi. reflexivity. }
  assert (Hok : snd r = Ok <-> entitled sd item /\ Item.paymentDue_passed now item = false).
  { rewrite Hr. unfold entitled.
    repeat case_bool_decide; simpl; try (split; [discriminate | tauto]).
    destruct (Item.paymentDue_passed now item); simpl; split; try discriminate; try tauto.
    intros [_ [=]]. }
  split; [exact Hok |]. split; [| split; [| split]].
  - intros H. apply Hok in H. destruct H as [(H1 & H2 & H3 & H4) Hp].
    split; [| split; [| reflexivity]].
    + rewrite Hr, Hp. rewrite !bool_decide_eq_true_2 by assumption. reflexivity.
    + apply (lookup_put_item st eventId itemId ev item); auto.
      apply (getItem_id ev itemId item Hi).
  - intros (H1 & H2 & H3 & H4) Hp.
    rewrite Hr, Hp. rewrite !bool_decide_eq_true_2 by assumption. reflexivity.
  - intros Hn. rewrite Hr. unfold entitled in Hn.
    repeat case_bool_decide; simpl; eauto. tauto.
  - intros due Hd Ht Hnow. unfold Item.paymentDue_passed. rewrite Hd, Ht. simpl.
    destruct (Number.isNaN due) eqn:Hdue; [destruct due; discriminate |].
    rewrite <- (not_le_gt now due Hnow Hdue).
    destruct (Number.le now due); simpl; split; congruence.
Qed.


(** C4, as the code has it. In every reachable state and for an item that
    exists, [payment:confirm] answers ok exactly when the payment sub-state
    is pending, the display name of the caller is the recorded
    [paymentWinnerName], and the deadline has not passed (for a deadline
    that is set, [now <= paymentDueAt]); the payment is then confirmed and
    the deadline cleared. After the deadline the same caller gets the error
    of the expired window and the payment becomes expired. Every other
    attempt fails and changes nothing, whether or not the deadline has
    passed. *)
Theorem C4_confirm_payment token sv sid now eventId itemId sd ev item :
  reachable token sv ->
  sockets sv !! sid = Some sd ->
  getEvent (store sv) eventId = Some ev ->
  getItem (Some ev) itemId = Some item ->
  let caller_is_winner :=
    Item.paymentStatus item = Pending
    /\ Socket.displayName sd = Item.paymentWinnerName item in
  let r := payment_confirm now eventId itemId sd (store sv) in
  (snd r = Ok <-> caller_is_winner /\ Item.paymentDue_passed now item = false)
  /\ (snd r = Ok ->
      r = (sd, put_item ev (confirmed_item item) (store sv), Ok)
      /\ lookup_item (put_item ev (confirmed_item item) (store sv)) eventId itemId
         = Some (confirmed_item item)
      /\ Item.paymentStatus (confirmed_item item) = Confirmed)
  /\ (caller_is_winner -> Item.paymentDue_passed now item = true ->
      r = (sd, put_item ev (Item.with_paymentStatus Expired item) (store sv),
           Err E_PaymentExpired))
  /\ (~ caller_is_winner -> exists e, r = (sd, store sv, Err e))
  /\ (forall due, Item.paymentDueAt item = Some due -> Number.truthy due = true ->
      Number.isNaN now = false ->
      (Item.paymentDue_passed now item = false <-> Number.le now due = true)).
Proof.
  intros Hr Hs He Hi caller_is_winner r.
  assert (Hl : lookup_item (store sv) eventId itemId = Some item).
  { unfold lookup_item. rewrite He. exact Hi. }
  destruct (reachable_payment_consistent token sv eventId itemId item Hr Hl) as [Hsold Hpend].
  destruct (reachable_named token sv Hr sid sd Hs) as [Hname _].
  assert (Hent : entitled sd item <-> caller_is_winner).
  { unfold entitled, caller_is_winner. split; [tauto |]. intros [Hp Hw].
    split; [apply Hsold; congruence |]. split; [exact Hp |]. split; [| exact Hw].
    destruct (Hpend Hp) as [Ht _]. rewrite <- Hw in Ht.
    destruct (Socket.displayName sd) as [d|] eqn:Hd; [| discriminate].
    apply (Hname d eq_refl). }
  destruct (payment_confirm_cases now eventId itemId sd (store sv) ev item He Hi)
    as (H1 & H2 & H3 & H4 & H5).
  fold r in H1, H2, H3, H4.
  split; [rewrite H1, Hent; reflexivity |].
  split; [exact H2 |]. split; [intros Hc; apply H3, Hent, Hc |].
  split; [intros Hc; apply H4; rewrite Hent; exact Hc | exact H5].
Qed.

(** Alice has won the lot at [t0]: a minute later she confirms; had she
    waited two hundred seconds, the payment would have expired. *)
Lemma C4_confirm_payment_witness :
  payment_confirm (later 60000) 1 1 alice (store (run alice_wins (init "1234")))
  = (alice,
     put_item (gala_event Number.zero vase_sold) (confirmed_item vase_sold)
       (store (run alice_wins (init "1234"))),
     Ok)
  /\ payment_confirm (later 200000) 1 1 alice (store (run alice_wins (init "1234")))
     = (alice,
        put_item (gala_event Number.zero vase_sold)
          (Item.with_paymentStatus Expired vase_sold)
          (store (run alice_wins (init "1234"))),
        Err E_PaymentExpired).
Proof.
  assert (Hr : reachable "1234" (run alice_wins (init "1234")))
    by apply reachable_run, reachable_init.
  assert (Hs : sockets (run alice_wins (init "1234")) !! 2%nat = Some alice)
    by (vm_compute; reflexivity).
  assert (He : getEvent (store (run alice_wins (init "1234"))) 1
               = Some (gala_event Number.zero vase_sold))
    by (vm_compute; reflexivity).
  pose proof (C4_confirm_payment "1234" _ 2%nat (later 60000) 1 1 alice
                (gala_event Number.zero vase_sold) vase_sold Hr Hs He eq_refl) as H1.
  pose proof (C4_confirm_payment "1234" _ 2%nat (later 200000) 1 1 alice
                (gala_event Number.zero vase_sold) vase_sold Hr Hs He eq_refl) as H2.
  split.
  - apply (proj1 (proj2 H1)). apply (proj1 H1). repeat split; vm_compute; reflexivity.
  - apply (proj1 (proj2 (proj2 H2))); [split |]; vm_compute; reflexivity.
Defined.

(** ** C5: who may confirm *)

(** A connection that is not a bidder cannot bid, whatever the payload. *)
Lemma placeBid_only_bidders now eventId itemId amount name sd st :
  Socket.role sd <> Bidder ->
  placeBid now eventId itemId amount name sd st = (sd, st, Err E_OnlyBidders).
Proof.
  intros H. unfold placeBid, role_is. rewrite bool_decide_eq_false_2 by exact H. reflexivity.
Qed.

(** C5, at the input where the code departs from it. [payment:confirm]
    does not read the role. A connection that never authenticated, and so
    has the role guest, sends a profile under the winner's name and then
    confirms the winner's payment: the answer is ok and the payment is
    confirmed. *)
Theorem C5_guest_confirms_payment :
  (exists sd, sockets (run guest_confirms (init "1234")) !! 3%nat = Some sd
              /\ Socket.role sd = Guest /\ Socket.eventId sd = None)
  /\ last_ack guest_confirms (init "1234") = Some Ok
  /\ Item.paymentStatus
       <$> lookup_item (store (run (removelast guest_confirms) (init "1234"))) 1 1
     = Some Pending
  /\ Item.paymentStatus <$> lookup_item (store (run guest_confirms (init "1234"))) 1 1
     = Some Confirmed.
Proof.
  split; [eexists; split; [vm_compute; reflexivity | split; reflexivity] |].
  vm_compute. repeat split.
Qed.


(** ** C6: the bidding deadline *)

(** C6. Once the deadline of an item has passed ([item.endTime] is set and
    [now >= item.endTime]), no [placeBid] on it is accepted, from whatever
    connection and with whatever amount: the answer is an error, and the
    store is as before or differs only in that the item is closed. A bidder
    bound to the event who bids on the still open item gets the error of
    the closed window, and the item is closed with its deadline cleared;
    current bid, current winner and ledger are as before. Without any bid
    the sweep does the same to the open item. Every read after either sees
    the closed item, and later ticks leave it closed. *)
Theorem C6_deadline_passed now eventId itemId amount name sd st ev item :
  getEvent st eventId = Some ev ->
  getItem (Some ev) itemId = Some item ->
  Item.endTime_passed now item = true ->
  let r := placeBid now eventId itemId amount name sd st in
  (exists e, snd r = Err e)
  /\ (fst r = (sd, st) \/ fst r = (sd, put_item ev (closed_item item) st))
  /\ (forall d, bound_bidder sd ev d -> Item.status item = Open ->
      r = (sd, put_item ev (closed_item item) st, Err E_TimeUp))
  /\ lookup_item (put_item ev (closed_item item) st) eventId itemId = Some (closed_item item)
  /\ (Item.status item = Open ->
      lookup_item (sweep now st) eventId itemId = Some (closed_item item))
  /\ Item.status (closed_item item) = Closed
  /\ Item.endTime (closed_item item) = None
  /\ Item.currentBid (closed_item item) = Item.currentBid item
  /\ Item.currentWinner (closed_item item) = Item.currentWinner item
  /\ Item.bidHistory (closed_item item) = Item.bidHistory item
  /\ (forall now', sweep_item now' (closed_item item) = closed_item item).
Proof.
  intros He Hi Hp r.
  assert (Hr : (exists e, snd r = Err e)
               /\ (fst r = (sd, st) \/ fst r = (sd, put_item ev (closed_item item) st))).
  { subst r. unfold placeBid. rewrite He, Hi, Hp.
    repeat match goal with
      | |- context [if ?c then _ else _] => destruct c
      end; simpl; eauto. }
  destruct Hr as [Hr1 Hr2].
  repeat match goal with |- _ /\ _ => split end; try reflexivity; auto.
  - intros d Hb Hs. subst r.
    rewrite (placeBid_bound now eventId itemId amount name sd st ev item d He Hi Hb).
    rewrite Hs, Hp. rewrite bool_decide_eq_true_2 by reflexivity. reflexivity.
  - apply (lookup_put_item st eventId itemId ev item); auto.
    apply (getItem_id ev itemId item Hi).
  - intros Hs. rewrite lookup_sweep. unfold lookup_item. rewrite He, Hi. simpl.
    rewrite (sweep_item_open_passed now item Hs Hp). reflexivity.
Qed.

(** The lot with a deadline thirty seconds after [t0]; Alice bids a minute
    after [t0]. *)
Lemma C6_deadline_passed_witness :
  placeBid (later 60000) 1 1 (num 500) None alice
    (gala_store Number.zero (Item.with_endTime (Some (later 30000)) vase))
  = (alice,
     put_item (gala_event Number.zero (Item.with_endTime (Some (later 30000)) vase))
       (closed_item (Item.with_endTime (Some (later 30000)) vase))
       (gala_store Number.zero (Item.with_endTime (Some (later 30000)) vase)),
     Err E_TimeUp)
  /\ lookup_item
       (sweep (later 60000)
          (gala_store Number.zero (Item.with_endTime (Some (later 30000)) vase))) 1 1
     = Some (closed_item (Item.with_endTime (Some (later 30000)) vase)).
Proof.
  pose proof (C6_deadline_passed (later 60000) 1 1 (num 500) None alice
                (gala_store Number.zero (Item.with_endTime (Some (later 30000)) vase))
                (gala_event Number.zero (Item.with_endTime (Some (later 30000)) vase))
                (Item.with_endTime (Some (later 30000)) vase)
                eq_refl eq_refl eq_refl) as H.
  split.
  - apply (proj1 (proj2 (proj2 H)) "Alice"%string); [| reflexivity].
    repeat split; reflexivity.
  - apply (proj1 (proj2 (proj2 (proj2 (proj2 H))))). reflexivity.
Defined.

(** ** C7: the ledger *)

(** C7, at the input where the code departs from it. Alice bids 150 and is
    accepted; Bob then bids 150 as well and is accepted too (the same
    rounding as in C1): the ledger holds 150 twice, and the current bid did
    not increase while the winner changed. *)
Theorem C7_equal_amounts_in_ledger :
  last_ack (removelast two_equal_bids) (init "1234") = Some Ok
  /\ last_ack two_equal_bids (init "1234") = Some Ok
  /\ amounts <$> lookup_item (store (run two_equal_bids (init "1234"))) 1 1
     = Some [Number.of_Z 150; Number.of_Z 150]
  /\ Number.lt (Number.of_Z 150) (Number.of_Z 150) = false
  /\ Item.currentWinner
       <$> lookup_item (store (run (removelast two_equal_bids) (init "1234"))) 1 1
     = Some (Some "Alice"%string)
  /\ Item.currentWinner <$> lookup_item (store (run two_equal_bids (init "1234"))) 1 1
     = Some (Some "Bob"%string).
Proof. vm_compute. repeat split. Qed.

(** ** C8: starting the timer *)

(** C8, refuted: the host asks for a duration of 0, which is not a
    positive number; the answer is ok and the deadline is sixty seconds
    after the clock reading. *)
Lemma C8_zero_duration_starts_timer :
  last_ack zero_duration (init "1234") = Some Ok
  /\ Item.endTime <$> lookup_item (store (run zero_duration (init "1234"))) 1 1
     = Some (Some (later 60000)).
Proof. vm_compute. repeat split. Qed.

(** C8, as the code has it. The duration that counts is the requested one,
    or 60 when the request has none or one that is false as a condition (0
    or NaN). For a host and an item that exists: [host:startTimer] fails
    and changes nothing when the item is not open, and when that duration is
    not finite or not above zero; otherwise it answers ok and the deadline
    of the item becomes [now + duration * 1000] milliseconds, every other
    field of the item being as before. *)
Theorem C8_startTimer now eventId itemId durationSeconds sd st ev item :
  Socket.role sd = Host ->
  getEvent st eventId = Some ev ->
  getItem (Some ev) itemId = Some item ->
  let dur := Number.payload_or durationSeconds (Number.of_Z 60) in
  let r := host_startTimer now eventId itemId durationSeconds sd st in
  let item' :=
    Item.with_endTime (Some (Number.add now (Number.mul dur (Number.of_Z 1000)))) item in
  (Item.status item <> Open -> r = (sd, st, Err E_ItemNotOpen))
  /\ (Item.status item = Open ->
      Number.isFinite dur = false \/ Number.le dur Number.zero = true ->
      r = (sd, st, Err E_BadDuration))
  /\ (Item.status item = Open -> Number.isFinite dur = true ->
      Number.gt dur Number.zero = true ->
      r = (sd, put_item ev item' st, Ok)
      /\ lookup_item (put_item ev item' st) eventId itemId = Some item'
      /\ Item.with_endTime (Item.endTime item) item' = item)
  /\ (forall x, durationSeconds = Some x -> Number.truthy x = true -> dur = x)
  /\ (durationSeconds = None
      \/ (exists x, durationSeconds = Some x /\ Number.truthy x = false) ->
      dur = Number.of_Z 60).
Proof.
  intros Hr He Hi dur r item'.
  assert (Hrun : r =
    if negb (bool_decide (Item.status item = Open)) then (sd, st, Err E_ItemNotOpen)
    else if negb (Number.isFinite dur) || Number.le dur Number.zero
    then (sd, st, Err E_BadDuration)
    else (sd, put_item ev item' st, Ok)).
  { subst r. unfold host_startTimer, role_is. rewrite Hr, He, Hi.
    rewrite bool_decide_eq_true_2 by reflexivity. reflexivity. }
  repeat match goal with |- _ /\ _ => split end.
  - intros Hs. rewrite Hrun. rewrite bool_decide_eq_false_2 by exact Hs. reflexivity.
  - intros Hs Hbad. rewrite Hrun. rewrite bool_decide_eq_true_2 by exact Hs. simpl.
    destruct Hbad as [-> | ->]; [reflexivity | rewrite orb_true_r; reflexivity].
  - intros Hs Hf Hp. rewrite Hrun. rewrite bool_decide_eq_true_2 by exact Hs. simpl.
    rewrite Hf. simpl.
    pose proof (not_le_gt dur Number.zero (finite_not_nan _ Hf) eq_refl) as Hle.
    rewrite Hp in Hle. apply negb_true_iff in Hle. rewrite Hle.
    split; [reflexivity |]. split.
    + apply (lookup_put_item st eventId itemId ev item); auto.
      apply (getItem_id ev itemId item Hi).
    + destruct item; reflexivity.
  - intros x -> Hx. subst dur. simpl. unfold Number.or. rewrite Hx. reflexivity.
  - intros [-> | (x & -> & Hx)]; subst dur; simpl; [reflexivity |].
    unfold Number.or. rewrite Hx. reflexivity.
Qed.

(** A timer of ninety seconds on the open lot; and no timer on a sold one. *)
Lemma C8_startTimer_witness :
  host_startTimer t0 1 1 (num 90) the_host (gala_store Number.zero vase)
  = (the_host,
     put_item (gala_event Number.zero vase)
       (Item.with_endTime (Some (later 90000)) vase) (gala_store Number.zero vase),
     Ok)
  /\ host_startTimer t0 1 1 (num 90) the_host (gala_store Number.zero vase_sold)
     = (the_host, gala_store Number.zero vase_sold, Err E_ItemNotOpen).
Proof.
  split.
  - apply (proj1 (proj2 (proj2 (C8_startTimer t0 1 1 (num 90) the_host
             (gala_store Number.zero vase) (gala_event Number.zero vase) vase
             eq_refl eq_refl eq_refl))));
      reflexivity.
  - apply (proj1 (C8_startTimer t0 1 1 (num 90) the_host
             (gala_store Number.zero vase_sold) (gala_event Number.zero vase_sold)
             vase_sold eq_refl eq_refl eq_refl)).
    vm_compute. discriminate.
Defined.

(** ** C9: one connection for a name *)

(** C9, at the input where the code departs from it. Alice is bound to
    event 1 and sends a second profile under the name Bob: her connection
    now carries the name Bob, still locked and still in the event, while the
    participant set holds Alice. Bob's own join of event 1 then succeeds.
    Two connections are bound to event 1 under the one name Bob, and the
    bid of the first is recorded under it. *)
Theorem C9_two_connections_one_name :
  last_ack renamed_while_bound (init "1234") = Some Ok
  /\ bound_as (run renamed_while_bound (init "1234")) 2 1 "Bob"
  /\ bound_as (run renamed_while_bound (init "1234")) 3 1 "Bob"
  /\ last_ack (renamed_while_bound ++ [(later 5000, PlaceBid 2 1 1 (num 150) None)])
       (init "1234") = Some Ok
  /\ Item.currentWinner
       <$> lookup_item
             (store (run (renamed_while_bound
                          ++ [(later 5000, PlaceBid 2 1 1 (num 150) None)])
                       (init "1234"))) 1 1
     = Some (Some "Bob"%string).
Proof.
  split; [vm_compute; reflexivity |].
  split; [eexists; split; [vm_compute; reflexivity | repeat split] |].
  split; [eexists; split; [vm_compute; reflexivity | repeat split] |].
  vm_compute. repeat split.
Qed.

(** What holds of the name lock: a connection that is not bound to the
    event cannot take a name of its participant set, and a disconnect
    removes the display name of the connection from the set. *)
Lemma event_join_name_taken eventId name password sd st ev :
  is_Some (Socket.paymentProfile sd) -> Socket.role sd = Bidder ->
  getEvent st eventId = Some ev -> Event.isProtected ev = false ->
  Str.truthy (Str.trim (Str.payload_or name "")) = true ->
  Socket.nameLocked sd = false \/ joined sd ev = false ->
  Str.trim (Str.payload_or name "") ∈ Event.participants ev ->
  event_join eventId name password sd st = (sd, st, Err E_NameTaken).
Proof.
  intros Hp Hr He Hprot Hn Hfree Hin. unfold event_join, role_is.
  rewrite (bool_decide_eq_true_2 _ Hp), Hr, He, Hprot, Hn.
  rewrite bool_decide_eq_true_2 by reflexivity. simpl.
  rewrite Hn, (bool_decide_eq_true_2 _ Hin). simpl.
  destruct Hfree as [-> | ->]; simpl; [reflexivity |].
  rewrite andb_false_r. simpl. rewrite orb_true_r. reflexivity.
Qed.

Lemma disconnect_releases sd st e ev d :
  Socket.eventId sd = Some e -> getEvent st e = Some ev ->
  Socket.displayName sd = Some d -> Str.truthy d = true ->
  exists ev', getEvent (disconnect sd st) e = Some ev'
              /\ Event.participants ev' = Event.participants ev ∖ {[d]}
              /\ d ∉ Event.participants ev'.
Proof.
  intros Hid He Hd Ht. unfold disconnect. rewrite Hid. simpl. rewrite He, Hd, Ht.
  eexists. split; [| split].
  - apply (getEvent_put_event st e ev); [exact He |]. simpl. apply (getEvent_id _ _ _ He).
  - reflexivity.
  - simpl. intros Hin. apply elem_of_difference in Hin as [_ Hin].
    apply Hin, elem_of_singleton. reflexivity.
Qed.

(** ** C10: joining needs a payment profile *)

Ltac keeps h := intros sd st; unfold h; split_cases; reflexivity.

(** Only [profile:setup] writes the payment profile. *)
Lemma auth_keeps_profile role password : keeps_profile (auth role password).
Proof. keeps auth. Qed.

Lemma host_createEvent_keeps_profile name location isProtected password :
  keeps_profile (host_createEvent name location isProtected password).
Proof. keeps host_createEvent. Qed.

Lemma event_join_keeps_profile eventId name password :
  keeps_profile (event_join eventId name password).
Proof. keeps event_join. Qed.

Lemma host_setMinIncrement_keeps_profile eventId value :
  keeps_profile (host_setMinIncrement eventId value).
Proof. keeps host_setMinIncrement. Qed.

Lemma host_createItem_keeps_profile eventId title description openingBid imageUrl :
  keeps_profile (host_createItem eventId title description openingBid imageUrl).
Proof. keeps host_createItem. Qed.

Lemma host_startTimer_keeps_profile now eventId itemId durationSeconds :
  keeps_profile (host_startTimer now eventId itemId durationSeconds).
Proof. keeps host_startTimer. Qed.

Lemma host_stopTimer_keeps_profile eventId itemId :
  keeps_profile (host_stopTimer eventId itemId).
Proof. keeps host_stopTimer. Qed.

Lemma host_markSold_keeps_profile now eventId itemId :
  keeps_profile (host_markSold now eventId itemId).
Proof. keeps host_markSold. Qed.

Lemma host_reopen_keeps_profile now eventId itemId :
  keeps_profile (host_reopen now eventId itemId).
Proof. keeps host_reopen. Qed.

Lemma host_setCurrentLot_keeps_profile eventId itemId :
  keeps_profile (host_setCurrentLot eventId itemId).
Proof. keeps host_setCurrentLot. Qed.

Lemma placeBid_keeps_profile now eventId itemId amount name :
  keeps_profile (placeBid now eventId itemId amount name).
Proof. keeps placeBid. Qed.

Lemma payment_confirm_keeps_profile now eventId itemId :
  keeps_profile (payment_confirm now eventId itemId).
Proof. keeps payment_confirm. Qed.

(** A [profile:setup] with a blank name or a blank email changes nothing. *)
Lemma profile_setup_blank name email cardLast4 deliveryAddress sd st :
  Str.truthy (Str.trim (Str.payload_or name ""))
  && Str.truthy (Str.trim (Str.payload_or email "")) = false ->
  fst (profile_setup name email cardLast4 deliveryAddress sd st) = (sd, st).
Proof.
  intros H. unfold profile_setup.
  destruct (Str.truthy (Str.trim (Str.payload_or name ""))); simpl in *; [| reflexivity].
  rewrite H. reflexivity.
Qed.

Lemma on_without_profile sid sid' h sv :
  (forall sd st, Socket.paymentProfile sd = None ->
                 Socket.paymentProfile (fst (fst (h sd st))) = None) ->
  without_profile sv sid -> without_profile (fst (on sid' h sv)) sid.
Proof.
  intros Hh Hw. unfold on.
  destruct (sockets sv !! sid') as [sd0|] eqn:E; [| exact Hw].
  pose proof (Hh sd0 (store sv)) as Hh0.
  destruct (h sd0 (store sv)) as [[sd' st'] a]. simpl in *.
  intros sd Hl. simpl in Hl. destruct (decide (sid' = sid)) as [-> | Hne].
  - rewrite lookup_insert_eq in Hl. injection Hl as <-. apply Hh0, (Hw sd0 E).
  - rewrite lookup_insert_ne in Hl by exact Hne. apply (Hw sd Hl).
Qed.

Lemma on_keeps_without_profile sid sid' h sv :
  keeps_profile h -> without_profile sv sid -> without_profile (fst (on sid' h sv)) sid.
Proof.
  intros Hk. apply on_without_profile. intros sd st H. rewrite Hk. exact H.
Qed.

(** A command that is not a completed [profile:setup] of the connection
    leaves it without a profile. *)
Lemma step_without_profile now c sv sid :
  without_profile sv sid -> completes_profile sid c = false ->
  without_profile (fst (step now c sv)) sid.
Proof.
  intros Hw Hc. destruct c; simpl;
    try (apply on_keeps_without_profile;
         auto using auth_keeps_profile, host_createEvent_keeps_profile,
           event_join_keeps_profile, host_setMinIncrement_keeps_profile,
           host_createItem_keeps_profile, host_startTimer_keeps_profile,
           host_stopTimer_keeps_profile, host_markSold_keeps_profile,
           host_reopen_keeps_profile, host_setCurrentLot_keeps_profile,
           placeBid_keeps_profile, payment_confirm_keeps_profile; fail).
  - (* Connect *)
    destruct (sockets sv !! sid0) eqn:E; [exact Hw |]. simpl.
    intros sd Hl. simpl in Hl. destruct (decide (sid0 = sid)) as [-> | Hne].
    + rewrite lookup_insert_eq in Hl. injection Hl as <-. reflexivity.
    + rewrite lookup_insert_ne in Hl by exact Hne. apply (Hw sd Hl).
  - (* Disconnect *)
    destruct (sockets sv !! sid0) eqn:E; [| exact Hw]. simpl.
    intros sd Hl. simpl in Hl. destruct (decide (sid0 = sid)) as [-> | Hne].
    + rewrite lookup_delete_eq in Hl. discriminate.
    + rewrite lookup_delete_ne in Hl by exact Hne. apply (Hw sd Hl).
  - (* ProfileSetup *)
    simpl in Hc. unfold on.
    destruct (sockets sv !! sid0) as [sd0|] eqn:E; [| exact Hw].
    destruct (profile_setup name email cardLast4 deliveryAddress sd0 (store sv))
      as [[sd' st'] a] eqn:Ep. simpl.
    intros sd Hl. simpl in Hl. destruct (decide (sid0 = sid)) as [-> | Hne].
    + rewrite Nat.eqb_refl in Hc. simpl in Hc.
      pose proof (profile_setup_blank name email cardLast4 deliveryAddress sd0 (store sv) Hc) as Hb.
      rewrite Ep in Hb. simpl in Hb. injection Hb as -> ->.
      rewrite lookup_insert_eq in Hl. injection Hl as <-. apply (Hw sd0 E).
    + rewrite lookup_insert_ne in Hl by exact Hne. apply (Hw sd Hl).
  - (* Tick *) exact Hw.
Qed.

Lemma run_without_profile tr sv sid :
  without_profile sv sid ->
  Forall (fun nc => completes_profile sid (snd nc) = false) tr ->
  without_profile (run tr sv) sid.
Proof.
  revert sv. induction tr as [|[now c] tr IH]; intros sv Hw Hf; simpl; [exact Hw |].
  inversion Hf as [|? ? Hc Hf']; subst. apply IH; [| exact Hf'].
  apply step_without_profile; [exact Hw | exact Hc].
Qed.

Lemma event_join_without_profile eventId name password sd st :
  Socket.paymentProfile sd = None ->
  event_join eventId name password sd st = (sd, st, Err E_ProfileFirst).
Proof.
  intros H. unfold event_join. rewrite H.
  rewrite bool_decide_eq_false_2 by (intros [? [=]]). reflexivity.
Qed.

(** A request without a name is a request under the display name of the
    connection. *)
Lemma event_join_blank_name eventId name password sd st d :
  Str.trim (Str.payload_or name "") = ""%string ->
  Socket.displayName sd = Some d -> Str.trim d = d ->
  event_join eventId name password sd st = event_join eventId (Some d) password sd st.
Proof.
  intros Hb Hd Ht.
  assert (Hr : Str.trim (Str.payload_or (Some d) "") = d).
  { simpl. destruct (Str.truthy d) eqn:E; [exact Ht |].
    destruct d; [reflexivity | discriminate]. }
  unfold event_join. rewrite Hb, Hr. cbn [Str.truthy].
  destruct (Str.truthy d); rewrite Hd; reflexivity.
Qed.

(** C10. A connection that is new, or has no payment profile, stays without
    one through every run in which it completes no [profile:setup] (one
    whose name and email are not blank); every [event:join] it sends at the
    end of such a run fails with the error that asks for the profile,
    whatever the event, the name and the password, and neither the store nor
    any connection changes. And in every reachable state a request whose
    name is blank is handled as the request under the display name of the
    connection, which is then checked like a requested name; until the
    connection is bound to an event that name is the name of its profile. *)
Theorem C10_join_needs_profile :
  (forall tr sv sid now eventId name password,
      without_profile sv sid ->
      Forall (fun nc => completes_profile sid (snd nc) = false) tr ->
      without_profile (run tr sv) sid
      /\ forall sd, sockets (run tr sv) !! sid = Some sd ->
           event_join eventId name password sd (store (run tr sv))
           = (sd, store (run tr sv), Err E_ProfileFirst)
           /\ step now (Join sid eventId name password) (run tr sv)
              = (run tr sv, Some (Err E_ProfileFirst)))
  /\ (forall token sid, without_profile (init token) sid)
  /\ Socket.paymentProfile Socket.fresh = None
  /\ (forall token sv sid sd eventId name password d,
        reachable token sv -> sockets sv !! sid = Some sd ->
        Str.trim (Str.payload_or name "") = ""%string ->
        Socket.displayName sd = Some d ->
        event_join eventId name password sd (store sv)
        = event_join eventId (Some d) password sd (store sv)
        /\ (Socket.nameLocked sd = false ->
            forall p, Socket.paymentProfile sd = Some p -> d = Profile.name p)).
Proof.
  split; [| split; [| split; [reflexivity |]]].
  - intros tr sv sid now eventId name password Hw Hf.
    pose proof (run_without_profile tr sv sid Hw Hf) as Hr.
    split; [exact Hr |]. intros sd Hl.
    pose proof (event_join_without_profile eventId name password sd
                  (store (run tr sv)) (Hr sd Hl)) as Hj.
    split; [exact Hj |]. simpl. unfold on. rewrite Hl, Hj.
    rewrite (insert_id _ _ _ Hl). destruct (run tr sv); reflexivity.
  - intros token sid sd Hl. simpl in Hl. rewrite lookup_empty in Hl. discriminate.
  - intros token sv sid sd eventId name password d Hr Hs Hb Hd.
    destruct (reachable_named token sv Hr sid sd Hs) as [Hn Hu].
    destruct (Hn d Hd) as (Ht & _ & _). split.
    + apply event_join_blank_name with (d := d); assumption.
    + intros Hlock p Hp. pose proof (Hu Hlock p Hp) as H. congruence.
Qed.

(** The host of the scenario never sent a profile: its join fails. Alice,
    bound as Alice, joins again without a name and is taken as Alice. *)
Lemma C10_join_needs_profile_witness :
  step t0 (Join 1 1 (Some "Carol"%string) None) (run gala (init "1234"))
  = (run gala (init "1234"), Some (Err E_ProfileFirst))
  /\ event_join 1 (Some "   "%string) None alice (store (run gala (init "1234")))
     = event_join 1 (Some "Alice"%string) None alice (store (run gala (init "1234"))).
Proof.
  split.
  - refine (proj2 (proj2 (proj1 C10_join_needs_profile gala (init "1234") 1%nat t0 1%Z
                            (Some "Carol"%string) None _ _) the_host _)).
    + intros sd Hl. simpl in Hl. rewrite lookup_empty in Hl. discriminate.
    + repeat constructor.
    + vm_compute. reflexivity.
  - refine (proj1 (proj2 (proj2 (proj2 C10_join_needs_profile)) "1234"%string
                     (run gala (init "1234")) 2%nat alice 1%Z (Some "   "%string) None
                     "Alice"%string _ _ _ _)).
    + apply reachable_run, reachable_init.
    + vm_compute. reflexivity.
    + reflexivity.
    + reflexivity.
Defined.

(** * More of the server *)

(** ** Lists updated in place *)

Lemma replace_first_split {A} (p : A -> bool) (x y : A) (l : list A) :
  List.find p l = Some y ->
  exists l1 l2, l = l1 ++ y :: l2 /\ replace_first p x l = l1 ++ x :: l2.
Proof.
  induction l as [|z l IH]; simpl; [discriminate |].
  destruct (p z) eqn:Hz.
  - intros [= ->]. exists [], l. auto.
  - intros H. destruct (IH H) as (l1 & l2 & -> & Hr).
    exists (z :: l1), l2. simpl. rewrite Hr. auto.
Qed.

Lemma map_replace_first {A B} (f : A -> B) (p : A -> bool) (x y : A) (l : list A) :
  List.find p l = Some y -> f x = f y ->
  List.map f (replace_first p x l) = List.map f l.
Proof.
  intros H Hf. destruct (replace_first_split p x y l H) as (l1 & l2 & -> & ->).
  rewrite !map_app. simpl. rewrite Hf. reflexivity.
Qed.

Lemma find_In_list {A} (p : A -> bool) (y : A) (l : list A) :
  List.find p l = Some y -> In y l.
Proof. intros H. apply find_some in H. tauto. Qed.

Lemma Forall_replace_first {A} (P : A -> Prop) (p : A -> bool) (x : A) (l : list A) :
  Forall P l -> P x -> Forall P (replace_first p x l).
Proof.
  intros Hl Hx. induction Hl as [|z l Hz Hl IH]; simpl; [constructor |].
  destruct (p z); constructor; auto.
Qed.

Lemma find_is_Some_replace_first {A} (p q : A -> bool) (x y : A) (l : list A) :
  List.find p l = Some y -> q x = q y ->
  is_Some (List.find q l) -> is_Some (List.find q (replace_first p x l)).
Proof.
  intros H Hq. destruct (replace_first_split p x y l H) as (l1 & l2 & -> & ->).
  rewrite !find_app_cases. simpl. rewrite Hq.
  destruct (List.find q l1); [eauto |]. destruct (q y); eauto.
Qed.

Lemma events_put_event ev' st :
  events (put_event ev' st)
  = replace_first (fun e => Z.eqb (Event.id e) (Event.id ev')) ev' (events st).
Proof. reflexivity. Qed.

(** ** Every command grows the store *)

Lemma item_update_same_lot now ev item item' :
  item_update now ev item item' -> same_lot item item'.
Proof.
  destruct 1; unfold same_lot, sold_item, reopened_item, bid_item; simpl;
    repeat match goal with |- context [if ?c then _ else _] => destruct c end;
    simpl; repeat split.
Qed.

Lemma sweep_item_same_lot now item : same_lot item (sweep_item now item).
Proof.
  unfold sweep_item, same_lot.
  repeat match goal with |- context [if ?c then _ else _] => destruct c end;
    simpl; repeat split.
Qed.

Lemma same_lot_sold now item : same_lot item (sold_item now item).
Proof. apply (item_update_same_lot now (gala_event Number.zero vase)). constructor. Qed.

Lemma same_lot_reopened now item : same_lot item (reopened_item now item).
Proof. apply (item_update_same_lot now (gala_event Number.zero vase)). constructor. Qed.

Lemma same_lot_bid now amount name item : same_lot item (bid_item now amount name item).
Proof. unfold same_lot, bid_item. destruct (negb _); simpl; repeat split. Qed.

Ltac grows h :=
  intros sd st; unfold h; split_cases; simpl; try apply grows_none; norm_hyps;
  try (eapply grows_item;
       [ eassumption | eassumption
       | first [ apply same_lot_sold | apply same_lot_reopened | apply same_lot_bid
               | repeat split ] ]).

Lemma auth_grows role password sd st :
  store_grows st (snd (fst (auth role password sd st))).
Proof. revert sd st. grows auth. Qed.

Lemma profile_setup_grows name email cardLast4 deliveryAddress sd st :
  store_grows st (snd (fst (profile_setup name email cardLast4 deliveryAddress sd st))).
Proof. revert sd st. grows profile_setup. Qed.

Lemma host_createEvent_grows name location isProtected password sd st :
  store_grows st (snd (fst (host_createEvent name location isProtected password sd st))).
Proof.
  unfold host_createEvent. split_cases; simpl; try apply grows_none; apply grows_event.
Qed.

Lemma leave_previous_grows sd ev st : store_grows st (leave_previous sd ev st).
Proof.
  unfold leave_previous. split_cases; try apply grows_none.
  eapply grows_config; [eassumption | repeat split | reflexivity | left | left];
    reflexivity.
Qed.

Lemma event_join_grows eventId name password sd st :
  store_grows st (snd (fst (event_join eventId name password sd st))).
Proof.
  unfold event_join. split_cases; simpl; try apply grows_none.
  all: eapply grows_trans; [apply leave_previous_grows |].
  all: eapply grows_config;
    [ apply getEvent_leave_previous; eassumption | repeat split | reflexivity
    | left; reflexivity | left; reflexivity ].
Qed.

Lemma disconnect_grows sd st : store_grows st (disconnect sd st).
Proof.
  unfold disconnect. split_cases; try apply grows_none.
  eapply grows_config; [eassumption | repeat split | reflexivity | left | left];
    reflexivity.
Qed.

Lemma host_setMinIncrement_grows eventId value sd st :
  store_grows st (snd (fst (host_setMinIncrement eventId value sd st))).
Proof.
  unfold host_setMinIncrement. split_cases; simpl; try apply grows_none. norm_hyps.
  eapply grows_config; [eassumption | repeat split | reflexivity | right | left].
  - split; assumption.
  - reflexivity.
Qed.

Lemma host_createItem_grows eventId title description openingBid imageUrl sd st :
  store_grows st
    (snd (fst (host_createItem eventId title description openingBid imageUrl sd st))).
Proof.
  unfold host_createItem. split_cases; simpl; try apply grows_none;
    (eapply grows_new_item; [eassumption | reflexivity]).
Qed.

Lemma host_startTimer_grows now eventId itemId durationSeconds sd st :
  store_grows st (snd (fst (host_startTimer now eventId itemId durationSeconds sd st))).
Proof. revert sd st. grows host_startTimer. Qed.

Lemma host_stopTimer_grows eventId itemId sd st :
  store_grows st (snd (fst (host_stopTimer eventId itemId sd st))).
Proof. revert sd st. grows host_stopTimer. Qed.

Lemma host_markSold_grows now eventId itemId sd st :
  store_grows st (snd (fst (host_markSold now eventId itemId sd st))).
Proof. revert sd st. grows host_markSold. Qed.

Lemma host_reopen_grows now eventId itemId sd st :
  store_grows st (snd (fst (host_reopen now eventId itemId sd st))).
Proof. revert sd st. grows host_reopen. Qed.

Lemma host_setCurrentLot_grows eventId itemId sd st :
  store_grows st (snd (fst (host_setCurrentLot eventId itemId sd st))).
Proof.
  unfold host_setCurrentLot.
  destruct (negb (role_is Host sd)); [apply grows_none |].
  destruct (getEvent st eventId) as [ev|] eqn:He; [| apply grows_none].
  destruct (itemId =? 0)%Z eqn:Ez.
  - simpl. eapply grows_config; [eassumption | repeat split | reflexivity | left | right];
      [reflexivity | discriminate].
  - destruct (bool_decide (is_Some (getItem (Some ev) itemId))) eqn:Eb; simpl;
      [| apply grows_none].
    apply bool_decide_eq_true_1 in Eb.
    eapply grows_config; [eassumption | repeat split | reflexivity | left | right];
      [reflexivity |]. intros i [= <-]. exact Eb.
Qed.

Lemma placeBid_grows now eventId itemId amount name sd st :
  store_grows st (snd (fst (placeBid now eventId itemId amount name sd st))).
Proof. revert sd st. grows placeBid. Qed.

Lemma payment_confirm_grows now eventId itemId sd st :
  store_grows st (snd (fst (payment_confirm now eventId itemId sd st))).
Proof. revert sd st. grows payment_confirm. Qed.

Lemma on_grows sid h sv :
  (forall sd st, store_grows st (snd (fst (h sd st)))) ->
  store_grows (store sv) (store (fst (on sid h sv))).
Proof.
  intros Hh. unfold on. destruct (sockets sv !! sid) as [sd|]; [| apply grows_none].
  pose proof (Hh sd (store sv)) as H.
  destruct (h sd (store sv)) as [[sd' st'] a]. exact H.
Qed.

(** Whatever the command, the store grows. *)
Lemma step_grows now c sv : store_grows (store sv) (store (fst (step now c sv))).
Proof.
  destruct c; simpl;
    try (apply on_grows; intros;
         auto using auth_grows, profile_setup_grows, host_createEvent_grows,
           event_join_grows, host_setMinIncrement_grows, host_createItem_grows,
           host_startTimer_grows, host_stopTimer_grows, host_markSold_grows,
           host_reopen_grows, host_setCurrentLot_grows, placeBid_grows,
           payment_confirm_grows; fail).
  - destruct (sockets sv !! sid); apply grows_none.
  - destruct (sockets sv !! sid); [apply disconnect_grows | apply grows_none].
  - apply grows_sweep.
Qed.

Lemma run_grows tr sv : store_grows (store sv) (store (run tr sv)).
Proof.
  revert sv. induction tr as [|[now c] tr IH]; intros sv; simpl; [apply grows_none |].
  eapply grows_trans; [apply step_grows | apply IH].
Qed.

(** ** What growing keeps *)

Lemma grows_token st st' : store_grows st st' -> ADMIN_TOKEN st' = ADMIN_TOKEN st.
Proof. induction 1; simpl; try reflexivity. congruence. Qed.

Lemma getEvent_In st e ev : getEvent st e = Some ev -> In ev (events st).
Proof. apply find_In_list. Qed.

Lemma event_ids_put_event st e ev ev' :
  getEvent st e = Some ev -> Event.id ev' = e ->
  List.map Event.id (events (put_event ev' st)) = List.map Event.id (events st).
Proof.
  intros He Hid. rewrite events_put_event, Hid.
  apply (map_replace_first _ _ _ ev); [exact He |].
  rewrite Hid. symmetry. apply (getEvent_id _ _ _ He).
Qed.

Lemma item_ids_put_event st e ev ev' :
  getEvent st e = Some ev -> Event.id ev' = e ->
  List.map Item.id (Event.items ev') = List.map Item.id (Event.items ev) ->
  item_ids (put_event ev' st) = item_ids st.
Proof.
  intros He Hid Hit. unfold item_ids. rewrite events_put_event, Hid.
  f_equal. apply (map_replace_first _ _ _ ev); [exact He | exact Hit].
Qed.

Lemma Forall_put_event (P : Event.t -> Prop) st ev' :
  Forall P (events st) -> P ev' -> Forall P (events (put_event ev' st)).
Proof. intros H Hp. rewrite events_put_event. apply Forall_replace_first; assumption. Qed.

Lemma item_ids_replaced ev i item item' :
  getItem (Some ev) i = Some item -> Item.id item' = Item.id item ->
  List.map Item.id
    (replace_first (fun x => Z.eqb (Item.id x) (Item.id item')) item' (Event.items ev))
  = List.map Item.id (Event.items ev).
Proof.
  intros Hi Hid. pose proof (getItem_id _ _ _ Hi) as Hi'.
  apply (map_replace_first _ _ _ item); [| exact Hid].
  rewrite Hid, Hi'. exact Hi.
Qed.

Lemma valid_lot_replaced ev i item item' lot :
  getItem (Some ev) i = Some item -> Item.id item' = Item.id item ->
  valid_lot ev lot ->
  valid_lot
    (Event.with_items
       (replace_first (fun x => Z.eqb (Item.id x) (Item.id item')) item' (Event.items ev))
       ev) lot.
Proof.
  intros Hi Hid Hv j Hj. specialize (Hv j Hj). simpl in *.
  pose proof (getItem_id _ _ _ Hi) as Hi'.
  apply (find_is_Some_replace_first _ _ _ item); [| | exact Hv].
  - rewrite Hid, Hi'. exact Hi.
  - rewrite Hid. reflexivity.
Qed.

Lemma valid_lot_appended ev item lot :
  valid_lot ev lot -> valid_lot (Event.with_items (Event.items ev ++ [item]) ev) lot.
Proof.
  intros Hv j Hj. specialize (Hv j Hj). simpl in *. rewrite find_app_cases.
  destruct (List.find _ (Event.items ev)); [eauto | destruct Hv; discriminate].
Qed.

Lemma item_ids_sweep now st : item_ids (sweep now st) = item_ids st.
Proof.
  unfold item_ids, sweep. simpl. rewrite map_map. f_equal.
  apply map_ext. intros ev. simpl. rewrite map_map.
  apply map_ext. intros item. apply sweep_item_id.
Qed.

Lemma event_ok_sweep now ev : event_ok ev -> event_ok (sweep_event now ev).
Proof.
  intros [Hi Hl]. split; [exact Hi |]. intros j Hj. specialize (Hl j Hj). simpl in *.
  rewrite (find_map_preserved _ (sweep_item now)).
  - destruct Hl as [x ->]. simpl. eauto.
  - intros x. rewrite sweep_item_id. reflexivity.
Qed.

Lemma item_ids_new_item st e ev item :
  getEvent st e = Some ev ->
  Permutation
    (item_ids (put_event (Event.with_items (Event.items ev ++ [item]) ev) st))
    (Item.id item :: item_ids st).
Proof.
  intros He. unfold item_ids. rewrite events_put_event. simpl.
  pose proof (getEvent_id _ _ _ He) as Hid. unfold getEvent in He. rewrite <- Hid in He.
  destruct (replace_first_split _ (Event.with_items (Event.items ev ++ [item]) ev) ev _ He)
    as (l1 & l2 & Hl & ->).
  rewrite Hl. rewrite !map_app, !concat_app. simpl. rewrite map_app. simpl.
  rewrite <- !app_assoc. simpl. apply Permutation_sym.
  rewrite (app_assoc (concat _) (List.map Item.id (Event.items ev)) (Item.id item :: _)).
  apply Permutation_cons_app. rewrite <- app_assoc. reflexivity.
Qed.

(** Growing keeps the store well formed. *)
Lemma grows_well_formed st st' : store_grows st st' -> well_formed st -> well_formed st'.
Proof.
  induction 1 as [st | st e i ev item item' He Hi Hs | st e ev ev' He Hs Hit Hinc Hlot
                 | st name location isProtected password | st e ev item He Hid
                 | st now | st st1 st2 _ IH1 _ IH2]; auto.
  - (* an item *)
    intros (H1 & H2 & Hids & Hnd & Hb & Hok).
    destruct Hs as (Hid & _).
    set (ev' := Event.with_items
                  (replace_first (fun x => Z.eqb (Item.id x) (Item.id item')) item'
                     (Event.items ev)) ev).
    assert (Hid' : Event.id ev' = e) by apply (getEvent_id _ _ _ He).
    pose proof (item_ids_put_event st e ev ev' He Hid'
                  (item_ids_replaced ev i item item' Hi Hid)) as Hii.
    change (well_formed (put_event ev' st)).
    split; [exact H1 |]. split; [simpl; lia |]. split; [| split; [| split]].
    + rewrite (event_ids_put_event st e ev ev' He Hid'). exact Hids.
    + rewrite Hii. exact Hnd.
    + rewrite Hii. exact Hb.
    + apply Forall_put_event; [exact Hok |].
      rewrite List.Forall_forall in Hok.
      destruct (Hok ev (getEvent_In _ _ _ He)) as [Hv Hl].
      split; [exact Hv |]. apply (valid_lot_replaced ev i item item'); assumption.
  - (* the settings of an event *)
    intros (H1 & H2 & Hids & Hnd & Hb & Hok).
    destruct Hs as (Hid & _).
    assert (Hid' : Event.id ev' = e) by (rewrite Hid; apply (getEvent_id _ _ _ He)).
    pose proof (item_ids_put_event st e ev ev' He Hid' (f_equal _ Hit)) as Hii.
    split; [exact H1 |]. split; [simpl; lia |]. split; [| split; [| split]].
    + rewrite (event_ids_put_event st e ev ev' He Hid'). exact Hids.
    + rewrite Hii. exact Hnd.
    + rewrite Hii. exact Hb.
    + apply Forall_put_event; [exact Hok |].
      rewrite List.Forall_forall in Hok.
      destruct (Hok ev (getEvent_In _ _ _ He)) as [Hv Hl].
      assert (Hg : forall j, getItem (Some ev') j = getItem (Some ev) j)
        by (intros j; simpl; rewrite Hit; reflexivity).
      split.
      * destruct Hinc as [-> | Hinc]; assumption.
      * intros j Hj. rewrite Hg. destruct Hlot as [Hl' | Hl'].
        -- rewrite Hl' in Hj. exact (Hl j Hj).
        -- exact (Hl' j Hj).
  - (* a new event *)
    intros (H1 & H2 & Hids & Hnd & Hb & Hok). repeat split; simpl.
    + lia.
    + lia.
    + rewrite map_app, Hids. simpl.
      replace (nextEventId st + 1 - 1)%Z with ((nextEventId st - 1) + 1)%Z by lia.
      rewrite seqZ_app by lia. f_equal.
      rewrite seqZ_cons by lia. rewrite seqZ_nil by lia. f_equal. lia.
    + unfold item_ids. simpl. rewrite map_app, concat_app. simpl.
      rewrite app_nil_r. exact Hnd.
    + unfold item_ids. simpl. rewrite map_app, concat_app. simpl.
      rewrite app_nil_r. exact Hb.
    + apply Forall_app. split; [exact Hok |]. constructor; [| constructor].
      split; [split; reflexivity | discriminate].
  - (* a new item *)
    intros (H1 & H2 & Hids & Hnd & Hb & Hok).
    set (ev' := Event.with_items (Event.items ev ++ [item]) ev).
    pose proof (item_ids_new_item st e ev item He) as Hp. fold ev' in Hp.
    assert (Hfresh : ~ In (Item.id item) (item_ids st)).
    { intros Hin. rewrite List.Forall_forall in Hb. specialize (Hb _ Hin). lia. }
    split; [exact H1 |]. split; [simpl; lia |]. split; [| split; [| split]].
    + change (List.map Event.id (events (put_event ev' st))
              = seqZ 1 (nextEventId st - 1)).
      rewrite (event_ids_put_event st e ev ev' He (getEvent_id _ _ _ He)). exact Hids.
    + change (NoDup (item_ids (put_event ev' st))).
      rewrite Hp. apply NoDup_cons. split; [| exact Hnd].
      rewrite list_elem_of_In. exact Hfresh.
    + change (Forall (fun i => 1 <= i < nextItemId st + 1)%Z
                (item_ids (put_event ev' st))).
      eapply Permutation_Forall; [apply Permutation_sym, Hp |].
      constructor; [lia |]. eapply List.Forall_impl; [| exact Hb]. simpl. intros; lia.
    + change (Forall event_ok (events (put_event ev' st))).
      apply Forall_put_event; [exact Hok |].
      rewrite List.Forall_forall in Hok.
      destruct (Hok ev (getEvent_In _ _ _ He)) as [Hv Hl].
      split; [exact Hv |]. apply valid_lot_appended. exact Hl.
  - (* the sweep *)
    intros (H1 & H2 & Hids & Hnd & Hb & Hok). repeat split; simpl.
    + exact H1.
    + exact H2.
    + rewrite map_map. simpl. exact Hids.
    + change (NoDup (item_ids (sweep now st))). rewrite item_ids_sweep. exact Hnd.
    + change (Forall (fun i => 1 <= i < nextItemId st)%Z (item_ids (sweep now st))).
      rewrite item_ids_sweep. exact Hb.
    + apply List.Forall_map. eapply List.Forall_impl; [| exact Hok].
      intros ev. apply event_ok_sweep.
Qed.

(** Every reachable store is well formed. *)
Lemma reachable_well_formed token sv : reachable token sv -> well_formed (store sv).
Proof.
  induction 1 as [| now c sv Hr IH].
  - repeat split; simpl; try constructor; lia.
  - exact (grows_well_formed _ _ (step_grows now c sv) IH).
Qed.

(** ** Who may act as host *)



Lemma on_role sid sid' h sv sd' :
  (forall sd st, Socket.role (fst (fst (h sd st))) = Socket.role sd) ->
  sockets (fst (on sid' h sv)) !! sid = Some sd' ->
  exists sd0, sockets sv !! sid = Some sd0 /\ Socket.role sd0 = Socket.role sd'.
Proof.
  intros Hh. unfold on. destruct (sockets sv !! sid') as [sd0|] eqn:E; [| eauto].
  pose proof (Hh sd0 (store sv)) as H.
  destruct (h sd0 (store sv)) as [[sd1 st1] a]. simpl in *.
  destruct (decide (sid' = sid)) as [-> | Hne].
  - rewrite lookup_insert_eq. intros [= <-]. eauto.
  - rewrite lookup_insert_ne by exact Hne. eauto.
Qed.

Ltac keeps_role h := intros; unfold h; split_cases; reflexivity.

(** A command that makes a connection host is an [auth] with the token. *)
Lemma step_host now c sv sid sd' :
  sockets (fst (step now c sv)) !! sid = Some sd' -> Socket.role sd' = Host ->
  (exists sd0, sockets sv !! sid = Some sd0 /\ Socket.role sd0 = Host)
  \/ host_login (ADMIN_TOKEN (store sv)) sid c = true.
Proof.
  intros Hl Hr.
  destruct c; simpl in Hl;
    try (left; rewrite <- Hr; revert Hl; apply on_role;
         first [ keeps_role profile_setup | keeps_role host_createEvent
               | keeps_role event_join | keeps_role host_setMinIncrement
               | keeps_role host_createItem | keeps_role host_startTimer
               | keeps_role host_stopTimer | keeps_role host_markSold
               | keeps_role host_reopen | keeps_role host_setCurrentLot
               | keeps_role placeBid | keeps_role payment_confirm ]; fail).
  - (* Connect *)
    destruct (sockets sv !! sid0) eqn:E; [eauto |]. simpl in Hl.
    destruct (decide (sid0 = sid)) as [-> | Hne].
    + rewrite lookup_insert_eq in Hl. injection Hl as <-. discriminate.
    + rewrite lookup_insert_ne in Hl by exact Hne. eauto.
  - (* Disconnect *)
    destruct (sockets sv !! sid0) eqn:E; [| eauto]. simpl in Hl.
    destruct (decide (sid0 = sid)) as [-> | Hne].
    + rewrite lookup_delete_eq in Hl. discriminate.
    + rewrite lookup_delete_ne in Hl by exact Hne. eauto.
  - (* Auth *)
    unfold on in Hl. destruct (sockets sv !! sid0) as [sd0|] eqn:E; [| eauto].
    destruct (decide (sid0 = sid)) as [-> | Hne].
    + simpl. rewrite Nat.eqb_refl. simpl. unfold auth, isSiteAdmin in Hl.
      destruct (Str.toLowerCase (Str.payload_or role "") =? "host")%string eqn:Eh.
      * destruct (Str.truthy (ADMIN_TOKEN (store sv))); simpl in Hl.
        -- destruct (Str.of_payload password =? ADMIN_TOKEN (store sv))%string;
             [right; reflexivity |].
           simpl in Hl. rewrite lookup_insert_eq in Hl. injection Hl as <-. eauto.
        -- rewrite lookup_insert_eq in Hl. injection Hl as <-. eauto.
      * destruct (Str.toLowerCase (Str.payload_or role "") =? "bidder")%string;
          simpl in Hl; rewrite lookup_insert_eq in Hl; injection Hl as <-; discriminate.
    + left. destruct (auth role password sd0 (store sv)) as [[sd1 st1] a]. simpl in Hl.
      rewrite lookup_insert_ne in Hl by exact Hne. eauto.
  - (* Tick *) eauto.
Qed.

Lemma run_host tr sv sid sd :
  sockets (run tr sv) !! sid = Some sd -> Socket.role sd = Host ->
  (exists sd0, sockets sv !! sid = Some sd0 /\ Socket.role sd0 = Host)
  \/ Exists (fun nc => host_login (ADMIN_TOKEN (store sv)) sid (snd nc) = true) tr.
Proof.
  revert sv. induction tr as [|[now c] tr IH]; intros sv Hl Hr; simpl in Hl; [eauto |].
  destruct (IH _ Hl Hr) as [(sd1 & Hl1 & Hr1) | Hex].
  - destruct (step_host now c sv sid sd1 Hl1 Hr1) as [H | H]; [left; exact H |].
    right. constructor. exact H.
  - right. apply Exists_cons_tl.
    rewrite (grows_token _ _ (step_grows now c sv)) in Hex. exact Hex.
Qed.

(** X2. From the start of the server on, a connection has the role host only if
    it has sent an [auth] for that role with the admin token as password;
    and no command changes the token. *)
Theorem host_only_by_token token tr sid sd :
  sockets (run tr (init token)) !! sid = Some sd -> Socket.role sd = Host ->
  Exists (fun nc => host_login token sid (snd nc) = true) tr
  /\ ADMIN_TOKEN (store (run tr (init token))) = token.
Proof.
  intros Hl Hr. split.
  - destruct (run_host tr (init token) sid sd Hl Hr) as [(sd0 & H0 & _) | H]; [| exact H].
    simpl in H0. rewrite lookup_empty in H0. discriminate.
  - apply (grows_token _ _ (run_grows tr (init token))).
Qed.

Lemma host_only_by_token_witness :
  Exists (fun nc => host_login "1234" 1 (snd nc) = true) gala.
Proof.
  refine (proj1 (host_only_by_token "1234" gala 1%nat the_host _ _)).
  - vm_compute. reflexivity.
  - reflexivity.
Defined.

(** ** Identifiers *)

(** X3. The counters number the events 1, 2, .. in the order of creation, and
    give every item of the server its own identifier below [nextItemId]. *)
Theorem reachable_identifiers token sv :
  reachable token sv ->
  List.map Event.id (events (store sv)) = seqZ 1 (nextEventId (store sv) - 1)
  /\ NoDup (item_ids (store sv))
  /\ Forall (fun i => 1 <= i < nextItemId (store sv))%Z (item_ids (store sv)).
Proof.
  intros Hr. destruct (reachable_well_formed token sv Hr) as (_ & _ & H1 & H2 & H3 & _).
  auto.
Qed.

Lemma reachable_identifiers_witness :
  List.map Event.id (events (store (run two_equal_bids (init "1234"))))
  = seqZ 1 (nextEventId (store (run two_equal_bids (init "1234"))) - 1)
  /\ NoDup (item_ids (store (run two_equal_bids (init "1234")))).
Proof.
  destruct (reachable_identifiers "1234" (run two_equal_bids (init "1234"))
              (reachable_run "1234" two_equal_bids _ (reachable_init "1234")))
    as (H1 & H2 & _).
  split; assumption.
Defined.

Lemma find_unique {A} (f : A -> Z) (x : A) (l : list A) :
  NoDup (List.map f l) -> In x l ->
  List.find (fun y => Z.eqb (f y) (f x)) l = Some x.
Proof.
  induction l as [|z l IH]; simpl; [tauto |].
  intros Hnd Hin. apply NoDup_cons in Hnd as [Hz Hnd].
  destruct (f z =? f x)%Z eqn:E.
  - apply Z.eqb_eq in E. destruct Hin as [-> | Hin]; [reflexivity |].
    exfalso. apply Hz. rewrite E. apply list_elem_of_In, in_map, Hin.
  - destruct Hin as [-> | Hin]; [rewrite Z.eqb_refl in E; discriminate |]. auto.
Qed.

Lemma NoDup_concat_In {A} (ls : list (list A)) (l : list A) :
  In l ls -> NoDup (concat ls) -> NoDup l.
Proof.
  induction ls as [|k ls IH]; simpl; [tauto |].
  intros [-> | Hin] Hnd; apply NoDup_app in Hnd as (H1 & _ & H2); auto.
Qed.

(** X4. In every reachable state every item that an event holds is the one that
    [getItem] returns for its identifier, and every event the one that
    [getEvent] returns for its own. *)
Theorem stored_items_are_found token sv ev item :
  reachable token sv ->
  In ev (events (store sv)) -> In item (Event.items ev) ->
  getEvent (store sv) (Event.id ev) = Some ev
  /\ lookup_item (store sv) (Event.id ev) (Item.id item) = Some item.
Proof.
  intros Hr Hev Hit.
  destruct (reachable_well_formed token sv Hr) as (_ & _ & Hids & Hnd & _).
  assert (He : getEvent (store sv) (Event.id ev) = Some ev).
  { apply find_unique; [| exact Hev]. rewrite Hids. apply NoDup_seqZ. }
  split; [exact He |]. unfold lookup_item. rewrite He. simpl.
  apply find_unique; [| exact Hit].
  apply (NoDup_concat_In _ _ (in_map (fun ev => List.map Item.id (Event.items ev)) _ _ Hev) Hnd).
Qed.

Lemma stored_items_are_found_witness :
  lookup_item (store (run gala (init "1234"))) 1 1 = Some vase.
Proof.
  refine (proj2 (stored_items_are_found "1234" (run gala (init "1234"))
                   (gala_event Number.zero vase) vase _ _ _)).
  - apply reachable_run, reachable_init.
  - rewrite gala_reached. simpl. left. reflexivity.
  - simpl. left. reflexivity.
Defined.

(** ** Settings of an event *)

(** X5. In every reachable state the minimum increment of every event is a
    finite number that is not negative. *)
Theorem reachable_increment_valid token sv e ev :
  reachable token sv -> getEvent (store sv) e = Some ev ->
  Number.isFinite (Event.minIncrement ev) = true
  /\ Number.lt (Event.minIncrement ev) Number.zero = false.
Proof.
  intros Hr He. destruct (reachable_well_formed token sv Hr) as (_ & _ & _ & _ & _ & Hok).
  rewrite List.Forall_forall in Hok. destruct (Hok ev (getEvent_In _ _ _ He)) as [H _].
  exact H.
Qed.

Lemma reachable_increment_valid_witness :
  Number.isFinite (Number.of_Z 50) = true
  /\ Number.lt (Number.of_Z 50) Number.zero = false.
Proof.
  refine (reachable_increment_valid "1234" (run gala_increment_50 (init "1234")) 1
            (gala_event (Number.of_Z 50) vase) _ _).
  - apply reachable_run, reachable_init.
  - vm_compute. reflexivity.
Defined.

(** X6. In every reachable state the current lot of an event, when it is set,
    is the identifier of an item of that event. *)
Theorem reachable_current_lot token sv e ev i :
  reachable token sv -> getEvent (store sv) e = Some ev ->
  Event.currentLotId ev = Some i ->
  is_Some (lookup_item (store sv) e i).
Proof.
  intros Hr He Hl. destruct (reachable_well_formed token sv Hr) as (_ & _ & _ & _ & _ & Hok).
  rewrite List.Forall_forall in Hok. destruct (Hok ev (getEvent_In _ _ _ He)) as [_ H].
  unfold lookup_item. rewrite He. exact (H i Hl).
Qed.

Lemma reachable_current_lot_witness :
  is_Some (lookup_item (store (run gala_current_lot (init "1234"))) 1 1).
Proof.
  refine (reachable_current_lot "1234" (run gala_current_lot (init "1234")) 1
            (Event.with_currentLotId (Some 1%Z) (gala_event Number.zero vase)) 1 _ _ _).
  - apply reachable_run, reachable_init.
  - vm_compute. reflexivity.
  - reflexivity.
Defined.

(** ** What never changes *)

Lemma same_lot_refl item : same_lot item item.
Proof. repeat split. Qed.

Lemma same_lot_trans a b c : same_lot a b -> same_lot b c -> same_lot a c.
Proof. unfold same_lot. intuition congruence. Qed.

Lemma same_event_refl ev : same_event ev ev.
Proof. repeat split. Qed.

Lemma same_event_trans a b c : same_event a b -> same_event b c -> same_event a c.
Proof. unfold same_event. intuition congruence. Qed.

Lemma grows_permanent st st' :
  store_grows st st' ->
  forall e ev, getEvent st e = Some ev ->
  exists ev', getEvent st' e = Some ev' /\ same_event ev ev'
    /\ forall i item, getItem (Some ev) i = Some item ->
         exists item', getItem (Some ev') i = Some item' /\ same_lot item item'.
Proof.
  induction 1 as [st | st e0 i0 ev0 item0 item0' He0 Hi0 Hs | st e0 ev0 ev0' He0 Hs Hit _ _
                 | st name location isProtected password | st e0 ev0 item0 He0 Hid
                 | st now | st st1 st2 _ IH1 _ IH2]; intros e ev He.
  - exists ev. split; [exact He |]. split; [apply same_event_refl |].
    intros i item Hi. exists item. split; [exact Hi | apply same_lot_refl].
  - destruct (decide (e = e0)) as [-> | Hne].
    + rewrite He0 in He. injection He as <-. eexists. split; [| split].
      * apply (getEvent_put_event st e0 ev0); [exact He0 |].
        apply (getEvent_id _ _ _ He0).
      * repeat split.
      * intros i item Hi. simpl. destruct Hs as [Hid Hrest].
        pose proof (getItem_id _ _ _ Hi0) as Hi0'.
        destruct (decide (i = i0)) as [-> | Hni].
        -- rewrite Hi0 in Hi. injection Hi as <-. exists item0'. split.
           ++ rewrite Hid, Hi0'. apply (find_replace_first _ _ item0); [exact Hi0 |].
              apply Z.eqb_eq. congruence.
           ++ split; assumption.
        -- exists item. split; [| apply same_lot_refl].
           rewrite find_replace_first_other; [exact Hi | |].
           ++ intros y Hy. apply Z.eqb_eq in Hy. apply Z.eqb_neq. congruence.
           ++ apply Z.eqb_neq. congruence.
    + exists ev. split; [| split; [apply same_event_refl |]].
      * unfold put_item. rewrite getEvent_put_event_other; [exact He |]. simpl.
        rewrite (getEvent_id _ _ _ He0). congruence.
      * intros i item Hi. exists item. split; [exact Hi | apply same_lot_refl].
  - destruct (decide (e = e0)) as [-> | Hne].
    + rewrite He0 in He. injection He as <-. exists ev0'. split; [| split].
      * apply (getEvent_put_event st e0 ev0); [exact He0 |].
        destruct Hs as [Hid _]. rewrite Hid. apply (getEvent_id _ _ _ He0).
      * exact Hs.
      * intros i item Hi. exists item. split; [| apply same_lot_refl].
        simpl in *. rewrite Hit. exact Hi.
    + exists ev. split; [| split; [apply same_event_refl |]].
      * rewrite getEvent_put_event_other; [exact He |].
        destruct Hs as [Hid _]. rewrite Hid, (getEvent_id _ _ _ He0). congruence.
      * intros i item Hi. exists item. split; [exact Hi | apply same_lot_refl].
  - exists ev. split; [| split; [apply same_event_refl |]].
    + unfold getEvent in *. simpl. rewrite find_app_cases, He. reflexivity.
    + intros i item Hi. exists item. split; [exact Hi | apply same_lot_refl].
  - destruct (decide (e = e0)) as [-> | Hne].
    + rewrite He0 in He. injection He as <-. eexists. split; [| split].
      * apply (getEvent_put_event _ e0 ev0); [exact He0 |].
        apply (getEvent_id _ _ _ He0).
      * repeat split.
      * intros i item Hi. exists item. split; [| apply same_lot_refl].
        simpl in *. rewrite find_app_cases, Hi. reflexivity.
    + exists ev. split; [| split; [apply same_event_refl |]].
      * rewrite getEvent_put_event_other; [exact He |]. simpl.
        rewrite (getEvent_id _ _ _ He0). congruence.
      * intros i item Hi. exists item. split; [exact Hi | apply same_lot_refl].
  - exists (sweep_event now ev). split; [| split].
    + unfold getEvent, sweep in *. simpl.
      rewrite (find_map_preserved _ (sweep_event now)) by reflexivity.
      rewrite He. reflexivity.
    + repeat split.
    + intros i item Hi. exists (sweep_item now item). split; [| apply sweep_item_same_lot].
      simpl in *. rewrite (find_map_preserved _ (sweep_item now)).
      * rewrite Hi. reflexivity.
      * intros x. rewrite sweep_item_id. reflexivity.
  - destruct (IH1 e ev He) as (ev1 & He1 & Hs1 & Hi1).
    destruct (IH2 e ev1 He1) as (ev2 & He2 & Hs2 & Hi2).
    exists ev2. split; [exact He2 |]. split; [eapply same_event_trans; eassumption |].
    intros i item Hi. destruct (Hi1 i item Hi) as (item1 & Hg1 & Hl1).
    destruct (Hi2 i item1 Hg1) as (item2 & Hg2 & Hl2).
    exists item2. split; [exact Hg2 | eapply same_lot_trans; eassumption].
Qed.

(** X7. Nothing is ever deleted or renamed: through every run an event stays
    under its identifier with its name, location, protection flag and
    password, and each of its items stays under its identifier with its
    title, description, opening bid and image. *)
Theorem events_and_items_are_permanent tr sv e ev :
  getEvent (store sv) e = Some ev ->
  exists ev', getEvent (store (run tr sv)) e = Some ev' /\ same_event ev ev'
    /\ forall i item, getItem (Some ev) i = Some item ->
         exists item', lookup_item (store (run tr sv)) e i = Some item'
                       /\ same_lot item item'.
Proof.
  intros He.
  destruct (grows_permanent _ _ (run_grows tr sv) e ev He) as (ev' & He' & Hs & Hi).
  exists ev'. split; [exact He' |]. split; [exact Hs |].
  intros i item Hg. unfold lookup_item. rewrite He'. exact (Hi i item Hg).
Qed.

Lemma events_and_items_are_permanent_witness :
  exists ev', getEvent (store (run (bob_joins ++ [(later 1000, PlaceBid 3 1 1 (num 500) None)])
                                 (run gala (init "1234")))) 1 = Some ev'
              /\ same_event (gala_event Number.zero vase) ev'.
Proof.
  destruct (events_and_items_are_permanent
              (bob_joins ++ [(later 1000, PlaceBid 3 1 1 (num 500) None)])
              (run gala (init "1234")) 1 (gala_event Number.zero vase))
    as (ev' & He & Hs & _).
  - vm_compute. reflexivity.
  - exists ev'. split; assumption.
Defined.

(** ** The ledger *)

(** X8. Through every run the ledger of an item only grows at its end: the
    entries it had are still there, in their places. *)
Theorem ledger_only_grows tr sv e i item :
  lookup_item (store sv) e i = Some item ->
  exists item' more,
    lookup_item (store (run tr sv)) e i = Some item'
    /\ Item.bidHistory item' = Item.bidHistory item ++ more.
Proof. apply run_ledger_append_only. Qed.

Lemma ledger_only_grows_witness :
  exists item' more,
    lookup_item (store (run [(later 5000, PlaceBid 2 1 1 (num 170) None)]
                          (run two_equal_bids (init "1234")))) 1 1 = Some item'
    /\ Item.bidHistory item'
       = [Bid.mk "Alice" (Number.of_Z 150) (later 1000);
          Bid.mk "Bob" (Number.of_Z 150) (later 2000)] ++ more.
Proof.
  refine (ledger_only_grows [(later 5000, PlaceBid 2 1 1 (num 170) None)]
            (run two_equal_bids (init "1234")) 1 1
            (bid_item (later 2000) (Number.of_Z 150) "Bob"
               (bid_item (later 1000) (Number.of_Z 150) "Alice" vase)) _).
  vm_compute. reflexivity.
Defined.

Lemma item_update_last_bid now ev item item' :
  led_by_last_bid item -> item_update now ev item item' -> led_by_last_bid item'.
Proof.
  intros H Hu. destruct Hu; unfold led_by_last_bid in *;
    unfold sold_item, reopened_item, bid_item; simpl;
    repeat match goal with |- context [if ?c then _ else _] => destruct c end;
    simpl; try exact H; rewrite last_snoc; simpl; auto.
Qed.

(** X9. In every reachable state the current bid and the current winner of an
    item are the amount and the name of the last entry of its ledger; an
    item without bids has its opening bid as current bid and no winner. *)
Theorem reachable_led_by_last_bid token sv e i item :
  reachable token sv -> lookup_item (store sv) e i = Some item -> led_by_last_bid item.
Proof.
  intros Hr Hl.
  refine (reachable_items led_by_last_bid _ item_update_last_bid token sv Hr e i item Hl).
  intros it (id & t & d & o & img & _ & _ & ->). split; reflexivity.
Qed.

Lemma reachable_led_by_last_bid_witness :
  led_by_last_bid (bid_item (later 2000) (Number.of_Z 150) "Bob"
                     (bid_item (later 1000) (Number.of_Z 150) "Alice" vase)).
Proof.
  refine (reachable_led_by_last_bid "1234" (run two_equal_bids (init "1234")) 1 1 _ _ _).
  - apply reachable_run, reachable_init.
  - vm_compute. reflexivity.
Defined.

(** ** The payment sub-state *)

Lemma item_update_payment_idle now ev item item' :
  payment_idle item -> item_update now ev item item' -> payment_idle item'.
Proof.
  intros H Hu.
  destruct Hu as [dur Ho Hf | | | | Ho Hp | amount name Ho Hp Hf Hlt | Hs Hq Hp | Hs Hq Hp];
    unfold payment_idle in *; simpl; try exact H.
  - unfold sold_item. simpl. destruct (Str.truthy_opt _); simpl; congruence.
  - intros _. repeat split.
  - intros _. apply H. congruence.
  - intros _. destruct H as (E1 & E2 & E3); [congruence |].
    unfold bid_item. simpl. rewrite E1. simpl. auto.
  - intros Hn. congruence.
  - intros Hn. congruence.
Qed.

(** X10. In every reachable state an item that is open or closed has the payment
    sub-state none, no payment deadline and no recorded payment winner. So
    the branch of [placeBid] that clears the payment fields is never taken:
    an accepted bid on such an item only sets the current bid and winner
    and appends the ledger entry. *)
Theorem payment_only_when_sold token sv e i item :
  reachable token sv -> lookup_item (store sv) e i = Some item ->
  Item.status item <> Sold ->
  (Item.paymentStatus item = PayNone /\ Item.paymentDueAt item = None
   /\ Item.paymentWinnerName item = None)
  /\ forall now amount name,
       bid_item now amount name item
       = Item.with_bid amount name (Bid.mk name amount now) item.
Proof.
  intros Hr Hl Hs.
  assert (H : payment_idle item).
  { refine (reachable_items payment_idle _ item_update_payment_idle token sv Hr e i item Hl).
    intros it (id & t & d & o & img & _ & _ & ->) _. repeat split. }
  destruct (H Hs) as (H1 & H2 & H3). split; [auto |].
  intros now amount name. unfold bid_item. simpl. rewrite H1. reflexivity.
Qed.

Lemma payment_only_when_sold_witness :
  Item.paymentStatus (closed_item (bid_item (later 1000) (Number.of_Z 150) "Alice"
                        (Item.with_endTime (Some (later 30000)) vase))) = PayNone.
Proof.
  refine (proj1 (proj1 (payment_only_when_sold "1234"
                          (run (removelast closed_then_sold) (init "1234")) 1 1 _ _ _ _))).
  - apply reachable_run, reachable_init.
  - vm_compute. reflexivity.
  - simpl. congruence.
Defined.

Lemma item_update_winner_recorded now ev item item' :
  winner_recorded item -> item_update now ev item item' -> winner_recorded item'.
Proof.
  intros H Hu.
  destruct Hu as [dur Ho Hf | | | | Ho Hp | amount name Ho Hp Hf Hlt | Hs Hq Hp | Hs Hq Hp];
    unfold winner_recorded in *; simpl; try exact H.
  - unfold sold_item. simpl.
    destruct (Str.truthy_opt (Item.currentWinner item)) eqn:Hw; simpl.
    + intros w Hc. auto.
    + intros w Hc. destruct (H w Hc) as [_ H2]. auto.
  - discriminate.
  - intros w Hc. destruct (H w Hc). congruence.
  - intros w Hc. unfold bid_item in Hc. simpl in Hc.
    destruct (negb _); simpl in Hc; [discriminate |]. destruct (H w Hc). congruence.
Qed.

(** X11. In every reachable state the recorded payment winner of an item, when
    set, is the current winner of the item, and the item is sold. *)
Theorem reachable_winner_recorded token sv e i item w :
  reachable token sv -> lookup_item (store sv) e i = Some item ->
  Item.paymentWinnerName item = Some w ->
  Item.status item = Sold /\ Item.currentWinner item = Some w.
Proof.
  intros Hr Hl.
  refine (reachable_items winner_recorded _ item_update_winner_recorded token sv Hr e i item Hl w).
  intros it (id & t & d & o & img & _ & _ & ->) w'. discriminate.
Qed.

Lemma reachable_winner_recorded_witness :
  Item.status vase_sold = Sold /\ Item.currentWinner vase_sold = Some "Alice"%string.
Proof.
  refine (reachable_winner_recorded "1234" (run alice_wins (init "1234")) 1 1 vase_sold
            "Alice" _ _ _).
  - apply reachable_run, reachable_init.
  - vm_compute. reflexivity.
  - reflexivity.
Defined.

(** ** The sweep *)

Lemma sweep_item_fixed now item :
  (Item.status item = Open -> Item.endTime_passed now item = false) ->
  (Item.status item = Sold -> Item.paymentStatus item = Pending ->
   Item.paymentDue_passed now item = false) ->
  sweep_item now item = item.
Proof.
  intros H1 H2. unfold sweep_item.
  destruct (bool_decide (Item.status item = Open)) eqn:Ho.
  - apply bool_decide_eq_true_1 in Ho. rewrite (H1 Ho). simpl.
    rewrite Ho. reflexivity.
  - simpl. destruct (bool_decide (Item.status item = Sold)) eqn:Hs; simpl; [| reflexivity].
    destruct (bool_decide (Item.paymentStatus item = Pending)) eqn:Hq; simpl; [| reflexivity].
    apply bool_decide_eq_true_1 in Hs, Hq. rewrite (H2 Hs Hq). reflexivity.
Qed.

Lemma sweep_item_idem now item :
  sweep_item now (sweep_item now item) = sweep_item now item.
Proof.
  apply sweep_item_fixed; unfold sweep_item.
  - destruct (bool_decide (Item.status item = Open)) eqn:Ho.
    + apply bool_decide_eq_true_1 in Ho.
      destruct (Item.endTime_passed now item) eqn:Hp; simpl.
      * discriminate.
      * rewrite Ho. simpl. intros _. exact Hp.
    + apply bool_decide_eq_false_1 in Ho. simpl.
      destruct (_ && _ && _); simpl; intros Hc; contradiction.
  - destruct (bool_decide (Item.status item = Open)) eqn:Ho.
    + apply bool_decide_eq_true_1 in Ho.
      destruct (Item.endTime_passed now item) eqn:Hp; simpl.
      * discriminate.
      * rewrite Ho. simpl. congruence.
    + simpl.
      destruct (bool_decide (Item.status item = Sold)) eqn:Hs; simpl;
        [| apply bool_decide_eq_false_1 in Hs; intros Hc; contradiction].
      destruct (bool_decide (Item.paymentStatus item = Pending)) eqn:Hq; simpl;
        [| apply bool_decide_eq_false_1 in Hq; intros _ Hc; contradiction].
      destruct (Item.paymentDue_passed now item) eqn:Hp; simpl.
      * discriminate.
      * intros _ _. exact Hp.
Qed.

Lemma sweep_item_same_bids now item : same_bids item (sweep_item now item).
Proof.
  unfold sweep_item, same_bids.
  repeat match goal with |- context [if ?c then _ else _] => destruct c end;
    simpl; repeat split.
Qed.

(** X12. A second tick at the same clock reading changes nothing, and a tick
    never changes a bid: every item keeps its current bid, its current
    winner and its ledger. *)
Theorem sweep_is_idempotent now st :
  sweep now (sweep now st) = sweep now st
  /\ forall e i item, lookup_item st e i = Some item ->
       exists item', lookup_item (sweep now st) e i = Some item'
                     /\ same_bids item item' /\ same_lot item item'.
Proof.
  split.
  - unfold sweep, with_events. simpl. f_equal. rewrite map_map.
    apply map_ext. intros ev. unfold sweep_event, Event.with_items. simpl.
    f_equal. rewrite map_map. apply map_ext. intros item. apply sweep_item_idem.
  - intros e i item Hl. rewrite lookup_sweep, Hl. simpl. eexists. split; [reflexivity |].
    split; [apply sweep_item_same_bids | apply sweep_item_same_lot].
Qed.

Lemma sweep_is_idempotent_witness :
  exists item', lookup_item (sweep (later 500000) (gala_store Number.zero vase_sold)) 1 1
                = Some item' /\ same_bids vase_sold item'.
Proof.
  destruct (proj2 (sweep_is_idempotent (later 500000) (gala_store Number.zero vase_sold))
              1%Z 1%Z vase_sold eq_refl) as (item' & H1 & H2 & _).
  exists item'. split; assumption.
Defined.

Lemma lookup_item_inv st e i item :
  lookup_item st e i = Some item ->
  exists ev, getEvent st e = Some ev /\ getItem (Some ev) i = Some item.
Proof.
  unfold lookup_item. destruct (getEvent st e) as [ev|]; [eauto | discriminate].
Qed.

Lemma getEvent_sweep now st e :
  getEvent (sweep now st) e = sweep_event now <$> getEvent st e.
Proof.
  unfold getEvent, sweep. simpl. apply find_map_preserved. reflexivity.
Qed.

(** X13. A tick after the payment deadline of a sold item with a pending payment
    makes the payment expired and leaves the rest of the item as it is.
    From then on nobody can confirm: every [payment:confirm] fails with
    "No pending payment" and changes nothing. *)
Theorem sweep_expires_payment now st e i item :
  lookup_item st e i = Some item ->
  Item.status item = Sold -> Item.paymentStatus item = Pending ->
  Item.paymentDue_passed now item = true ->
  lookup_item (sweep now st) e i = Some (Item.with_paymentStatus Expired item)
  /\ forall now' sd,
       payment_confirm now' e i sd (sweep now st)
       = (sd, sweep now st, Err E_NoPendingPayment).
Proof.
  intros Hl Hs Hq Hp.
  assert (Hsw : sweep_item now item = Item.with_paymentStatus Expired item).
  { unfold sweep_item. rewrite Hs. simpl. rewrite ?Hs, ?Hq, ?Hp. reflexivity. }
  assert (Hl' : lookup_item (sweep now st) e i = Some (Item.with_paymentStatus Expired item)).
  { rewrite lookup_sweep, Hl. simpl. rewrite Hsw. reflexivity. }
  split; [exact Hl' |]. intros now' sd.
  destruct (lookup_item_inv _ _ _ _ Hl') as (ev' & He' & Hi').
  unfold payment_confirm. rewrite He', Hi'. simpl. rewrite Hs. reflexivity.
Qed.

Lemma sweep_expires_payment_witness :
  lookup_item (sweep (later 500000) (gala_store Number.zero vase_sold)) 1 1
  = Some (Item.with_paymentStatus Expired vase_sold)
  /\ payment_confirm (later 600000) 1 1 alice
       (sweep (later 500000) (gala_store Number.zero vase_sold))
     = (alice, sweep (later 500000) (gala_store Number.zero vase_sold),
        Err E_NoPendingPayment).
Proof.
  destruct (sweep_expires_payment (later 500000) (gala_store Number.zero vase_sold) 1 1
              vase_sold eq_refl eq_refl eq_refl eq_refl) as [H1 H2].
  split; [exact H1 | apply H2].
Defined.

(** X14. A sold item whose payment is not pending (never started, confirmed or
    expired) is out of reach of the bidders and of the clock: every
    [payment:confirm] fails with "No pending payment", every bid is
    refused, and neither these nor a tick change anything. *)
Theorem settled_payment_is_final st e i ev item :
  getEvent st e = Some ev -> getItem (Some ev) i = Some item ->
  Item.status item = Sold -> Item.paymentStatus item <> Pending ->
  (forall now sd, payment_confirm now e i sd st = (sd, st, Err E_NoPendingPayment))
  /\ (forall now, lookup_item (sweep now st) e i = Some item)
  /\ forall now amount name sd,
       (placeBid now e i amount name sd st).1.2 = st
       /\ snd (placeBid now e i amount name sd st) <> Ok.
Proof.
  intros He Hi Hs Hq. split; [| split].
  - intros now sd. unfold payment_confirm. rewrite He, Hi. simpl. rewrite Hs. simpl.
    rewrite (bool_decide_eq_false_2 _ Hq). reflexivity.
  - intros now. rewrite lookup_sweep. unfold lookup_item. rewrite He, Hi. simpl.
    f_equal. apply sweep_item_fixed; [congruence | intros _ H; contradiction].
  - intros now amount name sd. unfold placeBid. rewrite He, Hi. cbv zeta.
    rewrite Hs. simpl.
    repeat match goal with
      | |- context [if ?c then _ else _] => destruct c
      end; simpl; split; congruence.
Qed.

Lemma settled_payment_is_final_witness :
  lookup_item (sweep (later 500000) (gala_store Number.zero (confirmed_item vase_sold))) 1 1
  = Some (confirmed_item vase_sold).
Proof.
  refine (proj1 (proj2 (settled_payment_is_final
                          (gala_store Number.zero (confirmed_item vase_sold)) 1 1
                          (gala_event Number.zero (confirmed_item vase_sold))
                          (confirmed_item vase_sold) _ _ _ _)) (later 500000)).
  - reflexivity.
  - reflexivity.
  - reflexivity.
  - simpl. congruence.
Defined.

(** ** Timers, sale and reopening *)

(** X15. After the host stops the timer of an open item no tick closes it,
    however late: the item has no end time and stays as it is under the
    sweep at every clock reading. *)
Theorem stopTimer_cancels_expiry e i sd st ev item :
  Socket.role sd = Host -> getEvent st e = Some ev -> getItem (Some ev) i = Some item ->
  Item.status item = Open ->
  snd (host_stopTimer e i sd st) = Ok
  /\ forall now,
       lookup_item (sweep now (host_stopTimer e i sd st).1.2) e i
       = Some (Item.with_endTime None item).
Proof.
  intros Hr He Hi Ho. unfold host_stopTimer, role_is. rewrite Hr, He, Hi. simpl.
  split; [reflexivity |]. intros now.
  rewrite lookup_sweep.
  rewrite (lookup_put_item st e i ev item) by (auto; apply (getItem_id _ _ _ Hi)).
  simpl. f_equal. apply sweep_item_fixed; simpl.
  - reflexivity.
  - congruence.
Qed.

Lemma stopTimer_cancels_expiry_witness :
  lookup_item
    (sweep (later 60000)
       (host_stopTimer 1 1 the_host
          (gala_store Number.zero (Item.with_endTime (Some (later 30000)) vase))).1.2) 1 1
  = Some (Item.with_endTime None (Item.with_endTime (Some (later 30000)) vase)).
Proof.
  refine (proj2 (stopTimer_cancels_expiry 1 1 the_host
                   (gala_store Number.zero (Item.with_endTime (Some (later 30000)) vase))
                   (gala_event Number.zero (Item.with_endTime (Some (later 30000)) vase))
                   (Item.with_endTime (Some (later 30000)) vase) _ _ _ _) (later 60000));
    reflexivity.
Defined.

Lemma reopened_item_id now item : Item.id (reopened_item now item) = Item.id item.
Proof.
  unfold reopened_item. simpl. destruct (Item.endTime_passed _ _); reflexivity.
Qed.

(** X16. Reopening a lot that was marked sold undoes the sale whatever the lot
    was before: the lot is open with no timer and no payment (sub-state
    none, no deadline, no recorded winner), while the bids stay: current
    bid, current winner and ledger are those from before the sale. *)
Theorem reopen_undoes_sale now1 now2 e i sd st ev item :
  Socket.role sd = Host -> getEvent st e = Some ev -> getItem (Some ev) i = Some item ->
  exists item',
    lookup_item (host_reopen now2 e i sd (host_markSold now1 e i sd st).1.2).1.2 e i
    = Some item'
    /\ Item.status item' = Open /\ Item.endTime item' = None
    /\ Item.paymentStatus item' = PayNone /\ Item.paymentDueAt item' = None
    /\ Item.paymentWinnerName item' = None
    /\ same_bids item item' /\ same_lot item item'.
Proof.
  intros Hr He Hi.
  pose proof (getItem_id _ _ _ Hi) as Hid.
  assert (H1 : (host_markSold now1 e i sd st).1.2 = put_item ev (sold_item now1 item) st).
  { unfold host_markSold, role_is. rewrite Hr, He, Hi. reflexivity. }
  rewrite H1.
  assert (Hl1 : lookup_item (put_item ev (sold_item now1 item) st) e i
                = Some (sold_item now1 item)).
  { apply (lookup_put_item st e i ev item); auto. rewrite sold_item_id. exact Hid. }
  destruct (lookup_item_inv _ _ _ _ Hl1) as (ev1 & He1 & Hi1).
  exists (reopened_item now2 (sold_item now1 item)). split.
  - unfold host_reopen, role_is. rewrite Hr, He1, Hi1. simpl.
    apply (lookup_put_item _ e i ev1 (sold_item now1 item)); auto.
    rewrite reopened_item_id, sold_item_id. exact Hid.
  - unfold reopened_item, sold_item, same_bids, same_lot. simpl.
    destruct (Str.truthy_opt (Item.currentWinner item)); simpl; repeat split.
Qed.

Lemma reopen_undoes_sale_witness :
  exists item',
    lookup_item
      (host_reopen (later 9000) 1 1 the_host
         (host_markSold (later 5000) 1 1 the_host
            (gala_store Number.zero
               (bid_item (later 1000) (Number.of_Z 150) "Alice" vase))).1.2).1.2 1 1
    = Some item'
    /\ Item.status item' = Open /\ Item.paymentStatus item' = PayNone
    /\ Item.currentWinner item' = Some "Alice"%string.
Proof.
  destruct (reopen_undoes_sale (later 5000) (later 9000) 1 1 the_host
              (gala_store Number.zero (bid_item (later 1000) (Number.of_Z 150) "Alice" vase))
              (gala_event Number.zero (bid_item (later 1000) (Number.of_Z 150) "Alice" vase))
              (bid_item (later 1000) (Number.of_Z 150) "Alice" vase)
              eq_refl eq_refl eq_refl)
    as (item' & H1 & H2 & _ & H3 & _ & _ & (_ & H4 & _) & _).
  exists item'. repeat split; assumption.
Defined.

(** ** What a bid touches *)

(** X17. [placeBid] never changes the data of the connection, never changes an
    item other than the one it names, and a refused bid changes nothing at
    all, except the refusal for a passed deadline, which closes the item. *)
Theorem placeBid_touches_one_item now e0 i0 amount name sd st :
  (placeBid now e0 i0 amount name sd st).1.1 = sd
  /\ (forall e i, (e, i) <> (e0, i0) ->
        lookup_item (placeBid now e0 i0 amount name sd st).1.2 e i = lookup_item st e i)
  /\ (forall err, snd (placeBid now e0 i0 amount name sd st) = Err err ->
        err <> E_TimeUp -> (placeBid now e0 i0 amount name sd st).1.2 = st).
Proof.
  unfold placeBid.
  destruct (getEvent st e0) as [ev|] eqn:He; cbv zeta;
    [destruct (getItem (Some ev) i0) as [item|] eqn:Hi |];
    repeat match goal with
      | |- context [if ?c then _ else _] => destruct c
      end; simpl; repeat split; try congruence;
    intros e i Hne; apply (lookup_put_item_other st e0 i0 ev item); auto;
    unfold closed_item, bid_item; simpl;
    try (destruct (negb _); simpl); apply (getItem_id _ _ _ Hi).
Qed.

(** ** Joining an event *)

Lemma event_join_accepts b name password sd st ev :
  is_Some (Socket.paymentProfile sd) -> Socket.role sd = Bidder ->
  getEvent st b = Some ev ->
  (Event.isProtected ev = false \/ Str.payload_or password "" = Event.password ev) ->
  Str.truthy (Str.trim (Str.payload_or name "")) = true ->
  joined sd ev = false ->
  Str.trim (Str.payload_or name "") ∉ Event.participants ev ->
  event_join b name password sd st
  = (Socket.mk Bidder (Some b) true (Some (Str.trim (Str.payload_or name "")))
       (Socket.paymentProfile sd),
     put_event
       (Event.with_participants
          ({[Str.trim (Str.payload_or name "")]} ∪ Event.participants ev) ev)
       (leave_previous sd ev st),
     Ok).
Proof.
  intros Hp Hr He Hpw Hn Hj Hfree.
  pose proof (getEvent_id _ _ _ He) as Hid.
  assert (Hpass : Event.isProtected ev
                  && negb (String.eqb (Str.payload_or password "") (Event.password ev))
                  = false).
  { destruct Hpw as [-> | ->]; [reflexivity |].
    rewrite String.eqb_refl. apply andb_false_r. }
  unfold event_join, role_is.
  rewrite (bool_decide_eq_true_2 _ Hp), Hr, He, Hpass. simpl.
  rewrite Hn. simpl. rewrite ?Hn, Hj. simpl.
  rewrite andb_false_r, orb_true_r. simpl.
  rewrite (bool_decide_eq_false_2 _ Hfree). simpl. rewrite Hid. reflexivity.
Qed.



(** X19. A name that a bound connection holds in an event is refused to every
    other connection ("Name already taken"); once the holder disconnects,
    the same join is accepted and the name is registered again. *)
Theorem name_free_after_disconnect e name password holder sd st ev d :
  Socket.eventId holder = Some e -> Socket.displayName holder = Some d ->
  Str.truthy d = true -> getEvent st e = Some ev -> d ∈ Event.participants ev ->
  is_Some (Socket.paymentProfile sd) -> Socket.role sd = Bidder ->
  joined sd ev = false ->
  (Event.isProtected ev = false \/ Str.payload_or password "" = Event.password ev) ->
  Str.trim (Str.payload_or name "") = d ->
  event_join e name password sd st = (sd, st, Err E_NameTaken)
  /\ snd (event_join e name password sd (disconnect holder st)) = Ok
  /\ exists ev', getEvent (event_join e name password sd (disconnect holder st)).1.2 e
                 = Some ev'
                 /\ d ∈ Event.participants ev'.
Proof.
  intros Hhe Hhd Ht He Hin Hp Hr Hj Hpw Hn.
  pose proof (getEvent_id _ _ _ He) as Hid.
  assert (Hpass : Event.isProtected ev
                  && negb (String.eqb (Str.payload_or password "") (Event.password ev))
                  = false).
  { destruct Hpw as [-> | ->]; [reflexivity |].
    rewrite String.eqb_refl. apply andb_false_r. }
  split.
  - unfold event_join, role_is.
    rewrite (bool_decide_eq_true_2 _ Hp), Hr, He, Hpass. simpl.
    rewrite Hn, Ht. simpl. rewrite Ht, Hj. simpl.
    rewrite andb_false_r, orb_true_r. simpl.
    rewrite (bool_decide_eq_true_2 _ Hin). reflexivity.
  - set (ev1 := Event.with_participants (Event.participants ev ∖ {[d]}) ev).
    assert (Hd : disconnect holder st = put_event ev1 st).
    { unfold disconnect. rewrite Hhe. simpl. rewrite He, Hhd, Ht. reflexivity. }
    assert (He1 : getEvent (disconnect holder st) e = Some ev1).
    { rewrite Hd. apply (getEvent_put_event st e ev); [exact He | exact Hid]. }
    assert (Hfree : Str.trim (Str.payload_or name "") ∉ Event.participants ev1).
    { rewrite Hn. simpl. intros Hc. apply elem_of_difference in Hc as [_ Hc].
      apply Hc, elem_of_singleton. reflexivity. }
    rewrite (event_join_accepts e name password sd (disconnect holder st) ev1);
      [| assumption | assumption | exact He1 | exact Hpw | rewrite Hn; exact Ht
       | exact Hj | exact Hfree].
    simpl. split; [reflexivity |]. eexists. split.
    + apply (getEvent_put_event _ e ev1); [| exact Hid].
      apply getEvent_leave_previous. exact He1.
    + simpl. rewrite Hn. apply elem_of_union_l, elem_of_singleton. reflexivity.
Qed.

Lemma name_free_after_disconnect_witness :
  event_join 1 (Some "Alice"%string) None
    (Socket.mk Bidder None false (Some "Alice"%string)
       (Some (Profile.mk "Alice" "other@example.org" "" "")))
    (gala_store Number.zero vase)
  = (Socket.mk Bidder None false (Some "Alice"%string)
       (Some (Profile.mk "Alice" "other@example.org" "" "")),
     gala_store Number.zero vase, Err E_NameTaken).
Proof.
  refine (proj1 (name_free_after_disconnect 1 (Some "Alice"%string) None alice
                   (Socket.mk Bidder None false (Some "Alice"%string)
                      (Some (Profile.mk "Alice" "other@example.org" "" "")))
                   (gala_store Number.zero vase) (gala_event Number.zero vase) "Alice"
                   _ _ _ _ _ _ _ _ _ _)).
  - reflexivity.
  - reflexivity.
  - reflexivity.
  - reflexivity.
  - vm_compute. set_solver.
  - eexists. reflexivity.
  - reflexivity.
  - reflexivity.
  - left. reflexivity.
  - reflexivity.
Defined.

(** ** Creating events and items *)







(** ** The payment profile *)

Lemma substring_length_le n m s : (String.length (String.substring n m s) <= m)%nat.
Proof.
  revert n m. induction s as [|c s IH]; intros [|n] [|m]; simpl; try lia.
  - specialize (IH 0%nat m). lia.
  - apply IH.
  - apply IH.
Qed.





(** ** The first server *)

Lemma compare_Eq_l (a b c : number) :
  SFcompare a b = Some Eq -> SFcompare a c = SFcompare b c.
Proof.
  destruct a as [sa|sa| |sa ma ea], b as [sb|sb| |sb mb eb]; simpl;
    try discriminate; try reflexivity;
    try (destruct sa; discriminate); try (destruct sb; discriminate);
    try (destruct sa, sb; (discriminate || reflexivity)).
  intros H.
  assert (sa = sb /\ ea = eb /\ ma = mb) as (-> & -> & ->); [| reflexivity].
  destruct sa, sb; try discriminate;
    destruct (Z.compare_spec ea eb); try discriminate; subst;
    injection H as H.
  - destruct (Pos.compare_cont Eq ma mb) eqn:E; try discriminate.
    apply Pos.compare_eq in E. auto.
  - apply Pos.compare_eq in H. auto.
Qed.

Lemma lt_trans (a b c : number) :
  Number.lt a b = true -> Number.lt b c = true -> Number.lt a c = true.
Proof.
  unfold Number.lt, SFltb.
  destruct a as [sa|sa| |sa ma ea], b as [sb|sb| |sb mb eb], c as [sc|sc| |sc mc ec];
    simpl; try discriminate; try (intros _ _; reflexivity);
    try (destruct sa; simpl; try discriminate; try (intros _ _; reflexivity);
         destruct sb; simpl; try discriminate; try (intros _ _; reflexivity);
         destruct sc; simpl; try discriminate; try (intros _ _; reflexivity); fail);
    try (destruct sa; simpl; try discriminate; try (intros _ _; reflexivity);
         destruct sb; simpl; try discriminate; try (intros _ _; reflexivity); fail);
    try (destruct sa; simpl; try discriminate; try (intros _ _; reflexivity);
         destruct sc; simpl; try discriminate; try (intros _ _; reflexivity); fail);
    try (destruct sb; simpl; try discriminate; try (intros _ _; reflexivity);
         destruct sc; simpl; try discriminate; try (intros _ _; reflexivity); fail);
    try (destruct sa; simpl; try discriminate; try (intros _ _; reflexivity); fail);
    try (destruct sb; simpl; try discriminate; try (intros _ _; reflexivity); fail);
    try (destruct sc; simpl; try discriminate; try (intros _ _; reflexivity); fail).
  destruct sa, sb, sc; simpl; try discriminate; try (intros _ _; reflexivity).
  all: rewrite ?Pos.compare_cont_spec; simpl;
    fold (Pos.compare ma mb) (Pos.compare mb mc) (Pos.compare ma mc).
  all: destruct (Z.compare_spec ea eb), (Z.compare_spec eb ec), (Z.compare_spec ea ec);
    simpl; try discriminate; try reflexivity; try lia; subst.
  all: destruct (Pos.compare_spec ma mb), (Pos.compare_spec mb mc),
         (Pos.compare_spec ma mc); simpl; try discriminate; try reflexivity; lia.
Qed.

(** What is above the larger of two numbers is above both. *)
Lemma above_max (o c a : number) :
  Number.isNaN o = false -> Number.isNaN c = false ->
  Number.gt a (Math.max o c) = true ->
  Number.gt a o = true /\ Number.gt a c = true.
Proof.
  intros Ho Hc. unfold Number.gt.
  assert (Hmax : Math.max o c
                 = if Number.lt o c then c
                   else if Number.lt c o then o
                   else match o with S754_zero true => c | _ => o end).
  { destruct o, c; try discriminate; reflexivity. }
  rewrite Hmax. clear Hmax.
  destruct (Number.lt o c) eqn:E1.
  - intros H. split; [exact (lt_trans _ _ _ E1 H) | exact H].
  - destruct (Number.lt c o) eqn:E2.
    + intros H. split; [exact H | exact (lt_trans _ _ _ E2 H)].
    + assert (Heq : SFcompare o c = Some Eq).
      { unfold Number.lt, SFltb in E1, E2. rewrite (compare_antisym c o) in E2.
        destruct (SFcompare o c) as [[]|] eqn:E; simpl in *; try discriminate;
          [reflexivity |].
        destruct o, c; simpl in *; discriminate. }
      assert (Hlt : Number.lt o a = Number.lt c a).
      { unfold Number.lt, SFltb. rewrite (compare_Eq_l _ _ a Heq). reflexivity. }
      unfold Number.lt in Hlt.
      destruct o as [[]| | |]; cbv beta iota; intros H; split; congruence.
Qed.

Lemma last_cons_default {A} (x : A) (l : list A) (d d' : A) :
  List.last (x :: l) d = List.last (x :: l) d'.
Proof.
  revert x. induction l as [|y l IH]; intros x; [reflexivity |].
  change (List.last (y :: l) d = List.last (y :: l) d'). apply IH.
Qed.

Lemma climbs_snoc floor l a :
  Mvp.climbs floor l -> Number.gt a (List.last l floor) = true ->
  Mvp.climbs floor (l ++ [a]).
Proof.
  revert floor. induction l as [|b l IH]; intros floor Hl Ha; simpl in *.
  - auto.
  - destruct Hl as [Hb Hl]. split; [exact Hb |]. apply IH; [exact Hl |].
    destruct l as [|x l]; [exact Ha |].
    rewrite (last_cons_default x l b floor). exact Ha.
Qed.

Lemma last_snoc_default {A} (l : list A) (a d : A) : List.last (l ++ [a]) d = a.
Proof. apply List.last_last. Qed.

Lemma bid_item_sound now amount name item :
  Mvp.sound item -> Number.isFinite amount = true ->
  Number.gt amount (Math.max (Mvp.openingBid item) (Mvp.currentBid item)) = true ->
  Mvp.sound (Mvp.bid_item now amount name item).
Proof.
  intros (Ho & Hc & Hl & Hlast) Hf Hgt. unfold Mvp.sound. simpl.
  destruct (above_max _ _ _ (finite_not_nan _ Ho) (finite_not_nan _ Hc) Hgt) as [_ Hgc].
  rewrite List.map_app. simpl. rewrite last_snoc_default.
  repeat split; auto. apply climbs_snoc; [exact Hl |]. rewrite <- Hlast. exact Hgc.
Qed.

Lemma mvp_reachable_sound st :
  Mvp.reachable st -> Forall Mvp.sound (Mvp.items st).
Proof.
  induction 1 as [| st title description openingBid Hr IH
                  | st now itemId amount name displayName Hr IH].
  - constructor.
  - unfold Mvp.createItem.
    destruct (negb (Str.truthy _)); [exact IH |].
    destruct (negb (Number.isFinite _) || Number.lt _ _) eqn:E; [exact IH |].
    apply orb_false_iff in E as [E1 E2]. apply negb_false_iff in E1.
    simpl. apply Forall_app. split; [exact IH |].
    constructor; [| constructor]. unfold Mvp.sound. simpl. auto.
  - unfold Mvp.placeBid.
    destruct (List.find _ _) as [item|] eqn:Hfind; [| exact IH].
    destruct (negb (Number.isFinite _) || Number.le _ _) eqn:E; [exact IH |].
    apply orb_false_iff in E as [E1 E2]. apply negb_false_iff in E1.
    destruct (FirstVersion.rejects _ _) eqn:Hrej; [exact IH |]. simpl.
    assert (Hs : Mvp.sound item).
    { rewrite List.Forall_forall in IH. apply IH, (find_In_list _ _ _ Hfind). }
    apply Forall_replace_first; [exact IH |].
    apply bid_item_sound; [exact Hs | exact E1 |].
    destruct Hs as (Ho & Hc & _).
    rewrite <- not_le_gt.
    + unfold FirstVersion.rejects in Hrej. rewrite Hrej. reflexivity.
    + apply finite_not_nan, E1.
    + apply finite_not_nan, max_finite; assumption.
Qed.

(** X23. In the first server the ledger of every item climbs: each accepted
    amount is strictly greater than the one before it, the first one
    strictly greater than the opening bid; and the current bid is the last
    amount of the ledger, or the opening bid while there is no bid. *)
Theorem mvp_ledger_climbs st item :
  Mvp.reachable st -> In item (Mvp.items st) ->
  Mvp.climbs (Mvp.openingBid item) (List.map Bid.amount (Mvp.bidHistory item))
  /\ Mvp.currentBid item
     = List.last (List.map Bid.amount (Mvp.bidHistory item)) (Mvp.openingBid item).
Proof.
  intros Hr Hin. pose proof (mvp_reachable_sound st Hr) as H.
  rewrite List.Forall_forall in H. destruct (H item Hin) as (_ & _ & H1 & H2). auto.
Qed.

Lemma mvp_ledger_climbs_witness :
  Mvp.climbs (Number.of_Z 100) [Number.of_Z 150].
Proof.
  refine (proj1 (mvp_ledger_climbs Mvp.one_bid
                   (Mvp.bid_item t0 (Number.of_Z 150) "Ann"
                      (Mvp.mkItem 1 "Vase" "" (Number.of_Z 100) (Number.of_Z 100) None []))
                   _ _)).
  - apply Mvp.reachable_placeBid, Mvp.reachable_createItem, Mvp.reachable_init.
  - left. vm_compute. reflexivity.
Defined.

Lemma compare_refl (x : number) : Number.isNaN x = false -> SFcompare x x = Some Eq.
Proof.
  destruct x as [s|s| |s m e]; simpl; try discriminate; intros _;
    try (destruct s; reflexivity).
  destruct s; rewrite Z.compare_refl, Pos.compare_cont_refl; reflexivity.
Qed.

(** X24. In the first server a bid on an existing item is accepted exactly when
    its amount is finite, positive and strictly greater than the larger of
    the opening bid and the current bid. So a bid equal to the current bid
    is refused and changes nothing. *)
Theorem mvp_bid_must_exceed now itemId amount name displayName st item :
  Mvp.reachable st ->
  List.find (fun i => Z.eqb (Mvp.id i) itemId) (Mvp.items st) = Some item ->
  let a := Number.of_payload amount in
  let m := Math.max (Mvp.openingBid item) (Mvp.currentBid item) in
  ((exists item', snd (Mvp.placeBid now itemId amount name displayName st)
                  = Mvp.Accepted item')
   <-> Number.isFinite a = true /\ Number.gt a Number.zero = true /\ Number.gt a m = true)
  /\ Mvp.placeBid now itemId (Some (Mvp.currentBid item)) name displayName st
     = (st, if Number.le (Mvp.currentBid item) Number.zero
            then Mvp.Refused Mvp.AmountNotPositive
            else Mvp.Refused (Mvp.BidNotGreater m)).
Proof.
  intros Hr Hfind a m.
  pose proof (mvp_reachable_sound st Hr) as Hs. rewrite List.Forall_forall in Hs.
  destruct (Hs item (find_In_list _ _ _ Hfind)) as (Ho & Hc & Hcl & Hlast).
  assert (Hm : Number.isNaN m = false) by (apply finite_not_nan, max_finite; assumption).
  split.
  - unfold Mvp.placeBid. rewrite Hfind. fold a. fold m.
    destruct (Number.isFinite a) eqn:Hf; simpl.
    + rewrite <- (not_le_gt a Number.zero), <- (not_le_gt a m)
        by first [exact Hm | reflexivity | apply finite_not_nan; assumption].
      unfold FirstVersion.rejects.
      destruct (Number.le a Number.zero); simpl.
      * split; [intros [? H]; discriminate | intros (_ & H & _); discriminate].
      * destruct (Number.le a m); simpl.
        -- split; [intros [? H]; discriminate | intros (_ & _ & H); discriminate].
        -- split; [auto | intros _; eexists; reflexivity].
    + split; [intros [? H]; discriminate | intros (H & _); discriminate].
  - unfold Mvp.placeBid. rewrite Hfind. simpl. rewrite Hc. simpl.
    destruct (Number.le (Mvp.currentBid item) Number.zero); [reflexivity |].
    fold m. unfold FirstVersion.rejects.
    assert (Hle : Number.le (Mvp.currentBid item) m = true).
    { destruct (Number.le (Mvp.currentBid item) m) eqn:E; [reflexivity |].
      assert (Hgt : Number.gt (Mvp.currentBid item) m = true).
      { rewrite <- not_le_gt by first [exact Hm | apply finite_not_nan; assumption].
        rewrite E. reflexivity. }
      destruct (above_max _ _ _ (finite_not_nan _ Ho) (finite_not_nan _ Hc) Hgt) as [_ H].
      unfold Number.gt, Number.lt, SFltb in H.
      rewrite compare_refl in H by (apply finite_not_nan; exact Hc). discriminate. }
    rewrite Hle. reflexivity.
Qed.

Lemma mvp_bid_must_exceed_witness :
  Mvp.placeBid (later 1000) 1 (num 150) (Some "Ben"%string) None Mvp.one_bid
  = (Mvp.one_bid,
     Mvp.Refused (Mvp.BidNotGreater (Math.max (Number.of_Z 100) (Number.of_Z 150)))).
Proof.
  refine (proj2 (mvp_bid_must_exceed (later 1000) 1 (num 150) (Some "Ben"%string) None
                   Mvp.one_bid
                   (Mvp.bid_item t0 (Number.of_Z 150) "Ann"
                      (Mvp.mkItem 1 "Vase" "" (Number.of_Z 100) (Number.of_Z 100) None []))
                   _ _)).
  - apply Mvp.reachable_placeBid, Mvp.reachable_createItem, Mvp.reachable_init.
  - vm_compute. reflexivity.
Defined.

(** ** The server with one auction *)

Lemma slice_short s : Str.truthy s = true -> Single.short_name (Str.slice_to 40 s).
Proof.
  intros H. split; [| apply substring_length_le].
  destruct s; [discriminate | reflexivity].
Qed.

Lemma payload_or_truthy v d :
  Str.truthy d = true -> Str.truthy (Str.payload_or v d) = true.
Proof.
  intros H. destruct v as [s|]; simpl; [| exact H].
  destruct (Str.truthy s) eqn:E; [exact E | exact H].
Qed.

Lemma single_bidder_name_short c name :
  Single.conn_ok c -> Single.short_name (Single.bidder_name c name).
Proof.
  intros Hc. unfold Single.bidder_name.
  destruct (Single.displayName c) as [d|] eqn:E.
  - destruct (Str.truthy d); [exact (Hc d E) |].
    apply slice_short, payload_or_truthy. reflexivity.
  - apply slice_short, payload_or_truthy. reflexivity.
Qed.

Lemma single_reopened_ok now item :
  Single.item_ok item -> Single.item_ok (Single.reopened_item now item).
Proof.
  intros H. unfold Single.reopened_item. destruct (Single.endTime_passed _ _); exact H.
Qed.

Lemma single_sweep_item_ok now item :
  Single.item_ok item -> Single.item_ok (Single.sweep_item now item).
Proof. intros H. unfold Single.sweep_item. destruct (_ && _); exact H. Qed.

Lemma single_sweep_item_id now item :
  Single.id (Single.sweep_item now item) = Single.id item.
Proof. unfold Single.sweep_item. destruct (_ && _); reflexivity. Qed.

Lemma single_bid_item_ok now amount name item :
  Single.item_ok item -> Single.short_name name ->
  Single.item_ok (Single.bid_item now amount name item).
Proof.
  intros (Ho & Hn & _) Hs. unfold Single.item_ok. simpl.
  split; [exact Ho |]. split.
  - apply Forall_app. split; [exact Hn |]. constructor; [exact Hs | constructor].
  - rewrite last_snoc. simpl. auto.
Qed.

Lemma single_getItem_id st i item : Single.getItem st i = Some item -> Single.id item = i.
Proof. intros H. apply find_holds in H. lia. Qed.

Lemma single_put_item_ok st i item item' :
  Single.state_ok st -> Single.getItem st i = Some item ->
  Single.id item' = Single.id item -> Single.item_ok item' ->
  Single.state_ok (Single.put_item item' st).
Proof.
  intros (Ht & Hids & Hn & Hall & Hlot) Hi Hid Hok.
  pose proof (single_getItem_id _ _ _ Hi) as Hii.
  assert (Hf : List.find (fun x => Z.eqb (Single.id x) (Single.id item')) (Single.items st)
               = Some item).
  { rewrite Hid, Hii. exact Hi. }
  unfold Single.state_ok, Single.put_item. simpl.
  split; [exact Ht |]. split; [| split; [exact Hn |]; split].
  - rewrite (map_replace_first Single.id _ item' item _ Hf Hid). exact Hids.
  - apply Forall_replace_first; assumption.
  - intros j Hj. unfold Single.getItem. simpl.
    apply (find_is_Some_replace_first _ _ item' item); [exact Hf | rewrite Hid; reflexivity |].
    apply Hlot, Hj.
Qed.

Lemma single_sweep_ok now st : Single.state_ok st -> Single.state_ok (Single.sweep now st).
Proof.
  intros (Ht & Hids & Hn & Hall & Hlot). unfold Single.state_ok, Single.sweep. simpl.
  split; [exact Ht |]. split; [| split; [exact Hn |]; split].
  - rewrite map_map, <- Hids. apply map_ext. intros. apply single_sweep_item_id.
  - apply List.Forall_map. eapply List.Forall_impl; [| exact Hall].
    intros. apply single_sweep_item_ok. assumption.
  - intros j Hj. unfold Single.getItem. simpl.
    rewrite (find_map_preserved _ (Single.sweep_item now))
      by (intros; rewrite single_sweep_item_id; reflexivity).
    destruct (Hlot j Hj) as [x Hx]. unfold Single.getItem in Hx. rewrite Hx. eexists.
    reflexivity.
Qed.

Lemma single_createItem_ok adminToken title description openingBid imageUrl c st :
  Single.state_ok st ->
  Single.state_ok (Single.createItem adminToken title description openingBid imageUrl c st).1.2.
Proof.
  intros Hst. unfold Single.createItem.
  destruct (negb (Single.requireAdmin c st adminToken)); [exact Hst |]. cbv zeta.
  destruct (negb (Str.truthy _)); [exact Hst |].
  destruct (negb (Number.isFinite _) || Number.lt _ _) eqn:E; [exact Hst |].
  apply orb_false_iff in E as [E1 _]. apply negb_false_iff in E1.
  destruct Hst as (Ht & Hids & Hn & Hall & Hlot).
  unfold Single.state_ok. simpl.
  split; [exact Ht |]. split; [| split; [lia |]; split].
  - rewrite map_app, Hids. simpl.
    replace (Single.nextItemId st + 1 - 1)%Z with ((Single.nextItemId st - 1) + 1)%Z by lia.
    rewrite seqZ_app by lia. f_equal.
    rewrite seqZ_cons by lia. rewrite seqZ_nil by lia. f_equal. lia.
  - apply Forall_app. split; [exact Hall |]. constructor; [| constructor].
    unfold Single.item_ok. simpl. auto.
  - intros j Hj. unfold Single.getItem. simpl. rewrite find_app_cases.
    destruct (Hlot j Hj) as [x Hx]. unfold Single.getItem in Hx. rewrite Hx. eexists.
    reflexivity.
Qed.

Lemma single_setCurrentLot_ok adminToken itemId c st :
  Single.state_ok st -> Single.state_ok (Single.setCurrentLot adminToken itemId c st).1.2.
Proof.
  intros Hst. unfold Single.setCurrentLot.
  destruct (negb (Single.requireAdmin c st adminToken)); [exact Hst |]. cbv zeta.
  destruct (negb (itemId =? 0)%Z
            && negb (bool_decide (is_Some (Single.getItem st itemId)))) eqn:E;
    [exact Hst |].
  destruct Hst as (Ht & Hids & Hn & Hall & Hlot).
  unfold Single.state_ok. simpl. repeat split; try assumption.
  intros j Hj. destruct (itemId =? 0)%Z; [discriminate |]. injection Hj as <-.
  simpl in E. apply negb_false_iff, bool_decide_eq_true_1 in E. exact E.
Qed.

Ltac single_state h :=
  intros Hst Hc; unfold h; cbv zeta;
  repeat match goal with
    | |- context [if ?b then _ else _] => destruct b
    | |- context [match Single.getItem ?s ?i with _ => _ end] =>
        let E := fresh "E" in destruct (Single.getItem s i) eqn:E
    | |- context [match Single.role ?x with _ => _ end] => destruct (Single.role x)
    end; simpl; try exact Hst;
  match goal with
  | E : Single.getItem ?s ?i = Some ?it |- _ =>
      assert (Hok : Single.item_ok it)
        by (destruct Hst as (_ & _ & _ & Hall & _); rewrite List.Forall_forall in Hall;
            apply Hall, (find_In_list _ _ _ E));
      apply (single_put_item_ok s i it);
        [exact Hst | exact E
         | first [ reflexivity
                 | unfold Single.reopened_item;
                   destruct (Single.endTime_passed _ _); reflexivity ] |];
      first [ exact Hok
            | apply single_reopened_ok; exact Hok
            | apply single_bid_item_ok;
              [exact Hok | apply single_bidder_name_short; exact Hc] ]
  end.

Lemma single_auth_ok role password c st :
  Single.state_ok st -> Single.conn_ok c ->
  Single.state_ok (Single.auth role password c st).1.2.
Proof.
  intros Hst _. unfold Single.auth. cbv zeta.
  repeat match goal with |- context [if ?b then _ else _] => destruct b end; exact Hst.
Qed.

Lemma single_setMinIncrement_ok t v c st :
  Single.state_ok st -> Single.conn_ok c ->
  Single.state_ok (Single.setMinIncrement t v c st).1.2.
Proof.
  intros Hst _. unfold Single.setMinIncrement. cbv zeta.
  repeat match goal with |- context [if ?b then _ else _] => destruct b end; exact Hst.
Qed.

Lemma single_startTimer_ok now t i d c st :
  Single.state_ok st -> Single.conn_ok c ->
  Single.state_ok (Single.startTimer now t i d c st).1.2.
Proof. single_state Single.startTimer. Qed.

Lemma single_stopTimer_ok t i c st :
  Single.state_ok st -> Single.conn_ok c ->
  Single.state_ok (Single.stopTimer t i c st).1.2.
Proof. single_state Single.stopTimer. Qed.

Lemma single_markSold_ok t i c st :
  Single.state_ok st -> Single.conn_ok c ->
  Single.state_ok (Single.markSold t i c st).1.2.
Proof. single_state Single.markSold. Qed.

Lemma single_reopen_ok now t i c st :
  Single.state_ok st -> Single.conn_ok c ->
  Single.state_ok (Single.reopen now t i c st).1.2.
Proof. single_state Single.reopen. Qed.

Lemma single_placeBid_ok now i a n c st :
  Single.state_ok st -> Single.conn_ok c ->
  Single.state_ok (Single.placeBid now i a n c st).1.2.
Proof. single_state Single.placeBid. Qed.

Lemma single_handlers_name now c st :
  (forall role password,
      Single.displayName (Single.auth role password c st).1.1 = Single.displayName c)
  /\ (forall t ti d o img,
      Single.displayName (Single.createItem t ti d o img c st).1.1 = Single.displayName c)
  /\ (forall t v,
      Single.displayName (Single.setMinIncrement t v c st).1.1 = Single.displayName c)
  /\ (forall t i d,
      Single.displayName (Single.startTimer now t i d c st).1.1 = Single.displayName c)
  /\ (forall t i, Single.displayName (Single.stopTimer t i c st).1.1 = Single.displayName c)
  /\ (forall t i, Single.displayName (Single.markSold t i c st).1.1 = Single.displayName c)
  /\ (forall t i, Single.displayName (Single.reopen now t i c st).1.1 = Single.displayName c)
  /\ (forall t i,
      Single.displayName (Single.setCurrentLot t i c st).1.1 = Single.displayName c)
  /\ (forall i a n,
      Single.displayName (Single.placeBid now i a n c st).1.1 = Single.displayName c).
Proof.
  repeat split; intros;
    unfold Single.auth, Single.createItem, Single.setMinIncrement, Single.startTimer,
      Single.stopTimer, Single.markSold, Single.reopen, Single.setCurrentLot,
      Single.placeBid; cbv zeta;
    repeat match goal with
      | |- context [if ?b then _ else _] => destruct b
      | |- context [match Single.getItem ?s ?i with _ => _ end] =>
          destruct (Single.getItem s i)
      | |- context [match Single.role ?x with _ => _ end] => destruct (Single.role x)
      end; reflexivity.
Qed.

Lemma single_conn_ok_of_name c c' :
  Single.displayName c' = Single.displayName c -> Single.conn_ok c -> Single.conn_ok c'.
Proof. intros H Hc d Hd. rewrite H in Hd. exact (Hc d Hd). Qed.

(** The invariant of the server with one auction. *)
Lemma single_on_ok sid h sv :
  (forall c st, Single.state_ok st -> Single.conn_ok c ->
                Single.state_ok (h c st).1.2 /\ Single.conn_ok (h c st).1.1) ->
  Single.state_ok (Single.state sv) ->
  (forall s c, Single.conns sv !! s = Some c -> Single.conn_ok c) ->
  Single.state_ok (Single.state (Single.on sid h sv).1)
  /\ forall s c, Single.conns (Single.on sid h sv).1 !! s = Some c -> Single.conn_ok c.
Proof.
  intros Hh Hst Hcs. unfold Single.on.
  destruct (Single.conns sv !! sid) as [c0|] eqn:E; [| auto].
  destruct (Hh c0 (Single.state sv) Hst (Hcs _ _ E)) as [H1 H2].
  destruct (h c0 (Single.state sv)) as [[c' st'] a]. simpl in *.
  split; [exact H1 |]. intros s c Hl.
  apply lookup_insert_Some in Hl as [[_ <-] | [_ Hl]]; [exact H2 | exact (Hcs _ _ Hl)].
Qed.

Lemma single_reachable_ok envToken envIncrement sv :
  Single.reachable envToken envIncrement sv ->
  Single.state_ok (Single.state sv)
  /\ forall s c, Single.conns sv !! s = Some c -> Single.conn_ok c.
Proof.
  induction 1 as [| now cmd sv Hr [Hst Hcs]].
  - split.
    + unfold Single.state_ok. simpl. repeat split; try constructor; try lia.
      * apply payload_or_truthy. reflexivity.
      * discriminate.
    + intros s c Hl. simpl in Hl. rewrite lookup_empty in Hl. discriminate.
  - destruct cmd; simpl.
    + destruct (Single.conns sv !! sid) eqn:E; [auto |]. simpl. split; [exact Hst |].
      intros s c Hl. apply lookup_insert_Some in Hl as [[_ <-] | [_ Hl]];
        [intros d Hd; discriminate | exact (Hcs _ _ Hl)].
    + split; [exact Hst |]. intros s c Hl.
      apply lookup_delete_Some in Hl as [_ Hl]. exact (Hcs _ _ Hl).
    + apply single_on_ok; auto. intros c st H1 H2. split.
      * apply single_auth_ok; assumption.
      * apply (single_conn_ok_of_name c);
          [apply (single_handlers_name now c st) | exact H2].
    + destruct (Single.conns sv !! sid) as [c0|] eqn:E; [| auto]. simpl.
      split; [exact Hst |]. intros s c Hl.
      apply lookup_insert_Some in Hl as [[_ <-] | [_ Hl]]; [| exact (Hcs _ _ Hl)].
      intros d Hd. injection Hd as <-. apply slice_short, payload_or_truthy. reflexivity.
    + apply single_on_ok; auto. intros c st H1 H2. split.
      * apply single_createItem_ok, H1.
      * apply (single_conn_ok_of_name c);
          [apply (single_handlers_name now c st) | exact H2].
    + apply single_on_ok; auto. intros c st H1 H2. split.
      * apply single_setMinIncrement_ok; assumption.
      * apply (single_conn_ok_of_name c);
          [apply (single_handlers_name now c st) | exact H2].
    + apply single_on_ok; auto. intros c st H1 H2. split.
      * apply single_startTimer_ok; assumption.
      * apply (single_conn_ok_of_name c);
          [apply (single_handlers_name now c st) | exact H2].
    + apply single_on_ok; auto. intros c st H1 H2. split.
      * apply single_stopTimer_ok; assumption.
      * apply (single_conn_ok_of_name c);
          [apply (single_handlers_name now c st) | exact H2].
    + apply single_on_ok; auto. intros c st H1 H2. split.
      * apply single_markSold_ok; assumption.
      * apply (single_conn_ok_of_name c);
          [apply (single_handlers_name now c st) | exact H2].
    + apply single_on_ok; auto. intros c st H1 H2. split.
      * apply single_reopen_ok; assumption.
      * apply (single_conn_ok_of_name c);
          [apply (single_handlers_name now c st) | exact H2].
    + apply single_on_ok; auto. intros c st H1 H2. split.
      * apply single_setCurrentLot_ok, H1.
      * apply (single_conn_ok_of_name c);
          [apply (single_handlers_name now c st) | exact H2].
    + apply single_on_ok; auto. intros c st H1 H2. split.
      * apply single_placeBid_ok; assumption.
      * apply (single_conn_ok_of_name c);
          [apply (single_handlers_name now c st) | exact H2].
    + split; [apply single_sweep_ok, Hst | exact Hcs].
Qed.

Lemma single_handlers_token now c st :
  (forall role password,
      Single.ADMIN_TOKEN (Single.auth role password c st).1.2 = Single.ADMIN_TOKEN st)
  /\ (forall t ti d o img,
      Single.ADMIN_TOKEN (Single.createItem t ti d o img c st).1.2 = Single.ADMIN_TOKEN st)
  /\ (forall t v,
      Single.ADMIN_TOKEN (Single.setMinIncrement t v c st).1.2 = Single.ADMIN_TOKEN st)
  /\ (forall t i d,
      Single.ADMIN_TOKEN (Single.startTimer now t i d c st).1.2 = Single.ADMIN_TOKEN st)
  /\ (forall t i, Single.ADMIN_TOKEN (Single.stopTimer t i c st).1.2 = Single.ADMIN_TOKEN st)
  /\ (forall t i, Single.ADMIN_TOKEN (Single.markSold t i c st).1.2 = Single.ADMIN_TOKEN st)
  /\ (forall t i, Single.ADMIN_TOKEN (Single.reopen now t i c st).1.2 = Single.ADMIN_TOKEN st)
  /\ (forall t i,
      Single.ADMIN_TOKEN (Single.setCurrentLot t i c st).1.2 = Single.ADMIN_TOKEN st)
  /\ (forall i a n,
      Single.ADMIN_TOKEN (Single.placeBid now i a n c st).1.2 = Single.ADMIN_TOKEN st).
Proof.
  repeat split; intros;
    unfold Single.auth, Single.createItem, Single.setMinIncrement, Single.startTimer,
      Single.stopTimer, Single.markSold, Single.reopen, Single.setCurrentLot,
      Single.placeBid; cbv zeta;
    repeat match goal with
      | |- context [if ?b then _ else _] => destruct b
      | |- context [match Single.getItem ?s ?i with _ => _ end] =>
          destruct (Single.getItem s i)
      | |- context [match Single.role ?x with _ => _ end] => destruct (Single.role x)
      end; reflexivity.
Qed.

Lemma single_on_token sid h sv :
  (forall c st, Single.ADMIN_TOKEN (h c st).1.2 = Single.ADMIN_TOKEN st) ->
  Single.ADMIN_TOKEN (Single.state (Single.on sid h sv).1)
  = Single.ADMIN_TOKEN (Single.state sv).
Proof.
  intros Hh. unfold Single.on. destruct (Single.conns sv !! sid) as [c|]; [| reflexivity].
  pose proof (Hh c (Single.state sv)) as H.
  destruct (h c (Single.state sv)) as [[c' st'] a]. exact H.
Qed.

Lemma single_step_token now cmd sv :
  Single.ADMIN_TOKEN (Single.state (Single.step now cmd sv).1)
  = Single.ADMIN_TOKEN (Single.state sv).
Proof.
  destruct cmd; simpl;
    try (apply single_on_token; intros c st; apply (single_handlers_token now c st));
    try reflexivity;
    destruct (Single.conns sv !! sid); reflexivity.
Qed.

Lemma single_reachable_token envToken envIncrement sv :
  Single.reachable envToken envIncrement sv ->
  Single.ADMIN_TOKEN (Single.state sv) = Str.payload_or envToken "1234".
Proof.
  induction 1 as [| now cmd sv Hr IH]; [reflexivity |].
  rewrite single_step_token. exact IH.
Qed.

(** X25. In the server with one auction the admin token never changes: it is
    the one of the environment, or 1234. An admin action is allowed
    exactly when the connection has the role admin or the payload carries
    that token, so a bidder connection that sends the token acts as admin;
    without either, each of the seven admin handlers answers "Admin only"
    and changes nothing. *)
Theorem single_admin_check envToken envIncrement sv c token :
  Single.reachable envToken envIncrement sv ->
  Single.ADMIN_TOKEN (Single.state sv) = Str.payload_or envToken "1234"
  /\ (Single.requireAdmin c (Single.state sv) token = true
      <-> Single.role c = Single.Admin
          \/ token = Some (Single.ADMIN_TOKEN (Single.state sv)))
  /\ (Single.requireAdmin c (Single.state sv) token = false ->
      forall now,
        (forall ti d o img,
            Single.createItem token ti d o img c (Single.state sv)
            = (c, Single.state sv, Single.Failed Single.AdminOnly))
        /\ (forall v, Single.setMinIncrement token v c (Single.state sv)
                      = (c, Single.state sv, Single.Failed Single.AdminOnly))
        /\ (forall i d, Single.startTimer now token i d c (Single.state sv)
                        = (c, Single.state sv, Single.Failed Single.AdminOnly))
        /\ (forall i, Single.stopTimer token i c (Single.state sv)
                      = (c, Single.state sv, Single.Failed Single.AdminOnly))
        /\ (forall i, Single.markSold token i c (Single.state sv)
                      = (c, Single.state sv, Single.Failed Single.AdminOnly))
        /\ (forall i, Single.reopen now token i c (Single.state sv)
                      = (c, Single.state sv, Single.Failed Single.AdminOnly))
        /\ (forall i, Single.setCurrentLot token i c (Single.state sv)
                      = (c, Single.state sv, Single.Failed Single.AdminOnly))).
Proof.
  intros Hr. pose proof (single_reachable_token _ _ _ Hr) as Htok.
  destruct (single_reachable_ok _ _ _ Hr) as [(Ht & _) _].
  split; [exact Htok |]. split.
  - unfold Single.requireAdmin, Single.isAuthedAdminToken. rewrite Ht. simpl.
    destruct (Single.role c); [split; auto |].
    destruct token as [t|]; simpl.
    + split.
      * intros H. apply andb_true_iff in H as [_ H]. apply String.eqb_eq in H.
        right. congruence.
      * intros [H | H]; [discriminate |]. injection H as ->.
        rewrite Ht, String.eqb_refl. reflexivity.
    + split; [discriminate | intros [H | H]; discriminate].
  - intros H now.
    repeat split; intros;
      unfold Single.createItem, Single.setMinIncrement, Single.startTimer,
        Single.stopTimer, Single.markSold, Single.reopen, Single.setCurrentLot;
      rewrite H; reflexivity.
Qed.

Lemma single_admin_check_witness :
  Single.requireAdmin (Single.mkConn Single.Bidder (Some "Ann"%string))
    (Single.state (Single.run Single.auction (Single.init None Number.zero)))
    (Some "1234"%string) = true.
Proof.
  refine (proj2 (proj1 (proj2 (single_admin_check None Number.zero
                                 (Single.run Single.auction (Single.init None Number.zero))
                                 (Single.mkConn Single.Bidder (Some "Ann"%string))
                                 (Some "1234"%string) _))) _).
  - repeat apply Single.reachable_step. apply Single.reachable_init.
  - right. reflexivity.
Defined.

(** X26. In the server with one auction the items are numbered 1, 2, .. in the
    order of creation, [getItem] finds every stored item under its own
    identifier, and the current lot, when set, is the identifier of an
    item. *)
Theorem single_items_numbered envToken envIncrement sv :
  Single.reachable envToken envIncrement sv ->
  List.map Single.id (Single.items (Single.state sv))
  = seqZ 1 (Single.nextItemId (Single.state sv) - 1)
  /\ (forall item, In item (Single.items (Single.state sv)) ->
        Single.getItem (Single.state sv) (Single.id item) = Some item)
  /\ forall i, Single.currentLotId (Single.state sv) = Some i ->
        is_Some (Single.getItem (Single.state sv) i).
Proof.
  intros Hr. destruct (single_reachable_ok _ _ _ Hr) as [(_ & Hids & _ & _ & Hlot) _].
  split; [exact Hids |]. split; [| exact Hlot].
  intros item Hin. apply find_unique; [| exact Hin]. rewrite Hids. apply NoDup_seqZ.
Qed.

Lemma single_items_numbered_witness :
  List.map Single.id
    (Single.items (Single.state (Single.run Single.auction (Single.init None Number.zero))))
  = seqZ 1 (Single.nextItemId
              (Single.state (Single.run Single.auction (Single.init None Number.zero))) - 1).
Proof.
  refine (proj1 (single_items_numbered None Number.zero
                   (Single.run Single.auction (Single.init None Number.zero)) _)).
  repeat apply Single.reachable_step. apply Single.reachable_init.
Defined.


